(** * musicpuncher: the motion-coordination core of [music_puncher.py]

    A shallow embedding of [src/musicpuncher/music_puncher.py]:
    the acceleration profile generator, the per-axis motion planner
    ([PiGPIOStepperMotor.create_move_waveform]), the waveform
    synchronizer ([MusicPuncher.__synchronize]) and the run sequencer
    ([MusicPuncher.run], [MusicPuncher.do_run]).

    Python integers are [Z]; Python floats are IEEE-754 binary64 values,
    computed with the executable specification of [Floats.SpecFloat];
    exceptions are values of an error monad. *)

From Stdlib Require Import ZArith List Bool Lia Floats.SpecFloat.
From Stdlib Require Import Sorting.Sorted Sorting.Permutation.
Import ListNotations.
Open Scope Z_scope.

(** ** Exceptions and the error monad of pure code *)

Inductive runtime_error :=
| EmptyNoteSet                (* "Empty note set is not supported, ..." *)
| WaveCreateFailed (id : Z).  (* "pigpio error on wave_create: {id}" *)

Inductive exn :=
| IndexError
| ZeroDivisionError
| OverflowError
| ValueError
| RuntimeError (what : runtime_error).

Inductive result (A : Type) :=
| Ok (a : A)
| Raise (e : exn).
Arguments Ok {A} a.
Arguments Raise {A} e.

Definition bind {A B} (r : result A) (k : A -> result B) : result B :=
  match r with
  | Ok a => k a
  | Raise e => Raise e
  end.

Declare Scope result_scope.
Delimit Scope result_scope with result.
Notation "x <- c ;; k" := (bind c (fun x => k))
  (at level 61, c at next level, right associativity) : result_scope.
Open Scope result_scope.

(** ** Python numbers *)

Module Py.

(** binary64 *)
Definition prec : Z := 53.
Definition emax : Z := 1024.

Definition float := spec_float.

Inductive number :=
| Int (z : Z)
| Float (f : float).

(** [float(z)]: nearest binary64, ties to even; too large an integer
    raises [OverflowError]. *)
Definition float_of_int (z : Z) : result float :=
  match binary_normalize prec emax z 0 false with
  | S754_infinity _ => Raise OverflowError
  | f => Ok f
  end.

Definition to_float (x : number) : result float :=
  match x with
  | Int z => float_of_int z
  | Float f => Ok f
  end.

Definition is_zero (x : number) : bool :=
  match x with
  | Int z => z =? 0
  | Float (S754_zero _) => true
  | Float _ => false
  end.

(** [x / y] (true division).  Two integers give the correctly rounded
    quotient, computed here from their exact representations. *)
Definition exact_of_int (z : Z) : float :=
  match z with
  | Z0 => S754_zero false
  | Zpos p => S754_finite false p 0
  | Zneg p => S754_finite true p 0
  end.

Definition truediv (x y : number) : result number :=
  if is_zero y then Raise ZeroDivisionError
  else match x, y with
       | Int a, Int b =>
           match SFdiv prec emax (exact_of_int a) (exact_of_int b) with
           | S754_infinity _ => Raise OverflowError
           | q => Ok (Float q)
           end
       | _, _ =>
           fx <- to_float x ;;
           fy <- to_float y ;;
           Ok (Float (SFdiv prec emax fx fy))
       end.

Definition mul (x y : number) : result number :=
  match x, y with
  | Int a, Int b => Ok (Int (a * b))
  | _, _ =>
      fx <- to_float x ;;
      fy <- to_float y ;;
      Ok (Float (SFmul prec emax fx fy))
  end.

Definition add (x y : number) : result number :=
  match x, y with
  | Int a, Int b => Ok (Int (a + b))
  | _, _ =>
      fx <- to_float x ;;
      fy <- to_float y ;;
      Ok (Float (SFadd prec emax fx fy))
  end.

(** Comparison of a float with an integer is exact in Python. *)
Definition compare_float_int (f : float) (z : Z) : option comparison :=
  match f with
  | S754_nan => None
  | S754_infinity s => Some (if s then Lt else Gt)
  | S754_zero _ => Some (0 ?= z)
  | S754_finite s m e =>
      let sm := if s then Zneg m else Zpos m in
      Some (if 0 <=? e then (sm * 2 ^ e ?= z) else (sm ?= z * 2 ^ (- e)))
  end.

Definition compare (x y : number) : option comparison :=
  match x, y with
  | Int a, Int b => Some (a ?= b)
  | Float f, Float g => SFcompare f g
  | Float f, Int b => compare_float_int f b
  | Int a, Float g => option_map CompOpp (compare_float_int g a)
  end.

Definition lt (x y : number) : bool :=
  match compare x y with Some Lt => true | _ => false end.

Definition le (x y : number) : bool :=
  match compare x y with Some (Lt | Eq) => true | _ => false end.

(** [round(x)] with one argument: the nearest integer, ties to even. *)
Definition round_half_even (num den : Z) : Z :=
  let q := num / den in
  let r := num mod den in
  match 2 * r ?= den with
  | Lt => q
  | Gt => q + 1
  | Eq => if Z.even q then q else q + 1
  end.

Definition round (x : number) : result Z :=
  match x with
  | Int z => Ok z
  | Float S754_nan => Raise ValueError
  | Float (S754_infinity _) => Raise OverflowError
  | Float (S754_zero _) => Ok 0
  | Float (S754_finite s m e) =>
      let sm := if s then Zneg m else Zpos m in
      Ok (if 0 <=? e then sm * 2 ^ e else round_half_even sm (2 ^ (- e)))
  end.

(** [l[i]]: a negative index counts from the end; out of range raises. *)
Definition index {A} (l : list A) (i : Z) : result A :=
  let n := Z.of_nat (length l) in
  let j := if i <? 0 then i + n else i in
  if (j <? 0) || (n <=? j) then Raise IndexError
  else match nth_error l (Z.to_nat j) with
       | Some a => Ok a
       | None => Raise IndexError
       end.

End Py.

Coercion Py.Int : Z >-> Py.number.


(** ** [calculate_acceleration_profile] *)

(** A call either returns (a value or an exception) or is still running
    when the iteration budget is spent. *)
Inductive run_result (A : Type) :=
| Returns (r : result A)
| OutOfFuel.
Arguments Returns {A} r.
Arguments OutOfFuel {A}.

(** One pass through the body of [while sps < max_sps]: the delay
    appended to the profile and the next speed. *)
Definition profile_step (sps acceleration : Py.number) : result (Z * Py.number) :=
  q <- Py.truediv 1000000 sps ;;
  d <- Py.round q ;;
  inv <- Py.truediv 1 sps ;;
  inc <- Py.mul acceleration inv ;;
  sps' <- Py.add sps inc ;;
  Ok (d, sps').

Fixpoint profile_loop (fuel : nat) (sps max_sps acceleration : Py.number)
    (profile : list Z) : run_result (list Z) :=
  if Py.lt sps max_sps then
    match fuel with
    | O => OutOfFuel
    | S fuel' =>
        match profile_step sps acceleration with
        | Ok (d, sps') =>
            profile_loop fuel' sps' max_sps acceleration (profile ++ [d])
        | Raise e => Returns (Raise e)
        end
    end
  else Returns (Ok profile).

Definition calculate_acceleration_profile (fuel : nat)
    (min_sps max_sps acceleration : Py.number) : run_result (list Z) :=
  profile_loop fuel min_sps max_sps acceleration [].

(** ** [PiGPIOStepperMotor] *)

(** [pigpio.pulse(gpio_on, gpio_off, delay)] *)
Record pulse := mk_pulse {
  gpio_on : Z;
  gpio_off : Z;
  delay : Z
}.

Record PiGPIOStepperMotor := {
  dir_pin : N;
  step_pin : N;
  acceleration_profile : list Z;
  min_delay : Py.number;   (* seconds *)
  max_delay : Py.number
}.

(** The [config] dictionary of one stepper. *)
Record stepper_config := {
  cfg_dir_pin : N;
  cfg_step_pin : N;
  cfg_min_sps : Py.number;
  cfg_max_sps : Py.number;
  cfg_acceleration : Py.number
}.

(** [PiGPIOStepperMotor.__init__] *)
Definition new_stepper (fuel : nat) (config : stepper_config)
  : run_result PiGPIOStepperMotor :=
  match calculate_acceleration_profile fuel (cfg_min_sps config)
          (cfg_max_sps config) (cfg_acceleration config) with
  | OutOfFuel => OutOfFuel
  | Returns (Raise e) => Returns (Raise e)
  | Returns (Ok profile) =>
      Returns (lo <- Py.truediv 1 (cfg_max_sps config) ;;
               hi <- Py.truediv 1 (cfg_min_sps config) ;;
               Ok {| dir_pin := cfg_dir_pin config;
                     step_pin := cfg_step_pin config;
                     acceleration_profile := profile;
                     min_delay := lo;
                     max_delay := hi |})
  end.

(** [0 if dir < 0 else 1], the level written to the direction pin. *)
Definition dir_level (dir : Z) : Z := if dir <? 0 then 0 else 1.

(** [round(self.min_delay * 1000000)] *)
Definition min_delay_us (m : PiGPIOStepperMotor) : result Z :=
  x <- Py.mul (min_delay m) 1000000 ;;
  Py.round x.

(** The loop [for i in range(0, count)] of [create_move_waveform]:
    [n] iterations are left, [i], [rem] and [steps_to_stop] are the
    loop's variables, and [emit delay_us] is what one iteration appends
    to the output. *)
Fixpoint move_loop {A} (emit : Z -> list A) (profile : list Z) (min_delay_us : Z)
    (n : nat) (i rem steps_to_stop : Z) (out : list A) : result (list A) :=
  match n with
  | O => Ok out
  | S n' =>
      let rem := rem - 1 in
      if rem <=? steps_to_stop then
        delay_us <- Py.index profile rem ;;
        move_loop emit profile min_delay_us n' (i + 1) rem steps_to_stop
          (out ++ emit delay_us)
      else if i <? Z.of_nat (length profile) then
        delay_us <- Py.index profile i ;;
        move_loop emit profile min_delay_us n' (i + 1) rem i
          (out ++ emit delay_us)
      else
        move_loop emit profile min_delay_us n' (i + 1) rem steps_to_stop
          (out ++ emit min_delay_us)
  end.

Definition move_plan {A} (emit : Z -> list A) (m : PiGPIOStepperMotor)
    (steps : Z) : result (list A) :=
  min_delay_us <- min_delay_us m ;;
  let count := Z.abs steps in
  move_loop emit (acceleration_profile m) min_delay_us
    (Z.to_nat count) 0 count 0 [].

(** The two pulses appended for one step. *)
Definition step_pulses (step_pin : N) (delay_us : Z) : list pulse :=
  [ mk_pulse (Z.shiftl 1 (Z.of_N step_pin)) 0 (Z.shiftr delay_us 1);
    mk_pulse 0 (Z.shiftl 1 (Z.of_N step_pin)) (Z.shiftr delay_us 1) ].

(** [create_move_waveform] (its write to the direction pin is an event
    of the sequencer below). *)
Definition create_move_waveform (m : PiGPIOStepperMotor) (steps : Z)
  : result (list pulse) :=
  move_plan (step_pulses (step_pin m)) m steps.

(** The logical per-step delays: the values [delay_us] takes in the
    same loop, one per iteration. *)
Definition move_delays (m : PiGPIOStepperMotor) (steps : Z) : result (list Z) :=
  move_plan (fun delay_us => [delay_us]) m steps.

(** ** [MusicPuncher.__synchronize] *)

Definition wavelength (pulses : list pulse) : Z :=
  fold_left (fun l p => l + delay p) pulses 0.

Definition set_delay (p : pulse) (d : Z) : pulse :=
  mk_pulse (gpio_on p) (gpio_off p) d.

(** [round(pulse.delay * factor)] *)
Definition scale_delay (d : Z) (factor : Py.number) : result Z :=
  x <- Py.mul d factor ;;
  Py.round x.

Fixpoint scale (pulses : list pulse) (factor : Py.number) : result (list pulse) :=
  match pulses with
  | [] => Ok []
  | p :: rest =>
      d <- scale_delay (delay p) factor ;;
      rest' <- scale rest factor ;;
      Ok (set_delay p d :: rest')
  end.

(** Returns the two waves as the in-place scaling leaves them, and the
    length in microseconds. *)
Definition synchronize (wave1 wave2 : list pulse)
  : result (list pulse * list pulse * Z) :=
  match wave1, wave2 with
  | [], _ => Ok (wave1, wave2, wavelength wave2)
  | _, [] => Ok (wave1, wave2, wavelength wave1)
  | _, _ =>
      let l1 := wavelength wave1 in
      let l2 := wavelength wave2 in
      if l2 <? l1 then
        factor <- Py.truediv l1 l2 ;;
        wave2' <- scale wave2 factor ;;
        Ok (wave1, wave2', l1)
      else
        factor <- Py.truediv l2 l1 ;;
        wave1' <- scale wave1 factor ;;
        Ok (wave1', wave2, l2)
  end.

(** ** The run sequencer: [MusicPuncher] *)

(** What the sequencer asks of its collaborators, in the order it asks.
    [Punch] and [Cut] stand for one call of [Puncher.punch] and
    [Cutter.cut] (pin high, hold, pin low, hold); [WaitForWave] for
    [__wait_for_wave], which sleeps until the expected end of the wave
    and then polls [wave_tx_busy] until the daemon is idle. *)
Inductive event :=
| WaveClear
| GpioWrite (pin : N) (level : Z)
| WaveAddGeneric (pulses : list pulse)
| WaveCreate (id : Z)
| WaveSendOnce (id : Z)
| WaitForWave
| ButtonRead (on : bool)
| Punch
| Cut.

(** The answers of the pigpio daemon and of the zero button, given the
    interaction so far. *)
Record hardware := {
  wave_create : list event -> Z;
  zero_button_is_on : list event -> bool
}.

Record MusicPuncher := {
  feed_stepper : PiGPIOStepperMotor;
  tone_stepper : PiGPIOStepperMotor;
  zero_button : bool;          (* [False] for ['absent'] *)
  idle_position : Z;
  row0 : Z;
  tone_steps : Z;
  feed_steps : Py.number;
  cutter_position : Z;
  end_feed : Z
}.

(** The mutable part of [self], and the log of events. *)
Record state := mk_state {
  position : Z;
  prepared_wave_length : Py.number;
  log : list event
}.

Inductive outcome (A : Type) :=
| Done (a : A) (s : state)
| Failed (e : exn) (s : state)
| Hang.
Arguments Done {A} a s.
Arguments Failed {A} e s.
Arguments Hang {A}.

Definition M (A : Type) : Type := state -> outcome A.

Definition mret {A} (a : A) : M A := fun s => Done a s.

Definition mbind {A B} (c : M A) (k : A -> M B) : M B :=
  fun s => match c s with
           | Done a s' => k a s'
           | Failed e s' => Failed e s'
           | Hang => Hang
           end.

Definition lift {A} (r : result A) : M A :=
  fun s => match r with
           | Ok a => Done a s
           | Raise e => Failed e s
           end.

Definition emit (ev : event) : M unit :=
  fun s => Done tt (mk_state (position s) (prepared_wave_length s) (log s ++ [ev])).

Definition get_position : M Z := fun s => Done (position s) s.

Definition set_position (p : Z) : M unit :=
  fun s => Done tt (mk_state p (prepared_wave_length s) (log s)).

Definition set_prepared_wave_length (l : Py.number) : M unit :=
  fun s => Done tt (mk_state (position s) l (log s)).

Definition get_log : M (list event) := fun s => Done (log s) s.

Declare Scope machine_scope.
Delimit Scope machine_scope with machine.
Notation "x <- c ;; k" := (mbind c (fun x => k))
  (at level 61, c at next level, right associativity) : machine_scope.
Notation "c ;; k" := (mbind c (fun _ => k))
  (at level 61, right associativity) : machine_scope.

(** [(delay, note)] steps: a feed delay and a tone displacement. *)
Definition MoveStep : Type := Z * Z.

Definition is_zero_step (t : MoveStep) : bool :=
  (fst t =? 0) && (snd t =? 0).

(** [sorted] on integers. *)
Fixpoint insert_sorted (x : Z) (l : list Z) : list Z :=
  match l with
  | [] => [x]
  | y :: l' => if x <=? y then x :: l else y :: insert_sorted x l'
  end.

Fixpoint sorted (l : list Z) : list Z :=
  match l with
  | [] => []
  | x :: l' => insert_sorted x (sorted l')
  end.

(** The inner loop [for targetPosition in positions] of [run]. *)
Fixpoint chord_loop (positions : list Z) (delay position : Z)
    (steps : list MoveStep) : list MoveStep * Z :=
  match positions with
  | [] => (steps, position)
  | targetPosition :: rest =>
      let tuple := (delay, targetPosition - position) in
      let steps := if is_zero_step tuple then steps else steps ++ [tuple] in
      chord_loop rest 0 targetPosition steps
  end.

Section Sequencer.

(** The note sequence and the keyboard are collaborators: a note is
    looked up with [keyboard.get_index]. *)
Variable note : Type.
Variable get_index : note -> Z.
Variable hw : hardware.
Variable self : MusicPuncher.

Record DelayNotes := {
  dn_delay : Py.number;
  dn_notes : list note
}.

(** [sorted([self.row0 + (self.keyboard.get_index(note) * self.tone_steps) ...])] *)
Definition target_positions (dn : DelayNotes) : list Z :=
  sorted (map (fun n => row0 self + get_index n * tone_steps self) (dn_notes dn)).

(** [round(delayNotes.delay * self.feed_steps)] *)
Definition scaled_delay (dn : DelayNotes) : result Z :=
  x <- Py.mul (dn_delay dn) (feed_steps self) ;;
  Py.round x.

(** The order in which one event's targets are visited. *)
Definition visit_order (position : Z) (positions : list Z) : result (list Z) :=
  last <- Py.index positions (-1) ;;
  first <- Py.index positions 0 ;;
  Ok (if Z.abs (position - last) <? Z.abs (position - first)
      then rev positions else positions).

(** The loop [for delayNotes in self.notesequence] of [run]. *)
Fixpoint build_steps (events : list DelayNotes) (position : Z)
    (steps : list MoveStep) : result (list MoveStep) :=
  match events with
  | [] => Ok steps
  | delayNotes :: rest =>
      match dn_notes delayNotes with
      | [] => Raise (RuntimeError EmptyNoteSet)
      | _ :: _ =>
          positions <- visit_order position (target_positions delayNotes) ;;
          delay <- scaled_delay delayNotes ;;
          let '(steps, position) := chord_loop positions delay position steps in
          build_steps rest position steps
      end
  end.

Local Close Scope result_scope.
Local Open Scope machine_scope.

Definition add_wave (pulses : list pulse) : M unit :=
  match pulses with
  | [] => mret tt
  | _ :: _ => emit (WaveAddGeneric pulses)
  end.

(** [stepper.create_move_waveform(steps)] with its direction write. *)
Definition stepper_waveform (m : PiGPIOStepperMotor) (steps : Z) : M (list pulse) :=
  emit (GpioWrite (dir_pin m) (dir_level (if steps <? 0 then -1 else 1))) ;;
  lift (create_move_waveform m steps).

Definition prepare_waveform (timesteps notesteps : Z) : M unit :=
  emit WaveClear ;;
  wave1 <- stepper_waveform (feed_stepper self) timesteps ;;
  wave2 <- stepper_waveform (tone_stepper self) notesteps ;;
  synced <- lift (synchronize wave1 wave2) ;;
  seconds <- lift (Py.truediv (snd synced) 1000000) ;;
  set_prepared_wave_length seconds ;;
  add_wave (fst (fst synced)) ;;
  add_wave (snd (fst synced)).

Definition create_and_send_wave : M unit :=
  history <- get_log ;;
  let id := wave_create hw history in
  emit (WaveCreate id) ;;
  if id <? 0 then lift (Raise (RuntimeError (WaveCreateFailed id)))
  else emit (WaveSendOnce id).

Definition wait_for_wave : M unit := emit WaitForWave.

Definition punch : M unit := emit Punch.

Definition cut : M unit := emit Cut.

(** [__move] *)
Definition move (feedsteps tonesteps : Z) : M unit :=
  if (feedsteps =? 0) && (tonesteps =? 0) then mret tt
  else
    prepare_waveform feedsteps tonesteps ;;
    create_and_send_wave ;;
    wait_for_wave ;;
    position <- get_position ;;
    set_position (position + tonesteps).

(** The body of [for idx, step in enumerate(steps)] in [do_run];
    [steps] is what is left of the plan from index [idx] on, so that
    [idx < len(steps) - 1] holds when a next step exists.  Returns
    [did_cut]. *)
Fixpoint run_loop (idx : nat) (steps : list MoveStep)
    (cutter_step total_time_steps : Z) (did_cut : bool) : M bool :=
  match steps with
  | [] => mret did_cut
  | step :: rest =>
      (if Nat.eqb idx 0 then prepare_waveform (fst step) (snd step) else mret tt) ;;
      create_and_send_wave ;;
      match rest with
      | next :: _ => prepare_waveform (fst next) (snd next)
      | [] => mret tt
      end ;;
      wait_for_wave ;;
      position <- get_position ;;
      set_position (position + snd step) ;;
      punch ;;
      let total_time_steps := total_time_steps + fst step in
      if negb did_cut && (cutter_step <=? total_time_steps) then
        cut ;;
        run_loop (S idx) rest cutter_step total_time_steps true
      else
        run_loop (S idx) rest cutter_step total_time_steps did_cut
  end.

(** The plan's total feed: the first loop of [do_run]. *)
Definition total_feed (steps : list MoveStep) : Z :=
  fold_left (fun total step => total + fst step) steps 0.

Definition to_idle (feedsteps : Z) : M unit :=
  position <- get_position ;;
  move feedsteps (idle_position self - position).

Definition do_run (steps : list MoveStep) : M unit :=
  let cutter_step := total_feed steps + cutter_position self in
  did_cut <- run_loop 0 steps cutter_step 0 false ;;
  (if negb did_cut then
     (if 0 <? cutter_position self then to_idle (cutter_position self)
      else mret tt) ;;
     cut
   else mret tt) ;;
  (if 0 <? end_feed self then to_idle (end_feed self) else mret tt) ;;
  to_idle 0.

(** [move_until(-1, lambda: self.zero_button.is_on())] *)
Fixpoint poll_zero_button (fuel : nat) (m : PiGPIOStepperMotor) : M unit :=
  history <- get_log ;;
  let on := zero_button_is_on hw history in
  emit (ButtonRead on) ;;
  if on then mret tt
  else match fuel with
       | O => fun _ => Hang
       | S fuel' =>
           emit (GpioWrite (step_pin m) 1) ;;
           emit (GpioWrite (step_pin m) 0) ;;
           poll_zero_button fuel' m
       end.

Definition move_until (fuel : nat) (m : PiGPIOStepperMotor) (dir : Z) : M unit :=
  emit (GpioWrite (dir_pin m) (dir_level dir)) ;;
  poll_zero_button fuel m.

Definition reset (fuel : nat) : M unit :=
  if zero_button self then
    move_until fuel (tone_stepper self) (-1) ;;
    set_position 0 ;;
    move 0 (idle_position self)
  else set_position (idle_position self).

Definition run (fuel : nat) (notesequence : list DelayNotes) : M unit :=
  reset fuel ;;
  position <- get_position ;;
  steps <- lift (build_steps notesequence position []) ;;
  do_run steps.

End Sequencer.

Arguments dn_delay {note} _.
Arguments dn_notes {note} _.

(** ** Statements and example configurations *)

Definition map_result {A B} (f : A -> B) (r : result A) : result B :=
  match r with
  | Ok a => Ok (f a)
  | Raise e => Raise e
  end.

(** A stepper configured with [min-sps = 1000], [max-sps = 1003],
    [acceleration = 1000]: its profile is [[1000; 999; 998; 997]]. *)
Definition example_config : stepper_config :=
  {| cfg_dir_pin := 17; cfg_step_pin := 18;
     cfg_min_sps := 1000; cfg_max_sps := 1003; cfg_acceleration := 1000 |}.

Definition example_stepper : PiGPIOStepperMotor :=
  {| dir_pin := 17; step_pin := 18;
     acceleration_profile := [1000; 999; 998; 997];
     min_delay := Py.Float (S754_finite false 4597892341403178 (-62));
     max_delay := Py.Float (S754_finite false 4611686018427388 (-62)) |}.

(** [min-sps = max-sps = 1000]: the speed loop is not entered and the
    profile is empty. *)
Definition flat_config : stepper_config :=
  {| cfg_dir_pin := 17; cfg_step_pin := 18;
     cfg_min_sps := 1000; cfg_max_sps := 1000; cfg_acceleration := 1000 |}.

Definition flat_stepper : PiGPIOStepperMotor :=
  {| dir_pin := 17; step_pin := 18;
     acceleration_profile := [];
     min_delay := Py.Float (S754_finite false 4611686018427388 (-62));
     max_delay := Py.Float (S754_finite false 4611686018427388 (-62)) |}.

(** [pulses'] is [pulses] after [scale(pulses, factor)]: the same GPIO
    masks, each delay replaced by [round(pulse.delay * factor)]. *)
Definition scaled_by (factor : Py.number) (pulses pulses' : list pulse) : Prop :=
  Forall2 (fun p p' =>
             gpio_on p' = gpio_on p /\ gpio_off p' = gpio_off p /\
             scale_delay (delay p) factor = Ok (delay p'))
          pulses pulses'.

(** The binary64 product was accurate: each new delay is within one
    microsecond of [delay * a / b]. *)
Definition within_a_microsecond (a b : Z) (pulses pulses' : list pulse) : Prop :=
  Forall2 (fun p p' => Z.abs (delay p' * b - delay p * a) <= b) pulses pulses'.

(** The synchronizer in the words of the specification: the sum of a
    train's delays, one delay of the shorter train multiplied by
    [longer / shorter] and rounded to the nearest microsecond, and a
    train stretched that way with its GPIO masks kept. *)
Definition delay_sum (pulses : list pulse) : Z :=
  fold_right Z.add 0 (map delay pulses).

Definition stretched_delay (d longer shorter : Z) : result Z :=
  factor <- Py.truediv longer shorter ;;
  product <- Py.mul d factor ;;
  Py.round product.

Definition stretched (longer shorter : Z) (pulses pulses' : list pulse) : Prop :=
  Forall2 (fun p p' =>
             gpio_on p' = gpio_on p /\ gpio_off p' = gpio_off p /\
             stretched_delay (delay p) longer shorter = Ok (delay p'))
          pulses pulses'.

Definition example_feed_wave : list pulse :=
  flat_map (step_pulses 18) [1000; 999; 1000].

Definition example_tone_wave : list pulse :=
  flat_map (step_pulses 23) [1000; 999; 998; 999; 1000].

(** [example_feed_wave] stretched by [4994 / 2998]. *)
Definition example_feed_wave_scaled : list pulse :=
  [ mk_pulse 262144 0 833; mk_pulse 0 262144 833;
    mk_pulse 262144 0 831; mk_pulse 0 262144 831;
    mk_pulse 262144 0 833; mk_pulse 0 262144 833 ].

(** Counting the cutter and puncher firings of a trace. *)
Definition is_cut (ev : event) : bool :=
  match ev with Cut => true | _ => false end.

Definition is_punch (ev : event) : bool :=
  match ev with Punch => true | _ => false end.

Definition cuts (tr : list event) : nat := length (filter is_cut tr).

Definition punches (tr : list event) : nat := length (filter is_punch tr).

(** A trace in which neither actuator fires. *)
Definition quiet (tr : list event) : Prop := cuts tr = 0%nat /\ punches tr = 0%nat.

(** The cumulative feed after the first [k] moves of a plan. *)
Definition cumulative_feed (steps : list MoveStep) (k : nat) : Z :=
  total_feed (firstn k steps).

Definition total_tone (steps : list MoveStep) : Z :=
  fold_right (fun step acc => snd step + acc) 0 steps.

(** A pigpio daemon that accepts every wave, and a zero button that is
    pressed at the first poll. *)
Definition good_hardware : hardware :=
  {| wave_create := fun _ => 0; zero_button_is_on := fun _ => true |}.

(** Both axes on [example_stepper]-like motors, no zero button, idle
    position 0, cutter 3 feed steps past the punch head. *)
Definition example_puncher : MusicPuncher :=
  {| feed_stepper := example_stepper;
     tone_stepper :=
       {| dir_pin := 22; step_pin := 23;
          acceleration_profile := [1000; 999; 998; 997];
          min_delay := Py.Float (S754_finite false 4597892341403178 (-62));
          max_delay := Py.Float (S754_finite false 4611686018427388 (-62)) |};
     zero_button := false;
     idle_position := 0;
     row0 := 10;
     tone_steps := 2;
     feed_steps := 3;
     cutter_position := 3;
     end_feed := 0 |}.

(** The same machine with the cutter at the punch head. *)
Definition flush_puncher : MusicPuncher :=
  {| feed_stepper := feed_stepper example_puncher;
     tone_stepper := tone_stepper example_puncher;
     zero_button := false;
     idle_position := 0;
     row0 := 10;
     tone_steps := 2;
     feed_steps := 3;
     cutter_position := 0;
     end_feed := 0 |}.

Definition initial_state : state := mk_state 0 0 [].

(** A plan of four moves whose feed is complete after the third. *)
Definition example_plan : list MoveStep := [(5, 10); (0, 4); (2, -4); (0, 1)].

Definition state_of {A} (o : outcome A) : state :=
  match o with
  | Done _ s => s
  | Failed _ s => s
  | Hang => initial_state
  end.

(** The chord rule in the words of the specification: the tone
    displacements along a visiting order, and the moves of one event,
    the event's delay on the first candidate and zero on the others,
    the [(0, 0)] candidates dropped. *)
Fixpoint deltas (position : Z) (order : list Z) : list Z :=
  match order with
  | [] => []
  | target :: rest => (target - position) :: deltas target rest
  end.

Definition nonzero_step (mv : MoveStep) : bool :=
  match mv with
  | (0, 0) => false
  | _ => true
  end.

Definition chord_moves (delay position : Z) (order : list Z) : list MoveStep :=
  filter nonzero_step
    (combine (delay :: repeat 0 (length order - 1)) (deltas position order)).

Section PlanSpec.

Variable note : Type.
Variable get_index : note -> Z.
Variable self : MusicPuncher.

(** [chords_visited p events delays chunks]: starting at position [p],
    [chunks] holds, event by event, the moves of a plan that visits
    each event's targets in sorted order, reversed exactly when [p] is
    strictly closer to the last target than to the first. *)
Inductive chords_visited :
  Z -> list (DelayNotes note) -> list Z -> list (list MoveStep) -> Prop :=
| cv_nil (p : Z) : chords_visited p [] [] []
| cv_cons (p d : Z) (dn : DelayNotes note) (events : list (DelayNotes note))
    (ds targets order : list Z) (chunks : list (list MoveStep)) :
    Permutation
      (map (fun n => row0 self + get_index n * tone_steps self) (dn_notes dn))
      targets ->
    Sorted Z.le targets ->
    order = (if Z.abs (p - last targets 0) <? Z.abs (p - hd 0 targets)
             then rev targets else targets) ->
    chords_visited (last order p) events ds chunks ->
    chords_visited p (dn :: events) (d :: ds) (chord_moves d p order :: chunks).

End PlanSpec.

(** Exceptions of arithmetic and indexing, as opposed to the
    [RuntimeError]s the sequencer raises itself. *)
Definition arith_exn (e : exn) : Prop :=
  match e with
  | RuntimeError _ => False
  | _ => True
  end.

Definition pure_errors {A} (r : result A) : Prop :=
  forall e, r = Raise e -> arith_exn e.

(** Two note sequences for a keyboard on which a note is its own row
    index; the second has an event without notes. *)
Definition example_events : list (DelayNotes Z) :=
  [ Build_DelayNotes Z 1 [0; 3]; Build_DelayNotes Z 0 [3; 1] ].

Definition events_with_rest : list (DelayNotes Z) :=
  [ Build_DelayNotes Z 1 [0; 3]; Build_DelayNotes Z 2 []; Build_DelayNotes Z 0 [1] ].

(** A computation that never fails with the empty-note-set error. *)
Definition no_empty_note_error {A} (c : M A) : Prop :=
  forall s e s', c s = Failed e s' -> e <> RuntimeError EmptyNoteSet.

(** A machine with a zero button, whose idle position is 7 steps from
    the button, and a button that is never pressed. *)
Definition homing_puncher : MusicPuncher :=
  {| feed_stepper := feed_stepper example_puncher;
     tone_stepper := tone_stepper example_puncher;
     zero_button := true;
     idle_position := 7;
     row0 := 10;
     tone_steps := 2;
     feed_steps := 3;
     cutter_position := 3;
     end_feed := 4 |}.

Definition stuck_button : hardware :=
  {| wave_create := fun _ => 0; zero_button_is_on := fun _ => false |}.

(** A daemon that refuses every wave with pigpio's error code -67. *)
Definition refusing_daemon : hardware :=
  {| wave_create := fun _ => -67; zero_button_is_on := fun _ => true |}.

(** Every [Punch] of a trace comes right after a [WaitForWave];
    [after_wait] tells whether the event before the trace was one. *)
Fixpoint waits_before_punch (after_wait : bool) (tr : list event) : bool :=
  match tr with
  | [] => true
  | Punch :: rest => after_wait && waits_before_punch false rest
  | WaitForWave :: rest => waits_before_punch true rest
  | _ :: rest => waits_before_punch false rest
  end.

(** ** The hardware mock: [pigpio_mock.pi] *)

Module Mock.

(** The waves added since the last [wave_clear]. *)
Definition wave_clear (waves : list (list pulse)) : list (list pulse) := [].

Definition wave_add_generic (waves : list (list pulse)) (pulses : list pulse)
  : list (list pulse) :=
  waves ++ [pulses].

(** The inner loop of [wave_send_once]: [wavetime_us]. *)
Definition wavetime_us (pulses : list pulse) : Z :=
  fold_left (fun t p => t + delay p) pulses 0.

(** [totaltime_us] at the end of [wave_send_once]; the end of the
    transmission is set to [time() + totaltime_us / 1000000]. *)
Definition totaltime_us (waves : list (list pulse)) : Z :=
  fold_left (fun total pulses =>
               if total <? wavetime_us pulses then wavetime_us pulses else total)
            waves 0.

End Mock.

(** ** The legacy adapter: [pigpio_adapter.py] *)

Module Adapter.

(** Besides the exceptions of the sequencer, the adapter can raise
    [TypeError]: its cruise delay is the float [min_delay], and
    [delay >> 1] is not defined on a float. *)
Inductive adapter_exn :=
| PyError (e : exn)
| TypeError.

Inductive aresult (A : Type) :=
| AOk (a : A)
| ARaise (e : adapter_exn).
Arguments AOk {A} a.
Arguments ARaise {A} e.

Definition of_result {A} (r : result A) : aresult A :=
  match r with
  | Ok a => AOk a
  | Raise e => ARaise (PyError e)
  end.

Definition abind {A B} (r : aresult A) (k : A -> aresult B) : aresult B :=
  match r with
  | AOk a => k a
  | ARaise e => ARaise e
  end.

(** The loop of [add_move_waveform]. *)
Fixpoint add_loop (profile : list Z) (step_pin : N)
    (n : nat) (i rem steps_to_stop : Z) (pulses : list pulse)
  : aresult (list pulse) :=
  match n with
  | O => AOk pulses
  | S n' =>
      let rem := rem - 1 in
      if rem <=? steps_to_stop then
        abind (of_result (Py.index profile rem)) (fun delay =>
          add_loop profile step_pin n' (i + 1) rem steps_to_stop
            (pulses ++ step_pulses step_pin delay))
      else if i <? Z.of_nat (length profile) then
        abind (of_result (Py.index profile i)) (fun delay =>
          add_loop profile step_pin n' (i + 1) rem i
            (pulses ++ step_pulses step_pin delay))
      else
        (* delay = min_delay, a float: [delay >> 1] raises *)
        ARaise TypeError
  end.

(** [add_move_waveform]: whether a waveform was added, and its pulses. *)
Definition add_move_waveform (m : PiGPIOStepperMotor) (steps : Z)
  : aresult (bool * list pulse) :=
  let count := Z.abs steps in
  abind (add_loop (acceleration_profile m) (step_pin m)
           (Z.to_nat count) 0 count 0 [])
        (fun pulses =>
           match pulses with
           | [] => AOk (false, pulses)
           | _ :: _ => AOk (true, pulses)
           end).

Record PiGPIOPuncherAdapter := {
  time_stepper : PiGPIOStepperMotor;
  row_stepper : PiGPIOStepperMotor
}.

Definition ROW_STEPS : Z := 100.
Definition TIME_STEPS : Z := 100.

Section Move.

(** [keyboard.get_index] *)
Variable get_index : Z -> Z.
Variable self : PiGPIOPuncherAdapter.

(** [move] up to [if moved:]: the new position, the waveforms added to
    the daemon, in order, and [moved]. *)
Definition move_waveforms (position note : Z) (delay : Py.number)
  : aresult (Z * list (list pulse) * bool) :=
  abind (of_result (x <- Py.mul delay TIME_STEPS ;; Py.round x)) (fun timesteps =>
  abind (add_move_waveform (time_stepper self) timesteps) (fun time_wave =>
    let moved := fst time_wave in
    let waves := if moved then [snd time_wave] else [] in
    if 0 <=? note then
      let row := get_index note in
      let delta := row - position in
      if moved then
        (* [moved or ...]: the row stepper is not asked *)
        AOk (row, waves, true)
      else
        abind (add_move_waveform (row_stepper self) (delta * ROW_STEPS))
              (fun row_wave =>
                 AOk (row,
                      waves ++ (if fst row_wave then [snd row_wave] else []),
                      fst row_wave))
    else AOk (position, waves, moved))).

End Move.

End Adapter.

(** A legacy adapter on the two example steppers. *)
Definition example_adapter : Adapter.PiGPIOPuncherAdapter :=
  {| Adapter.time_stepper := feed_stepper example_puncher;
     Adapter.row_stepper := tone_stepper example_puncher |}.

(** A delay that is no entry of the profile. *)
Definition fresh_delay (profile : list Z) : Z :=
  1 + fold_right Z.max 0 profile.

(** * Properties *)

(** ** Python numbers: the order *)

Lemma SFcompare_antisym (f g : Py.float) :
  SFcompare g f = option_map CompOpp (SFcompare f g).
Proof.
  destruct f as [s| s| |s m e], g as [s'| s'| |s' m' e']; simpl;
    try reflexivity; try (destruct s; reflexivity);
    try (destruct s'; reflexivity);
    try (destruct s, s'; reflexivity).
  assert (Hm : Pos.compare_cont Eq m' m = CompOpp (Pos.compare_cont Eq m m'))
    by (symmetry; apply (Pos.compare_cont_antisym m m' Eq)).
  destruct s, s'; simpl; try reflexivity;
    rewrite (Z.compare_antisym e e'), Hm;
    destruct (e ?= e'); simpl; try reflexivity;
    destruct (Pos.compare_cont Eq m m'); reflexivity.
Qed.

Lemma compare_antisym (x y : Py.number) :
  Py.compare y x = option_map CompOpp (Py.compare x y).
Proof.
  destruct x as [a|f], y as [b|g]; simpl.
  - now rewrite (Z.compare_antisym a b).
  - destruct (Py.compare_float_int g a) as [[]|]; reflexivity.
  - reflexivity.
  - apply SFcompare_antisym.
Qed.

Lemma le_not_lt (x y : Py.number) : Py.le y x = true -> Py.lt x y = false.
Proof.
  unfold Py.le, Py.lt. rewrite (compare_antisym x y).
  destruct (Py.compare x y) as [[]|]; simpl; congruence.
Qed.

Lemma index_of_nat {A} (l : list A) (k : nat) (d : A) :
  (k < length l)%nat -> Py.index l (Z.of_nat k) = Ok (nth k l d).
Proof.
  intros Hk. unfold Py.index.
  destruct (Z.of_nat k <? 0) eqn:E; [apply Z.ltb_lt in E; lia|].
  replace ((Z.of_nat k <? 0) || (Z.of_nat (length l) <=? Z.of_nat k)) with false.
  - rewrite Nat2Z.id. destruct (nth_error l k) eqn:En.
    + now rewrite (nth_error_nth l k d En).
    + apply nth_error_None in En. lia.
  - symmetry. apply orb_false_intro; [exact E | apply Z.leb_gt; lia].
Qed.

Lemma index_nil {A} (i : Z) : Py.index (@nil A) i = Raise IndexError.
Proof.
  unfold Py.index. simpl.
  destruct (i <? 0) eqn:E; rewrite ?Z.add_0_r, ?E; simpl; try reflexivity.
  apply Z.ltb_ge in E. destruct (0 <=? i) eqn:E'; [reflexivity|].
  apply Z.leb_gt in E'. lia.
Qed.

(** ** The acceleration profile *)

Lemma profile_loop_guard_false fuel sps max_sps acceleration profile :
  Py.lt sps max_sps = false ->
  profile_loop fuel sps max_sps acceleration profile = Returns (Ok profile).
Proof.
  intros H. destruct fuel; simpl; now rewrite H.
Qed.

Lemma profile_empty_when_max_le_min fuel min_sps max_sps acceleration :
  Py.le max_sps min_sps = true ->
  calculate_acceleration_profile fuel min_sps max_sps acceleration = Returns (Ok []).
Proof.
  intros H. apply profile_loop_guard_false, le_not_lt, H.
Qed.

Lemma profile_step_zero sps acceleration :
  Py.is_zero sps = true -> profile_step sps acceleration = Raise ZeroDivisionError.
Proof.
  intros H. unfold profile_step, Py.truediv. now rewrite H.
Qed.

(** ** The motion planner *)

Lemma move_loop_out {A} (emit : Z -> list A) profile md n :
  forall i rem s out,
    move_loop emit profile md n i rem s out
    = map_result (app out) (move_loop emit profile md n i rem s []).
Proof.
  induction n as [|n IH]; intros i rem s out; simpl.
  - now rewrite app_nil_r.
  - destruct (rem - 1 <=? s).
    + destruct (Py.index profile (rem - 1)) as [d|e]; simpl; [|reflexivity].
      rewrite IH, (IH _ _ _ (emit d)).
      destruct (move_loop emit profile md n (i + 1) (rem - 1) s []); simpl;
        [now rewrite app_assoc | reflexivity].
    + destruct (i <? Z.of_nat (length profile)).
      * destruct (Py.index profile i) as [d|e]; simpl; [|reflexivity].
        rewrite IH, (IH _ _ _ (emit d)).
        destruct (move_loop emit profile md n (i + 1) (rem - 1) i []); simpl;
          [now rewrite app_assoc | reflexivity].
      * rewrite IH, (IH _ _ _ (emit md)).
        destruct (move_loop emit profile md n (i + 1) (rem - 1) s []); simpl;
          [now rewrite app_assoc | reflexivity].
Qed.

(** Whatever an iteration appends, the loop takes the same branches:
    its output is what is appended for each logical delay in turn. *)
Lemma move_loop_emit {A} (emit : Z -> list A) profile md n :
  forall i rem s,
    move_loop emit profile md n i rem s []
    = map_result (flat_map emit)
        (move_loop (fun d => [d]) profile md n i rem s []).
Proof.
  induction n as [|n IH]; intros i rem s; simpl; [reflexivity|].
  destruct (rem - 1 <=? s).
  - destruct (Py.index profile (rem - 1)) as [d|e]; simpl; [|reflexivity].
    rewrite move_loop_out, (move_loop_out (fun d => [d])), IH.
    destruct (move_loop _ profile md n (i + 1) (rem - 1) s []); reflexivity.
  - destruct (i <? Z.of_nat (length profile)).
    + destruct (Py.index profile i) as [d|e]; simpl; [|reflexivity].
      rewrite move_loop_out, (move_loop_out (fun d => [d])), IH.
      destruct (move_loop _ profile md n (i + 1) (rem - 1) i []); reflexivity.
    + rewrite move_loop_out, (move_loop_out (fun d => [d])), IH.
      destruct (move_loop _ profile md n (i + 1) (rem - 1) s []); reflexivity.
Qed.

Lemma waveform_of_delays (m : PiGPIOStepperMotor) (steps : Z) :
  create_move_waveform m steps
  = map_result (flat_map (step_pulses (step_pin m))) (move_delays m steps).
Proof.
  unfold create_move_waveform, move_delays, move_plan.
  destruct (min_delay_us m) as [md|e]; simpl; [|reflexivity].
  apply move_loop_emit.
Qed.

Lemma move_loop_S {A} (emit : Z -> list A) profile md n i rem s out :
  move_loop emit profile md (S n) i rem s out
  = if rem - 1 <=? s then
      bind (Py.index profile (rem - 1)) (fun delay_us =>
        move_loop emit profile md n (i + 1) (rem - 1) s (out ++ emit delay_us))
    else if i <? Z.of_nat (length profile) then
      bind (Py.index profile i) (fun delay_us =>
        move_loop emit profile md n (i + 1) (rem - 1) i (out ++ emit delay_us))
    else
      move_loop emit profile md n (i + 1) (rem - 1) s (out ++ emit md).
Proof. reflexivity. Qed.

(** With an empty profile the last iteration reads [profile[0]]. *)
Lemma move_loop_empty_profile {A} (emit : Z -> list A) md n :
  forall i rem out, 0 <= i -> rem = Z.of_nat (S n) ->
    move_loop emit [] md (S n) i rem 0 out = Raise IndexError.
Proof.
  induction n as [|n IH]; intros i rem out Hi Hrem; rewrite move_loop_S.
  - destruct (rem - 1 <=? 0) eqn:E; [now rewrite index_nil|].
    apply Z.leb_gt in E. lia.
  - destruct (rem - 1 <=? 0) eqn:E; [apply Z.leb_le in E; lia|].
    destruct (i <? Z.of_nat (length (@nil Z))) eqn:E';
      [apply Z.ltb_lt in E'; simpl in E'; lia|].
    apply IH; lia.
Qed.

Lemma example_stepper_built :
  new_stepper 10 example_config = Returns (Ok example_stepper).
Proof. vm_compute. reflexivity. Qed.

Lemma flat_stepper_built :
  new_stepper 0 flat_config = Returns (Ok flat_stepper).
Proof. vm_compute. reflexivity. Qed.

Lemma firstn_succ_nth {A} (d : A) (l : list A) :
  forall n, (n < length l)%nat -> firstn (S n) l = firstn n l ++ [nth n l d].
Proof.
  induction l as [|x l IH]; intros n Hn; simpl in Hn; [lia|].
  destruct n as [|n]; [reflexivity|].
  change (x :: firstn (S n) l = x :: (firstn n l ++ [nth n l d])).
  f_equal. apply IH. lia.
Qed.

Lemma skipn_cons_nth {A} (d : A) (l : list A) :
  forall n, (n < length l)%nat -> skipn n l = nth n l d :: skipn (S n) l.
Proof.
  induction l as [|x l IH]; intros n Hn; simpl in Hn; [lia|].
  destruct n as [|n]; [reflexivity|].
  change (skipn n l = nth n l d :: skipn (S n) l). apply IH. lia.
Qed.

Section Planner.

Variable profile : list Z.
Variable md : Z.

Let loop := move_loop (fun d : Z => [d]) profile md.
Let L := length profile.

(** Decelerating: once [rem <= steps_to_stop] the rest of the move
    reads the profile backwards. *)
Lemma decel_phase (n : nat) :
  forall i rem s out,
    rem = Z.of_nat n -> rem - 1 <= s -> (n <= L)%nat ->
    loop n i rem s out = Ok (out ++ rev (firstn n profile)).
Proof.
  unfold loop, L.
  induction n as [|n IH]; intros i rem s out Hrem Hs Hn.
  - simpl. now rewrite app_nil_r.
  - rewrite move_loop_S.
    destruct (rem - 1 <=? s) eqn:E; [|apply Z.leb_gt in E; lia].
    replace (rem - 1) with (Z.of_nat n) by lia.
    rewrite (index_of_nat profile n 0) by lia. cbn [bind].
    rewrite IH by lia.
    rewrite (firstn_succ_nth 0) by lia.
    rewrite rev_app_distr. simpl. now rewrite <- app_assoc.
Qed.

(** Cruising: past the profile, at the minimum delay until [len(profile)]
    steps are left. *)
Lemma cruise_phase (n : nat) :
  forall i rem out,
    (1 <= L)%nat -> Z.of_nat L <= i -> rem = Z.of_nat n -> (L <= n)%nat ->
    loop n i rem (Z.of_nat L - 1) out
    = Ok (out ++ repeat md (n - L) ++ rev profile).
Proof.
  induction n as [|n IH]; intros i rem out HL Hi Hrem Hn; [lia|].
  destruct (Nat.eq_dec (S n) L) as [E|E].
  - rewrite decel_phase by lia.
    rewrite E, Nat.sub_diag. unfold L. now rewrite firstn_all.
  - unfold loop. rewrite move_loop_S. fold L.
    destruct (rem - 1 <=? Z.of_nat L - 1) eqn:E1; [apply Z.leb_le in E1; lia|].
    destruct (i <? Z.of_nat L) eqn:E2; [apply Z.ltb_lt in E2; lia|].
    fold loop. rewrite IH by lia.
    replace (S n - L)%nat with (S (n - L)) by lia.
    simpl. now rewrite <- app_assoc.
Qed.

(** Accelerating, long move: [i] steps done, at least [2 * len(profile)]
    in all. *)
Lemma accel_long (n : nat) :
  forall (i : nat) s out,
    (1 <= L)%nat -> (i <= L)%nat -> (2 * L <= i + n)%nat ->
    s = Z.max 0 (Z.of_nat i - 1) ->
    loop n (Z.of_nat i) (Z.of_nat n) s out
    = Ok (out ++ skipn i profile ++ repeat md (i + n - 2 * L) ++ rev profile).
Proof.
  induction n as [|n IH]; intros i s out HL Hi Hc Hs; [lia|].
  destruct (Nat.eq_dec i L) as [E|E].
  - replace s with (Z.of_nat L - 1) by lia.
    rewrite cruise_phase by lia.
    subst i. replace (L + S n - 2 * L)%nat with (S n - L)%nat by lia.
    unfold L. rewrite skipn_all. reflexivity.
  - unfold loop. rewrite move_loop_S. fold L.
    destruct (Z.of_nat (S n) - 1 <=? s) eqn:E1; [apply Z.leb_le in E1; lia|].
    destruct (Z.of_nat i <? Z.of_nat L) eqn:E2; [|apply Z.ltb_ge in E2; lia].
    rewrite (index_of_nat profile i 0) by (fold L; lia). cbn [bind].
    replace (Z.of_nat (S n) - 1) with (Z.of_nat n) by lia.
    replace (Z.of_nat i + 1) with (Z.of_nat (S i)) by lia.
    fold loop. rewrite IH by lia.
    rewrite (skipn_cons_nth 0 profile i) by (fold L; lia).
    replace (S i + n - 2 * L)%nat with (i + S n - 2 * L)%nat by lia.
    rewrite <- app_assoc. reflexivity.
Qed.

(** Accelerating, short move of [h + u] steps, [u] of them up and [h]
    down, [h <= u <= h + 1]. *)
Lemma accel_short (h u n : nat) :
  forall (i : nat) s out,
    (h <= u <= h + 1)%nat -> (u <= L)%nat -> (i <= u)%nat ->
    (h + u = i + n)%nat -> s = Z.max 0 (Z.of_nat i - 1) ->
    loop n (Z.of_nat i) (Z.of_nat n) s out
    = Ok (out ++ skipn i (firstn u profile) ++ rev (firstn h profile)).
Proof.
  induction n as [|n IH]; intros i s out Hhu Hu Hi Hc Hs.
  - assert (h = 0%nat) by lia. assert (i = u) by lia. subst h i.
    rewrite skipn_all2 by (rewrite length_firstn; lia).
    simpl. now rewrite app_nil_r.
  - destruct (Z.of_nat (S n) - 1 <=? s) eqn:E1.
    + apply Z.leb_le in E1.
      rewrite decel_phase by lia.
      destruct (Nat.eq_dec i u) as [E|E].
      * subst i. rewrite skipn_all2 by (rewrite length_firstn; lia).
        replace (S n) with h by lia. reflexivity.
      * assert (i = 0%nat) by lia. assert (h = 0%nat) by lia.
        assert (u = 1%nat) by lia. assert (n = 0%nat) by lia. subst.
        simpl. destruct profile; reflexivity.
    + apply Z.leb_gt in E1.
      unfold loop. rewrite move_loop_S. fold L.
      destruct (Z.of_nat (S n) - 1 <=? s) eqn:E1'; [apply Z.leb_le in E1'; lia|].
      destruct (Z.of_nat i <? Z.of_nat L) eqn:E2; [|apply Z.ltb_ge in E2; lia].
      rewrite (index_of_nat profile i 0) by (fold L; lia). cbn [bind].
      replace (Z.of_nat (S n) - 1) with (Z.of_nat n) by lia.
      replace (Z.of_nat i + 1) with (Z.of_nat (S i)) by lia.
      fold loop. rewrite IH by lia.
      rewrite (skipn_cons_nth 0 (firstn u profile) i)
        by (rewrite length_firstn; fold L; lia).
      rewrite nth_firstn.
      destruct (i <? u)%nat eqn:E3; [|apply Nat.ltb_ge in E3; lia].
      rewrite <- app_assoc. reflexivity.
Qed.

Lemma plan_short (count : nat) :
  (count <= 2 * L)%nat ->
  loop count 0 (Z.of_nat count) 0 []
  = Ok (firstn (count - count / 2) profile ++ rev (firstn (count / 2) profile)).
Proof.
  intros Hc.
  pose proof (Nat.div_mod_eq count 2) as Hd.
  pose proof (Nat.mod_upper_bound count 2 ltac:(lia)) as Hm.
  apply (accel_short (count / 2) (count - count / 2) count 0%nat 0 []);
    [lia | lia | lia | lia | reflexivity].
Qed.

Lemma plan_long (count : nat) :
  (1 <= L)%nat -> (2 * L <= count)%nat ->
  loop count 0 (Z.of_nat count) 0 []
  = Ok (profile ++ repeat md (count - 2 * L) ++ rev profile).
Proof.
  intros HL Hc.
  apply (accel_long count 0%nat 0 []); [lia | lia | lia | reflexivity].
Qed.

End Planner.

Lemma In_firstn {A} (x : A) (n : nat) (l : list A) :
  In x (firstn n l) -> In x l.
Proof.
  intros H. rewrite <- (firstn_skipn n l). apply in_or_app. now left.
Qed.

Lemma move_delays_loop (m : PiGPIOStepperMotor) (steps md : Z) :
  min_delay_us m = Ok md ->
  move_delays m steps
  = move_loop (fun d => [d]) (acceleration_profile m) md
      (Z.to_nat (Z.abs steps)) 0 (Z.of_nat (Z.to_nat (Z.abs steps))) 0 [].
Proof.
  intros Hmd. unfold move_delays, move_plan. rewrite Hmd. cbn [bind].
  now rewrite Z2Nat.id by apply Z.abs_nonneg.
Qed.

(** C2 (as stated) fails: with [max_sps = 500 < min_sps = 1000] the call
    raises nothing and returns the empty profile. *)
Lemma profile_500_below_1000_is_returned :
  Py.lt 500 1000 = true /\
  calculate_acceleration_profile 100 1000 500 1000 = Returns (Ok []).
Proof. split; reflexivity. Qed.

(** C2 (amended): [calculate_acceleration_profile] validates nothing.
    Whenever [max_sps <= min_sps] it returns the empty profile; the
    only failure at the bounds is the division by a zero [min_sps]
    when the loop is entered. *)
Theorem profile_without_validation (fuel : nat) (min_sps max_sps acceleration : Py.number) :
  (Py.le max_sps min_sps = true ->
   calculate_acceleration_profile fuel min_sps max_sps acceleration
   = Returns (Ok [])) /\
  (Py.is_zero min_sps = true -> Py.lt min_sps max_sps = true ->
   calculate_acceleration_profile (S fuel) min_sps max_sps acceleration
   = Returns (Raise ZeroDivisionError)).
Proof.
  split.
  - apply profile_empty_when_max_le_min.
  - intros Hz Hlt. unfold calculate_acceleration_profile. simpl.
    now rewrite Hlt, (profile_step_zero _ _ Hz).
Qed.

Lemma profile_without_validation_witness :
  (Py.le 500 1000 = true /\
   calculate_acceleration_profile 7 1000 500 1000 = Returns (Ok [])) /\
  (Py.is_zero 0 = true /\ Py.lt 0 3000 = true /\
   calculate_acceleration_profile 8 0 3000 1000
   = Returns (Raise ZeroDivisionError)).
Proof.
  split.
  - split; [reflexivity|].
    apply (proj1 (profile_without_validation 7 1000 500 1000)). reflexivity.
  - split; [reflexivity|]. split; [reflexivity|].
    apply (proj2 (profile_without_validation 7 0 3000 1000)); reflexivity.
Defined.

(** C9: with [max_sps <= min_sps] the profile is empty and no error is
    raised; a stepper holding that profile raises [IndexError] on every
    move of a non-zero number of steps. *)
Theorem empty_profile_raises_index_error (fuel : nat)
    (min_sps max_sps acceleration : Py.number) :
  Py.le max_sps min_sps = true ->
  calculate_acceleration_profile fuel min_sps max_sps acceleration
  = Returns (Ok []) /\
  forall (m : PiGPIOStepperMotor) (md steps : Z),
    calculate_acceleration_profile fuel min_sps max_sps acceleration
    = Returns (Ok (acceleration_profile m)) ->
    min_delay_us m = Ok md ->
    steps <> 0 ->
    create_move_waveform m steps = Raise IndexError.
Proof.
  intros Hle.
  pose proof (profile_empty_when_max_le_min fuel _ _ acceleration Hle) as Hp.
  split; [exact Hp|].
  intros m md steps Hm Hmd Hsteps.
  rewrite Hp in Hm. injection Hm as Hm.
  unfold create_move_waveform, move_plan. rewrite Hmd, <- Hm. cbn [bind].
  destruct (Z.to_nat (Z.abs steps)) as [|n] eqn:En; [lia|].
  apply move_loop_empty_profile; lia.
Qed.

Lemma empty_profile_raises_index_error_witness :
  Py.le 1000 1000 = true /\
  calculate_acceleration_profile 0 1000 1000 1000 = Returns (Ok []) /\
  create_move_waveform flat_stepper 1 = Raise IndexError.
Proof.
  split; [reflexivity|].
  destruct (empty_profile_raises_index_error 0 1000 1000 1000 eq_refl) as [H1 H2].
  split; [exact H1|].
  apply (H2 flat_stepper 1000 1); [reflexivity | reflexivity | discriminate].
Defined.

(** C3 (as stated) fails for the empty profile: a move of one step
    produces no delay at all. *)
Lemma plan_fails_on_empty_profile :
  new_stepper 0 flat_config = Returns (Ok flat_stepper) /\
  move_delays flat_stepper 1 = Raise IndexError /\
  ~ (exists delays, move_delays flat_stepper 1 = Ok delays /\ length delays = 1%nat).
Proof.
  split; [apply flat_stepper_built|]. split; [reflexivity|].
  intros [delays [H _]]. discriminate H.
Qed.

(** C3 (amended): for a non-empty profile, a move of [count = abs(steps)]
    steps has exactly [count] logical delays; up to [2 * len(profile)]
    steps it ramps up and down through profile entries only; from
    [2 * len(profile)] steps on it is the profile, a block at the
    minimum delay, and the profile reversed. *)
Theorem move_plan_shape (m : PiGPIOStepperMotor) (steps md : Z) :
  acceleration_profile m <> [] ->
  min_delay_us m = Ok md ->
  let profile := acceleration_profile m in
  let count := Z.to_nat (Z.abs steps) in
  exists delays,
    move_delays m steps = Ok delays /\
    create_move_waveform m steps
    = Ok (flat_map (step_pulses (step_pin m)) delays) /\
    length delays = count /\
    ((count <= 2 * length profile)%nat ->
     delays = firstn (count - count / 2) profile ++ rev (firstn (count / 2) profile) /\
     Forall (fun d => In d profile) delays) /\
    ((2 * length profile <= count)%nat ->
     delays = profile ++ repeat md (count - 2 * length profile) ++ rev profile).
Proof.
  intros Hne Hmd profile count.
  assert (HL : (1 <= length profile)%nat).
  { subst profile. destruct (acceleration_profile m); [congruence | simpl; lia]. }
  pose proof (Nat.div_mod_eq count 2) as Hd.
  pose proof (Nat.mod_upper_bound count 2 ltac:(lia)) as Hmod.
  assert (Hshort : (count <= 2 * length profile)%nat ->
            move_delays m steps
            = Ok (firstn (count - count / 2) profile ++ rev (firstn (count / 2) profile))).
  { intros Hc. rewrite (move_delays_loop _ _ _ Hmd). now apply plan_short. }
  assert (Hlong : (2 * length profile <= count)%nat ->
            move_delays m steps
            = Ok (profile ++ repeat md (count - 2 * length profile) ++ rev profile)).
  { intros Hc. rewrite (move_delays_loop _ _ _ Hmd). now apply plan_long. }
  destruct (le_lt_dec count (2 * length profile)) as [Hc|Hc].
  - exists (firstn (count - count / 2) profile ++ rev (firstn (count / 2) profile)).
    split; [now apply Hshort|].
    split; [rewrite waveform_of_delays, (Hshort Hc); reflexivity|].
    split; [rewrite length_app, length_rev, !length_firstn; lia|].
    split.
    + intros _. split; [reflexivity|].
      apply Forall_forall. intros d Hin.
      apply in_app_or in Hin. destruct Hin as [Hin|Hin].
      * now apply In_firstn in Hin.
      * apply in_rev in Hin. now apply In_firstn in Hin.
    + intros Hc'. specialize (Hlong Hc'). rewrite (Hshort Hc) in Hlong.
      now injection Hlong.
  - assert (Hc' : (2 * length profile <= count)%nat) by lia.
    exists (profile ++ repeat md (count - 2 * length profile) ++ rev profile).
    split; [now apply Hlong|].
    split; [rewrite waveform_of_delays, (Hlong Hc'); reflexivity|].
    split; [rewrite !length_app, length_rev, repeat_length; lia|].
    split; [intros Hc''; lia | reflexivity].
Qed.

Lemma move_plan_shape_witness :
  acceleration_profile example_stepper <> [] /\
  min_delay_us example_stepper = Ok 997 /\
  exists delays,
    move_delays example_stepper (-11) = Ok delays /\
    create_move_waveform example_stepper (-11)
    = Ok (flat_map (step_pulses 18) delays) /\
    length delays = 11%nat /\
    ((11 <= 8)%nat ->
     delays = firstn 6 [1000; 999; 998; 997] ++ rev (firstn 5 [1000; 999; 998; 997]) /\
     Forall (fun d => In d [1000; 999; 998; 997]) delays) /\
    ((8 <= 11)%nat ->
     delays = [1000; 999; 998; 997] ++ repeat 997 3 ++ rev [1000; 999; 998; 997]).
Proof.
  split; [discriminate|]. split; [reflexivity|].
  apply (move_plan_shape example_stepper (-11) 997); [discriminate | reflexivity].
Defined.

Lemma shiftr_1_twice (d : Z) : Z.shiftr d 1 + Z.shiftr d 1 = d - d mod 2.
Proof.
  rewrite Z.shiftr_div_pow2 by lia. change (2 ^ 1) with 2.
  pose proof (Z.div_mod d 2 ltac:(lia)). lia.
Qed.

(** C5 (as stated) fails: the logical delay 999 is realised as two
    half-pulses of 499 microseconds, which sum to 998. *)
Lemma odd_delay_loses_a_microsecond :
  exists delays pulses hi lo,
    move_delays example_stepper 3 = Ok delays /\
    create_move_waveform example_stepper 3 = Ok pulses /\
    nth_error delays 1 = Some 999 /\
    nth_error pulses 2 = Some hi /\ nth_error pulses 3 = Some lo /\
    delay hi + delay lo = 998 /\ delay hi + delay lo <> 999.
Proof.
  exists [1000; 999; 1000].
  exists (flat_map (step_pulses 18) [1000; 999; 1000]).
  exists (mk_pulse 262144 0 499), (mk_pulse 0 262144 499).
  repeat split; try reflexivity. discriminate.
Qed.

(** C5 (amended): each logical delay [d] is realised as two half-pulses
    of [d >> 1] microseconds each, the same truncation on both halves;
    they sum to [d - d mod 2], that is to [d] exactly when [d] is even. *)
Theorem half_pulses_truncate (m : PiGPIOStepperMotor) (steps : Z) (delays : list Z) :
  move_delays m steps = Ok delays ->
  create_move_waveform m steps = Ok (flat_map (step_pulses (step_pin m)) delays) /\
  forall d, In d delays ->
    exists hi lo,
      step_pulses (step_pin m) d = [hi; lo] /\
      delay hi = Z.shiftr d 1 /\ delay lo = Z.shiftr d 1 /\
      delay hi + delay lo = d - d mod 2 /\
      (delay hi + delay lo = d <-> Z.even d = true).
Proof.
  intros H. split; [rewrite waveform_of_delays, H; reflexivity|].
  intros d _. eexists. eexists. split; [reflexivity|]. cbn [delay].
  split; [reflexivity|]. split; [reflexivity|].
  split; [apply shiftr_1_twice|].
  rewrite shiftr_1_twice, Zeven_mod.
  pose proof (Z.mod_pos_bound d 2 ltac:(lia)).
  split; intros H'.
  - apply Z.eqb_eq. lia.
  - apply Z.eqb_eq in H'. lia.
Qed.

Lemma half_pulses_truncate_witness :
  move_delays example_stepper 3 = Ok [1000; 999; 1000] /\
  create_move_waveform example_stepper 3
  = Ok (flat_map (step_pulses 18) [1000; 999; 1000]) /\
  forall d, In d [1000; 999; 1000] ->
    exists hi lo,
      step_pulses 18 d = [hi; lo] /\
      delay hi = Z.shiftr d 1 /\ delay lo = Z.shiftr d 1 /\
      delay hi + delay lo = d - d mod 2 /\
      (delay hi + delay lo = d <-> Z.even d = true).
Proof.
  split; [reflexivity|].
  apply (half_pulses_truncate example_stepper 3 [1000; 999; 1000]). reflexivity.
Defined.

Lemma plan_delays (m : PiGPIOStepperMotor) (steps md : Z) :
  acceleration_profile m <> [] ->
  min_delay_us m = Ok md ->
  let profile := acceleration_profile m in
  let count := Z.to_nat (Z.abs steps) in
  ((count <= 2 * length profile)%nat ->
   move_delays m steps
   = Ok (firstn (count - count / 2) profile ++ rev (firstn (count / 2) profile))) /\
  ((2 * length profile <= count)%nat ->
   move_delays m steps
   = Ok (profile ++ repeat md (count - 2 * length profile) ++ rev profile)).
Proof.
  intros Hne Hmd profile count.
  assert (HL : (1 <= length profile)%nat).
  { subst profile. destruct (acceleration_profile m); [congruence | simpl; lia]. }
  split; intros Hc; rewrite (move_delays_loop _ _ _ Hmd);
    [now apply plan_short | now apply plan_long].
Qed.

(** C10: for a non-empty profile and a move of at least one step, the
    logical delays begin and end with [profile[0]], and the pulse train
    that [create_move_waveform] returns begins and ends with the two
    half-pulses of [profile[0]]: the step pin raised and then lowered,
    each for [profile[0] >> 1] microseconds. *)
Theorem move_starts_and_ends_slowest (m : PiGPIOStepperMotor)
    (steps md p0 : Z) (rest : list Z) :
  acceleration_profile m = p0 :: rest ->
  min_delay_us m = Ok md ->
  1 <= Z.abs steps ->
  let high := mk_pulse (Z.shiftl 1 (Z.of_N (step_pin m))) 0 (Z.shiftr p0 1) in
  let low := mk_pulse 0 (Z.shiftl 1 (Z.of_N (step_pin m))) (Z.shiftr p0 1) in
  exists delays pulses,
    move_delays m steps = Ok delays /\
    create_move_waveform m steps = Ok pulses /\
    (exists tl, delays = p0 :: tl) /\
    (exists front, delays = front ++ [p0]) /\
    (exists tl, pulses = high :: low :: tl) /\
    (exists front, pulses = front ++ [high; low]).
Proof.
  intros Hp Hmd Hsteps high low.
  assert (Hne : acceleration_profile m <> []) by (rewrite Hp; discriminate).
  destruct (plan_delays m steps md Hne Hmd) as [Hshort Hlong].
  set (count := Z.to_nat (Z.abs steps)) in *.
  assert (Hc : (1 <= count)%nat) by (subst count; lia).
  pose proof (Nat.div_mod_eq count 2) as Hdm.
  pose proof (Nat.mod_upper_bound count 2 ltac:(lia)) as Hmod.
  assert (Hd : exists delays,
            move_delays m steps = Ok delays /\
            (exists tl, delays = p0 :: tl) /\
            (exists front, delays = front ++ [p0])).
  { destruct (le_lt_dec count (2 * length (acceleration_profile m))) as [Hle|Hlt].
    - eexists. split; [exact (Hshort Hle)|]. rewrite Hp. split.
      + destruct (count - count / 2)%nat as [|u] eqn:Eu; [lia|].
        simpl. eexists. reflexivity.
      + destruct (count / 2)%nat as [|h] eqn:Eh.
        * assert (Ec : (count - 0 = 1)%nat) by lia. rewrite Ec.
          exists []. reflexivity.
        * simpl. rewrite app_assoc. eexists. reflexivity.
    - eexists. split; [exact (Hlong ltac:(lia))|]. rewrite Hp. split.
      + simpl. eexists. reflexivity.
      + simpl rev. rewrite !app_assoc. eexists. reflexivity. }
  destruct Hd as (delays & Hd & Hhd & Hlast).
  exists delays, (flat_map (step_pulses (step_pin m)) delays).
  split; [exact Hd|].
  split; [rewrite waveform_of_delays, Hd; reflexivity|].
  split; [exact Hhd|]. split; [exact Hlast|]. split.
  - destruct Hhd as [tl E]. rewrite E.
    exists (flat_map (step_pulses (step_pin m)) tl). reflexivity.
  - destruct Hlast as [front E]. rewrite E, flat_map_app.
    exists (flat_map (step_pulses (step_pin m)) front). reflexivity.
Qed.

Lemma move_starts_and_ends_slowest_witness :
  acceleration_profile example_stepper = 1000 :: [999; 998; 997] /\
  min_delay_us example_stepper = Ok 997 /\
  1 <= Z.abs (-5) /\
  move_delays example_stepper (-5) = Ok [1000; 999; 998; 999; 1000] /\
  create_move_waveform example_stepper (-5)
  = Ok [ mk_pulse 262144 0 500; mk_pulse 0 262144 500;
         mk_pulse 262144 0 499; mk_pulse 0 262144 499;
         mk_pulse 262144 0 499; mk_pulse 0 262144 499;
         mk_pulse 262144 0 499; mk_pulse 0 262144 499;
         mk_pulse 262144 0 500; mk_pulse 0 262144 500 ] /\
  exists delays pulses,
    move_delays example_stepper (-5) = Ok delays /\
    create_move_waveform example_stepper (-5) = Ok pulses /\
    (exists tl, delays = 1000 :: tl) /\
    (exists front, delays = front ++ [1000]) /\
    (exists tl, pulses = mk_pulse 262144 0 500 :: mk_pulse 0 262144 500 :: tl) /\
    (exists front, pulses = front ++ [mk_pulse 262144 0 500; mk_pulse 0 262144 500]).
Proof.
  split; [reflexivity|]. split; [reflexivity|]. split; [simpl; lia|].
  split; [reflexivity|]. split; [reflexivity|].
  apply (move_starts_and_ends_slowest example_stepper (-5) 997 1000 [999; 998; 997]);
    [reflexivity | reflexivity | simpl; lia].
Defined.

(** ** The synchronizer *)

Lemma fold_delay_acc (pulses : list pulse) (acc : Z) :
  fold_left (fun l p => l + delay p) pulses acc
  = acc + fold_left (fun l p => l + delay p) pulses 0.
Proof.
  revert acc. induction pulses as [|p pulses IH]; intros acc; simpl; [lia|].
  rewrite IH, (IH (delay p)). lia.
Qed.

Lemma wavelength_cons (p : pulse) (pulses : list pulse) :
  wavelength (p :: pulses) = delay p + wavelength pulses.
Proof. unfold wavelength. simpl. now rewrite fold_delay_acc. Qed.

Lemma scale_scaled_by (factor : Py.number) (pulses : list pulse) :
  forall pulses', scale pulses factor = Ok pulses' -> scaled_by factor pulses pulses'.
Proof.
  induction pulses as [|p pulses IH]; intros pulses' H; simpl in H.
  - injection H as <-. constructor.
  - destruct (scale_delay (delay p) factor) as [d|e] eqn:Ed; [|discriminate].
    cbn [bind] in H.
    destruct (scale pulses factor) as [rest|e] eqn:Er; [|discriminate].
    cbn [bind] in H. injection H as <-.
    constructor; [|now apply IH].
    cbn [set_delay gpio_on gpio_off delay]. auto.
Qed.

Lemma within_a_microsecond_sum (a b : Z) (pulses pulses' : list pulse) :
  within_a_microsecond a b pulses pulses' ->
  Z.abs (wavelength pulses' * b - wavelength pulses * a)
  <= Z.of_nat (length pulses') * b.
Proof.
  induction 1 as [|p p' pulses pulses' Hp _ IH].
  - simpl. lia.
  - rewrite !wavelength_cons. cbn [length]. lia.
Qed.

Lemma stretched_sum_bound (a b : Z) (pulses pulses' : list pulse) :
  0 < b -> wavelength pulses = b ->
  within_a_microsecond a b pulses pulses' ->
  Z.abs (wavelength pulses' - a) <= Z.of_nat (length pulses').
Proof.
  intros Hb Hw Hacc. apply within_a_microsecond_sum in Hacc.
  rewrite Hw in Hacc. nia.
Qed.


(** ** The sequencer: traces *)

Lemma mbind_done {A B} (c : M A) (k : A -> M B) (s s' : state) (b : B) :
  mbind c k s = Done b s' ->
  exists a s1, c s = Done a s1 /\ k a s1 = Done b s'.
Proof.
  unfold mbind. destruct (c s) as [a s1| |]; try discriminate.
  intros H. now exists a, s1.
Qed.

Lemma cuts_app (t1 t2 : list event) : cuts (t1 ++ t2) = (cuts t1 + cuts t2)%nat.
Proof. unfold cuts. now rewrite filter_app, length_app. Qed.

Lemma punches_app (t1 t2 : list event) :
  punches (t1 ++ t2) = (punches t1 + punches t2)%nat.
Proof. unfold punches. now rewrite filter_app, length_app. Qed.

Lemma quiet_nil : quiet [].
Proof. split; reflexivity. Qed.

Lemma quiet_app (t1 t2 : list event) : quiet t1 -> quiet t2 -> quiet (t1 ++ t2).
Proof.
  intros [H1 H2] [H3 H4]. split; [rewrite cuts_app | rewrite punches_app]; lia.
Qed.

(** A computation that moves nothing and fires nothing: whenever it
    completes, the position is the same and the log has grown by a
    quiet trace. *)
Definition quiet_step {A} (c : M A) : Prop :=
  forall s a s', c s = Done a s' ->
    position s' = position s /\ exists tr, log s' = log s ++ tr /\ quiet tr.

Lemma quiet_step_ret {A} (a : A) : quiet_step (mret a).
Proof.
  intros s a' s' H. inversion H; subst; clear H.
  split; [reflexivity|]. exists []. now rewrite app_nil_r; split; [|apply quiet_nil].
Qed.

Lemma quiet_step_lift {A} (r : result A) : quiet_step (lift r).
Proof.
  intros s a s' H. unfold lift in H. destruct r; [|discriminate].
  inversion H; subst; clear H.
  split; [reflexivity|]. exists []. now rewrite app_nil_r; split; [|apply quiet_nil].
Qed.

Lemma quiet_step_emit (ev : event) :
  is_cut ev = false -> is_punch ev = false -> quiet_step (emit ev).
Proof.
  intros Hc Hp s a s' H. inversion H; subst; clear H. simpl.
  split; [reflexivity|]. exists [ev]. split; [reflexivity|].
  unfold quiet, cuts, punches. simpl. now rewrite Hc, Hp.
Qed.

Lemma quiet_step_bind {A B} (c : M A) (k : A -> M B) :
  quiet_step c -> (forall a, quiet_step (k a)) -> quiet_step (mbind c k).
Proof.
  intros Hc Hk s b s' H.
  apply mbind_done in H. destruct H as (a & s1 & H1 & H2).
  destruct (Hc _ _ _ H1) as (Hp1 & t1 & Hl1 & Hq1).
  destruct (Hk a _ _ _ H2) as (Hp2 & t2 & Hl2 & Hq2).
  split; [congruence|]. exists (t1 ++ t2).
  split; [rewrite Hl2, Hl1; now rewrite app_assoc | now apply quiet_app].
Qed.

Lemma quiet_step_get_log : quiet_step get_log.
Proof.
  intros s a s' H. inversion H; subst; clear H.
  split; [reflexivity|]. exists []. now rewrite app_nil_r; split; [|apply quiet_nil].
Qed.

Lemma quiet_step_set_length (l : Py.number) : quiet_step (set_prepared_wave_length l).
Proof.
  intros s a s' H. inversion H; subst; clear H. simpl.
  split; [reflexivity|]. exists []. now rewrite app_nil_r; split; [|apply quiet_nil].
Qed.

Lemma total_feed_acc (steps : list MoveStep) (acc : Z) :
  fold_left (fun total step => total + fst step) steps acc
  = acc + total_feed steps.
Proof.
  unfold total_feed. revert acc.
  induction steps as [|x steps IH]; intros acc; simpl; [lia|].
  rewrite IH, (IH (fst x)). lia.
Qed.

Lemma total_feed_cons (step : MoveStep) (steps : list MoveStep) :
  total_feed (step :: steps) = fst step + total_feed steps.
Proof. unfold total_feed at 1. simpl. now rewrite total_feed_acc. Qed.

Lemma cumulative_feed_S (step : MoveStep) (steps : list MoveStep) (k : nat) :
  cumulative_feed (step :: steps) (S k) = fst step + cumulative_feed steps k.
Proof. unfold cumulative_feed. simpl. apply total_feed_cons. Qed.

Section SequencerProofs.

Variable hw : hardware.
Variable self : MusicPuncher.

Lemma quiet_add_wave (pulses : list pulse) : quiet_step (add_wave pulses).
Proof.
  destruct pulses; [apply quiet_step_ret | now apply quiet_step_emit].
Qed.

Lemma quiet_stepper_waveform (m : PiGPIOStepperMotor) (steps : Z) :
  quiet_step (stepper_waveform m steps).
Proof.
  apply quiet_step_bind; [now apply quiet_step_emit|].
  intros _. apply quiet_step_lift.
Qed.

Lemma quiet_prepare_waveform (timesteps notesteps : Z) :
  quiet_step (prepare_waveform self timesteps notesteps).
Proof.
  unfold prepare_waveform.
  apply quiet_step_bind; [now apply quiet_step_emit | intros _].
  apply quiet_step_bind; [apply quiet_stepper_waveform | intros wave1].
  apply quiet_step_bind; [apply quiet_stepper_waveform | intros wave2].
  apply quiet_step_bind; [apply quiet_step_lift | intros synced].
  apply quiet_step_bind; [apply quiet_step_lift | intros seconds].
  apply quiet_step_bind; [apply quiet_step_set_length | intros _].
  apply quiet_step_bind; [apply quiet_add_wave | intros _].
  apply quiet_add_wave.
Qed.

Lemma quiet_create_and_send_wave : quiet_step (create_and_send_wave hw).
Proof.
  unfold create_and_send_wave.
  apply quiet_step_bind; [apply quiet_step_get_log | intros history].
  apply quiet_step_bind; [now apply quiet_step_emit | intros _].
  destruct (wave_create hw history <? 0);
    [apply quiet_step_lift | now apply quiet_step_emit].
Qed.

Lemma quiet_wait_for_wave : quiet_step wait_for_wave.
Proof. now apply quiet_step_emit. Qed.

(** [__move]: the log grows by a quiet trace and the position by
    [tonesteps]. *)
Lemma move_done (feedsteps tonesteps : Z) (s s' : state) :
  move hw self feedsteps tonesteps s = Done tt s' ->
  position s' = position s + tonesteps /\
  exists tr, log s' = log s ++ tr /\ quiet tr.
Proof.
  unfold move. intros H.
  destruct ((feedsteps =? 0) && (tonesteps =? 0)) eqn:E.
  - injection H as <-. apply andb_prop in E. destruct E as [_ E].
    apply Z.eqb_eq in E. split; [lia|].
    exists []. now rewrite app_nil_r; split; [|apply quiet_nil].
  - apply mbind_done in H. destruct H as (? & s1 & H1 & H).
    apply mbind_done in H. destruct H as (? & s2 & H2 & H).
    apply mbind_done in H. destruct H as (? & s3 & H3 & H).
    apply mbind_done in H. destruct H as (p & s4 & H4 & H).
    injection H4 as <- <-. injection H as <-. simpl.
    destruct (quiet_prepare_waveform _ _ _ _ _ H1) as (P1 & t1 & L1 & Q1).
    destruct (quiet_create_and_send_wave _ _ _ H2) as (P2 & t2 & L2 & Q2).
    destruct (quiet_wait_for_wave _ _ _ H3) as (P3 & t3 & L3 & Q3).
    split; [lia|]. exists (t1 ++ t2 ++ t3).
    split; [rewrite L3, L2, L1; now rewrite <- !app_assoc|].
    now repeat apply quiet_app.
Qed.

(** Whatever the feed, [to_idle] leaves the head at the idle position. *)
Lemma to_idle_done (feedsteps : Z) (s s' : state) :
  to_idle hw self feedsteps s = Done tt s' ->
  position s' = idle_position self /\
  exists tr, log s' = log s ++ tr /\ quiet tr.
Proof.
  unfold to_idle. intros H.
  apply mbind_done in H. destruct H as (p & s1 & H1 & H).
  injection H1 as <- <-.
  apply move_done in H. destruct H as (Hp & Htr). split; [lia | exact Htr].
Qed.

(** One pass through the loop of [do_run]: a quiet trace, the punch,
    then the cutter if the threshold is reached for the first time. *)
Lemma run_loop_cons (idx : nat) (step : MoveStep) (rest : list MoveStep)
    (cutter_step total : Z) (did_cut did_cut' : bool) (s s' : state) :
  run_loop hw self idx (step :: rest) cutter_step total did_cut s = Done did_cut' s' ->
  exists s1 tr,
    position s1 = position s + snd step /\
    log s1 = log s ++ tr ++ [Punch] /\ quiet tr /\
    if negb did_cut && (cutter_step <=? total + fst step) then
      exists s2, position s2 = position s1 /\ log s2 = log s1 ++ [Cut] /\
        run_loop hw self (S idx) rest cutter_step (total + fst step) true s2
        = Done did_cut' s'
    else
      run_loop hw self (S idx) rest cutter_step (total + fst step) did_cut s1
      = Done did_cut' s'.
Proof.
  intros H. cbn [run_loop] in H.
  apply mbind_done in H. destruct H as (? & s1 & H1 & H).
  apply mbind_done in H. destruct H as (? & s2 & H2 & H).
  apply mbind_done in H. destruct H as (? & s3 & H3 & H).
  apply mbind_done in H. destruct H as (? & s4 & H4 & H).
  apply mbind_done in H. destruct H as (p & s5 & H5 & H).
  apply mbind_done in H. destruct H as (? & s6 & H6 & H).
  apply mbind_done in H. destruct H as (? & s7 & H7 & H).
  assert (Q1 : position s1 = position s /\ exists tr, log s1 = log s ++ tr /\ quiet tr).
  { destruct (Nat.eqb idx 0);
      [now apply (quiet_prepare_waveform _ _ _ _ _ H1)
      | now apply (quiet_step_ret _ _ _ _ H1)]. }
  destruct Q1 as (P1 & t1 & L1 & Q1).
  destruct (quiet_create_and_send_wave _ _ _ H2) as (P2 & t2 & L2 & Q2).
  assert (Q3 : position s3 = position s2 /\ exists tr, log s3 = log s2 ++ tr /\ quiet tr).
  { destruct rest;
      [now apply (quiet_step_ret _ _ _ _ H3)
      | now apply (quiet_prepare_waveform _ _ _ _ _ H3)]. }
  destruct Q3 as (P3 & t3 & L3 & Q3).
  destruct (quiet_wait_for_wave _ _ _ H4) as (P4 & t4 & L4 & Q4).
  inversion H5; subst; clear H5. inversion H6; subst; clear H6.
  inversion H7; subst; clear H7.
  exists (mk_state (position s5 + snd step) (prepared_wave_length s5)
            (log s5 ++ [Punch])), (t1 ++ t2 ++ t3 ++ t4).
  split; [simpl; lia|].
  split; [simpl; rewrite L4, L3, L2, L1; now rewrite <- !app_assoc|].
  split; [now repeat apply quiet_app|].
  destruct (negb did_cut && (cutter_step <=? total + fst step)).
  - apply mbind_done in H. destruct H as (? & s8 & H8 & H).
    inversion H8; subst; clear H8.
    eexists. split; [|split; [|exact H]]; reflexivity.
  - exact H.
Qed.

(** The whole loop of [do_run]: every step is punched, and the cutter
    fires at most once, right after the punch of the first step whose
    cumulative feed reaches [cutter_step]. *)
Lemma run_loop_trace (steps : list MoveStep) :
  forall idx cutter_step total did_cut did_cut' s s',
    run_loop hw self idx steps cutter_step total did_cut s = Done did_cut' s' ->
    position s' = position s + total_tone steps /\
    exists tr,
      log s' = log s ++ tr /\
      punches tr = length steps /\
      (did_cut = true -> did_cut' = true /\ cuts tr = 0%nat) /\
      (did_cut = false ->
       (did_cut' = false /\ cuts tr = 0%nat /\
        forall j, (j < length steps)%nat ->
                  total + cumulative_feed steps (S j) < cutter_step) \/
       (did_cut' = true /\
        exists k b a,
          tr = b ++ Punch :: Cut :: a /\
          cuts b = 0%nat /\ cuts a = 0%nat /\ punches b = k /\
          (k < length steps)%nat /\
          cutter_step <= total + cumulative_feed steps (S k) /\
          forall j, (j < k)%nat ->
                    total + cumulative_feed steps (S j) < cutter_step)).
Proof.
  induction steps as [|step rest IH];
    intros idx cutter_step total did_cut did_cut' s s' H.
  - inversion H; subst; clear H. split; [simpl; lia|].
    exists []. rewrite app_nil_r. split; [reflexivity|]. split; [reflexivity|].
    split; [intros ->; split; reflexivity|].
    intros ->. left. split; [reflexivity|]. split; [reflexivity|].
    intros j Hj. simpl in Hj. lia.
  - apply run_loop_cons in H.
    destruct H as (s1 & tr0 & P1 & L1 & [Qc Qp] & H).
    destruct (negb did_cut && (cutter_step <=? total + fst step)) eqn:E.
    + apply andb_prop in E. destruct E as [Ed Et].
      apply negb_true_iff in Ed. apply Z.leb_le in Et. subst did_cut.
      destruct H as (s2 & P2 & L2 & H).
      apply IH in H. destruct H as (P' & tr2 & L' & Np & Hd & _).
      destruct (Hd eq_refl) as [-> C2].
      split; [simpl; lia|].
      exists (tr0 ++ Punch :: Cut :: tr2).
      split; [rewrite L', L2, L1; rewrite <- !app_assoc; reflexivity|].
      split; [rewrite punches_app; unfold punches in *; simpl; lia|].
      split; [discriminate|]. intros _. right. split; [reflexivity|].
      exists 0%nat, tr0, tr2.
      split; [reflexivity|]. split; [exact Qc|]. split; [exact C2|].
      split; [exact Qp|]. split; [simpl; lia|].
      split; [|intros j Hj; lia].
      rewrite cumulative_feed_S. unfold cumulative_feed, total_feed. simpl. lia.
    + apply IH in H. destruct H as (P' & tr2 & L' & Np & Hd & Hn).
      split; [simpl; lia|].
      exists (tr0 ++ Punch :: tr2).
      split; [rewrite L', L1; rewrite <- !app_assoc; reflexivity|].
      split; [rewrite punches_app; unfold punches in *; simpl; lia|].
      split.
      * intros ->. destruct (Hd eq_refl) as [-> C2]. split; [reflexivity|].
        rewrite cuts_app. unfold cuts in *. simpl. lia.
      * intros ->. simpl in E. apply Z.leb_gt in E.
        destruct (Hn eq_refl) as [(-> & C2 & Hlt) | (-> & k & b & a & Et & Cb & Ca & Pb & Hk & Hge & Hlt)].
        -- left. split; [reflexivity|].
           split; [rewrite cuts_app; unfold cuts in *; simpl; lia|].
           intros [|j] Hj; rewrite cumulative_feed_S.
           ++ unfold cumulative_feed, total_feed. simpl. lia.
           ++ specialize (Hlt j ltac:(simpl in Hj; lia)). lia.
        -- right. split; [reflexivity|].
           exists (S k), (tr0 ++ Punch :: b), a.
           split; [rewrite Et, <- app_assoc; reflexivity|].
           split; [rewrite cuts_app; unfold cuts in *; simpl; lia|].
           split; [exact Ca|].
           split; [rewrite punches_app; unfold punches in *; simpl; lia|].
           split; [simpl; lia|].
           split; [rewrite cumulative_feed_S; lia|].
           intros [|j] Hj; rewrite cumulative_feed_S.
           ++ unfold cumulative_feed, total_feed. simpl. lia.
           ++ specialize (Hlt j ltac:(lia)). lia.
Qed.

(** The three stages of [do_run] after the loop. *)
Lemma do_run_stages (steps : list MoveStep) (s s' : state) :
  do_run hw self steps s = Done tt s' ->
  exists did_cut s1 s2 s3,
    run_loop hw self 0 steps (total_feed steps + cutter_position self) 0 false s
    = Done did_cut s1 /\
    (if negb did_cut then
       exists s1', (if 0 <? cutter_position self
                    then to_idle hw self (cutter_position self) s1 = Done tt s1'
                    else s1' = s1) /\
                   log s2 = log s1' ++ [Cut] /\ position s2 = position s1'
     else s2 = s1) /\
    (if 0 <? end_feed self then to_idle hw self (end_feed self) s2 = Done tt s3
     else s3 = s2) /\
    to_idle hw self 0 s3 = Done tt s'.
Proof.
  unfold do_run. intros H.
  apply mbind_done in H. destruct H as (did & s1 & H1 & H).
  apply mbind_done in H. destruct H as (? & s2 & H2 & H).
  apply mbind_done in H. destruct H as (? & s3 & H3 & H).
  destruct x, x0.
  exists did, s1, s2, s3. split; [exact H1|].
  split; [|split; [|exact H]].
  - destruct (negb did).
    + apply mbind_done in H2. destruct H2 as (? & s1' & H2 & Hc).
      inversion Hc; subst; clear Hc. exists s1'.
      split; [|split; reflexivity].
      destruct (0 <? cutter_position self); [now destruct x|].
      now inversion H2.
    + now inversion H2.
  - destruct (0 <? end_feed self); [exact H3 | now inversion H3].
Qed.

Lemma optional_to_idle (b : bool) (feedsteps : Z) (s s' : state) :
  (if b then to_idle hw self feedsteps s = Done tt s' else s' = s) ->
  exists tr, log s' = log s ++ tr /\ quiet tr.
Proof.
  destruct b; intros H.
  - now apply to_idle_done in H.
  - subst s'. exists []. now rewrite app_nil_r; split; [|apply quiet_nil].
Qed.

(** C1: a run that completes fires the cutter exactly once: right after
    the punch of the first move at which the cumulative feed reaches
    [total feed + cutter_position], or, when no move reaches it, once
    after the last punch of the plan. *)
Theorem cutter_fires_exactly_once (steps : list MoveStep) (s s' : state) :
  do_run hw self steps s = Done tt s' ->
  let cutter_trigger := total_feed steps + cutter_position self in
  exists before after,
    log s' = log s ++ before ++ Cut :: after /\
    cuts before = 0%nat /\ cuts after = 0%nat /\
    cuts (before ++ Cut :: after) = 1%nat /\
    (punches before + punches after = length steps)%nat /\
    ((exists k,
        (k < length steps)%nat /\
        cutter_trigger <= cumulative_feed steps (S k) /\
        (forall j, (j < k)%nat -> cumulative_feed steps (S j) < cutter_trigger) /\
        punches before = S k /\
        exists b, before = b ++ [Punch]) \/
     ((forall j, (j < length steps)%nat ->
                 cumulative_feed steps (S j) < cutter_trigger) /\
      punches before = length steps /\ punches after = 0%nat)).
Proof.
  intros H cutter_trigger.
  apply do_run_stages in H.
  destruct H as (did & s1 & s2 & s3 & Hloop & Hcut & Hend & Hidle).
  apply run_loop_trace in Hloop.
  destruct Hloop as (_ & tr & L1 & Np & _ & Hn).
  apply optional_to_idle in Hend. destruct Hend as (t3 & L3 & Qc3 & Qp3).
  apply to_idle_done in Hidle. destruct Hidle as (_ & t4 & L4 & Qc4 & Qp4).
  assert (Hone : forall b a, cuts b = 0%nat -> cuts a = 0%nat ->
                             cuts (b ++ Cut :: a) = 1%nat).
  { intros b a Hb Ha. rewrite cuts_app. unfold cuts in *. simpl. lia. }
  destruct (Hn eq_refl) as [(-> & C1 & Hlt) | (-> & k & b & a & Et & Cb & Ca & Pb & Hk & Hge & Hlt)].
  - simpl in Hcut. destruct Hcut as (s1' & Hmove & L2 & _).
    apply optional_to_idle in Hmove. destruct Hmove as (t2 & L2' & Qc2 & Qp2).
    exists (tr ++ t2), (t3 ++ t4).
    assert (Cb : cuts (tr ++ t2) = 0%nat) by (rewrite cuts_app; lia).
    assert (Ca : cuts (t3 ++ t4) = 0%nat) by (rewrite cuts_app; lia).
    split; [rewrite L4, L3, L2, L2', L1; rewrite <- !app_assoc; reflexivity|].
    split; [exact Cb|]. split; [exact Ca|]. split; [now apply Hone|].
    split; [rewrite !punches_app; lia|].
    right. split; [intros j Hj; specialize (Hlt j Hj); lia|].
    rewrite !punches_app. lia.
  - simpl in Hcut. subst s2.
    exists (b ++ [Punch]), (a ++ t3 ++ t4).
    assert (Cb' : cuts (b ++ [Punch]) = 0%nat)
      by (rewrite cuts_app; unfold cuts in *; simpl; lia).
    assert (Ca' : cuts (a ++ t3 ++ t4) = 0%nat) by (rewrite !cuts_app; lia).
    assert (Pt : punches tr = (S (punches b) + punches a)%nat).
    { rewrite Et, punches_app. unfold punches. simpl. lia. }
    split; [rewrite L4, L3, L1, Et; rewrite <- !app_assoc; reflexivity|].
    split; [exact Cb'|]. split; [exact Ca'|]. split; [now apply Hone|].
    assert (Pb' : punches (b ++ [Punch]) = S k)
      by (rewrite punches_app; unfold punches in *; simpl; lia).
    split; [rewrite !punches_app in *; lia|].
    left. exists k. split; [exact Hk|]. split; [lia|].
    split; [intros j Hj; specialize (Hlt j Hj); lia|].
    split; [exact Pb'|]. now exists b.
Qed.

(** C7 (amended): when no move reaches the cutter threshold and the
    cutter offset is positive, the move made before the cutter fires is
    [__move(cutter_position, idle_position - position)]: besides the
    feed it brings the tone axis back to its idle position. *)
Theorem cutter_move_returns_to_idle (steps : list MoveStep) (s s' : state) :
  do_run hw self steps s = Done tt s' ->
  (forall j, (j < length steps)%nat ->
             cumulative_feed steps (S j) < total_feed steps + cutter_position self) ->
  0 < cutter_position self ->
  exists s1 s2 after,
    run_loop hw self 0 steps (total_feed steps + cutter_position self) 0 false s
    = Done false s1 /\
    position s1 = position s + total_tone steps /\
    move hw self (cutter_position self) (idle_position self - position s1) s1
    = Done tt s2 /\
    position s2 = idle_position self /\
    (position s2 = position s1 <-> position s1 = idle_position self) /\
    log s' = log s2 ++ Cut :: after /\
    cuts after = 0%nat.
Proof.
  intros H Hnever Hpos.
  apply do_run_stages in H.
  destruct H as (did & s1 & s2 & s3 & Hloop & Hcut & Hend & Hidle).
  pose proof (run_loop_trace _ _ _ _ _ _ _ _ Hloop) as (P1 & tr & L1 & Np & _ & Hn).
  apply optional_to_idle in Hend. destruct Hend as (t3 & L3 & Qc3 & Qp3).
  apply to_idle_done in Hidle. destruct Hidle as (_ & t4 & L4 & Qc4 & Qp4).
  destruct (Hn eq_refl) as [(-> & C1 & Hlt) | (-> & k & b & a & Et & Cb & Ca & Pb & Hk & Hge & Hlt)].
  - simpl in Hcut. destruct Hcut as (s1' & Hmove & L2 & _).
    destruct (0 <? cutter_position self) eqn:E; [|apply Z.ltb_ge in E; lia].
    pose proof (to_idle_done _ _ _ Hmove) as (P2 & _).
    unfold to_idle in Hmove. apply mbind_done in Hmove.
    destruct Hmove as (p & s0 & Hg & Hmove). inversion Hg; subst; clear Hg.
    exists s0, s1', (t3 ++ t4).
    split; [exact Hloop|]. split; [exact P1|]. split; [exact Hmove|].
    split; [exact P2|]. split; [rewrite P2; split; congruence|].
    split; [rewrite L4, L3, L2; rewrite <- !app_assoc; reflexivity|].
    rewrite cuts_app. lia.
  - specialize (Hnever k Hk). lia.
Qed.

End SequencerProofs.

Lemma cutter_fires_exactly_once_witness :
  exists s',
    do_run good_hardware flush_puncher example_plan initial_state = Done tt s' /\
    exists before after,
      log s' = log initial_state ++ before ++ Cut :: after /\
      cuts before = 0%nat /\ cuts after = 0%nat /\
      cuts (before ++ Cut :: after) = 1%nat /\
      (punches before + punches after = length example_plan)%nat /\
      ((exists k,
          (k < length example_plan)%nat /\
          total_feed example_plan + cutter_position flush_puncher
          <= cumulative_feed example_plan (S k) /\
          (forall j, (j < k)%nat ->
                     cumulative_feed example_plan (S j)
                     < total_feed example_plan + cutter_position flush_puncher) /\
          punches before = S k /\
          exists b, before = b ++ [Punch]) \/
       ((forall j, (j < length example_plan)%nat ->
                   cumulative_feed example_plan (S j)
                   < total_feed example_plan + cutter_position flush_puncher) /\
        punches before = length example_plan /\ punches after = 0%nat)).
Proof.
  eexists. split; [vm_compute; reflexivity|].
  apply (cutter_fires_exactly_once good_hardware flush_puncher example_plan
           initial_state).
  vm_compute. reflexivity.
Defined.

(** C7 (as stated) fails: after the one move [(5, 10)] the head is at
    10, the threshold 8 was not reached, and the additional move
    [__move(3, 0 - 10)] brings the tone axis from 10 to 0. *)
Lemma cutter_move_is_not_feed_only :
  match run_loop good_hardware example_puncher 0 [(5, 10)] (5 + 3) 0 false
          initial_state with
  | Done did_cut s1 =>
      did_cut = false /\ position s1 = 10 /\
      idle_position example_puncher - position s1 = -10 /\
      match move good_hardware example_puncher 3 (-10) s1 with
      | Done _ s2 => position s2 = 0 /\ position s2 <> position s1
      | _ => False
      end
  | _ => False
  end.
Proof. vm_compute. repeat split; discriminate. Qed.

Lemma cutter_move_returns_to_idle_witness :
  exists s',
    (do_run good_hardware example_puncher [(5, 10)] initial_state = Done tt s' /\
     (forall j, (j < length [(5, 10)])%nat ->
                cumulative_feed [(5, 10)] (S j)
                < total_feed [(5, 10)] + cutter_position example_puncher) /\
     0 < cutter_position example_puncher) /\
    exists s1 s2 after,
      run_loop good_hardware example_puncher 0 [(5, 10)]
        (total_feed [(5, 10)] + cutter_position example_puncher) 0 false initial_state
      = Done false s1 /\
      position s1 = position initial_state + total_tone [(5, 10)] /\
      move good_hardware example_puncher (cutter_position example_puncher)
        (idle_position example_puncher - position s1) s1
      = Done tt s2 /\
      position s2 = idle_position example_puncher /\
      (position s2 = position s1 <-> position s1 = idle_position example_puncher) /\
      log s' = log s2 ++ Cut :: after /\
      cuts after = 0%nat.
Proof.
  assert (Hn : forall j, (j < length [(5, 10)])%nat ->
                 cumulative_feed [(5, 10)] (S j)
                 < total_feed [(5, 10)] + cutter_position example_puncher).
  { intros [|j] Hj; [reflexivity | simpl in Hj; lia]. }
  eexists. split; [split; [vm_compute; reflexivity | split; [exact Hn | reflexivity]]|].
  apply (cutter_move_returns_to_idle good_hardware example_puncher [(5, 10)]
           initial_state); [vm_compute; reflexivity | exact Hn | reflexivity].
Defined.

(** ** Building the plan: [run] *)

Lemma insert_sorted_perm (x : Z) (l : list Z) :
  Permutation (x :: l) (insert_sorted x l).
Proof.
  induction l as [|y l IH]; simpl; [reflexivity|].
  destruct (x <=? y); [reflexivity|].
  rewrite perm_swap. now apply perm_skip.
Qed.

Lemma sorted_perm (l : list Z) : Permutation l (sorted l).
Proof.
  induction l as [|x l IH]; simpl; [reflexivity|].
  rewrite <- insert_sorted_perm. now apply perm_skip.
Qed.

Lemma insert_sorted_hdrel (a x : Z) (l : list Z) :
  HdRel Z.le a l -> a <= x -> HdRel Z.le a (insert_sorted x l).
Proof.
  intros H Hax. destruct l as [|y l]; simpl; [now constructor|].
  destruct (x <=? y); constructor; [exact Hax | now inversion H].
Qed.

Lemma insert_sorted_sorted (x : Z) (l : list Z) :
  Sorted Z.le l -> Sorted Z.le (insert_sorted x l).
Proof.
  induction l as [|y l IH]; intros H; simpl; [repeat constructor|].
  destruct (x <=? y) eqn:E.
  - apply Z.leb_le in E. constructor; [exact H | now constructor].
  - apply Z.leb_gt in E. inversion H; subst.
    constructor; [now apply IH | apply insert_sorted_hdrel; [assumption | lia]].
Qed.

(** [sorted] sorts: its result is ordered and a permutation of its
    argument. *)
Lemma sorted_sorted (l : list Z) : Sorted Z.le (sorted l).
Proof.
  induction l as [|x l IH]; simpl; [constructor | now apply insert_sorted_sorted].
Qed.

Lemma sorted_length (l : list Z) : length (sorted l) = length l.
Proof. symmetry. apply Permutation_length, sorted_perm. Qed.

Lemma index_last {A} (l : list A) (d : A) :
  l <> [] -> Py.index l (-1) = Ok (last l d).
Proof.
  intros Hne. destruct (exists_last Hne) as (l' & a & ->).
  rewrite last_last. unfold Py.index.
  rewrite length_app. cbn [length].
  change (-1 <? 0) with true. cbv iota.
  replace (-1 + Z.of_nat (length l' + 1)) with (Z.of_nat (length l')) by lia.
  destruct (Z.of_nat (length l') <? 0) eqn:E1; [apply Z.ltb_lt in E1; lia|].
  destruct (Z.of_nat (length l' + 1) <=? Z.of_nat (length l')) eqn:E2;
    [apply Z.leb_le in E2; lia|].
  cbn [orb]. rewrite Nat2Z.id, nth_error_app2, Nat.sub_diag by lia.
  reflexivity.
Qed.

Lemma index_first {A} (l : list A) (d : A) :
  l <> [] -> Py.index l 0 = Ok (hd d l).
Proof.
  intros Hne. destruct l as [|a l]; [congruence|].
  unfold Py.index. cbn [length]. change (0 <? 0) with false. cbv iota.
  destruct (Z.of_nat (S (length l)) <=? 0) eqn:E; [apply Z.leb_le in E; lia|].
  reflexivity.
Qed.

Lemma last_cons_default {A} (a d : A) (l : list A) : last (a :: l) d = last l a.
Proof.
  revert a d. induction l as [|b l IH]; intros a d; [reflexivity|].
  change (last (b :: l) d = last (b :: l) a). now rewrite !IH.
Qed.

Lemma nonzero_step_spec (mv : MoveStep) :
  nonzero_step mv = negb (is_zero_step mv).
Proof. destruct mv as [[|f|f] [|t|t]]; reflexivity. Qed.

Lemma chord_moves_cons (d p t : Z) (rest : list Z) :
  chord_moves d p (t :: rest)
  = (if is_zero_step (d, t - p) then [] else [(d, t - p)]) ++ chord_moves 0 t rest.
Proof.
  unfold chord_moves. cbn [length deltas].
  replace (S (length rest) - 1)%nat with (length rest) by lia.
  cbn [combine filter].
  assert (E : combine (repeat 0 (length rest)) (deltas t rest)
              = combine (0 :: repeat 0 (length rest - 1)) (deltas t rest)).
  { destruct rest as [|t' rest]; [reflexivity|].
    cbn [length]. replace (S (length rest) - 1)%nat with (length rest) by lia.
    reflexivity. }
  rewrite E, nonzero_step_spec. now destruct (is_zero_step (d, t - p)).
Qed.

(** The inner loop appends exactly the chord's moves and ends on the
    last target visited. *)
Lemma chord_loop_spec (order : list Z) :
  forall d p steps,
    chord_loop order d p steps = (steps ++ chord_moves d p order, last order p).
Proof.
  induction order as [|t rest IH]; intros d p steps.
  - simpl. now rewrite app_nil_r.
  - cbn [chord_loop]. rewrite IH, chord_moves_cons, last_cons_default.
    destruct (is_zero_step (d, t - p)); [reflexivity|].
    now rewrite <- app_assoc.
Qed.

Lemma chord_moves_nonzero (d p : Z) (order : list Z) :
  Forall (fun mv : MoveStep => mv <> (0, 0)) (chord_moves d p order).
Proof.
  apply Forall_forall. intros mv Hin. apply filter_In in Hin.
  destruct Hin as [_ Hz]. intros ->. discriminate Hz.
Qed.

(** Arithmetic raises no [RuntimeError]. *)
Lemma pure_errors_bind {A B} (r : result A) (k : A -> result B) :
  pure_errors r -> (forall a, pure_errors (k a)) -> pure_errors (bind r k).
Proof.
  intros Hr Hk e H. destruct r as [a|e']; simpl in H.
  - now apply (Hk a).
  - injection H as <-. now apply Hr.
Qed.

Lemma pure_errors_ok {A} (a : A) : pure_errors (Ok a).
Proof. intros e H. discriminate. Qed.

Lemma pure_errors_to_float (x : Py.number) : pure_errors (Py.to_float x).
Proof.
  intros e H. destruct x as [z|f]; simpl in H; [|discriminate].
  unfold Py.float_of_int in H.
  destruct (binary_normalize Py.prec Py.emax z 0 false);
    try discriminate; now injection H as <-.
Qed.

Lemma pure_errors_mul (x y : Py.number) : pure_errors (Py.mul x y).
Proof.
  destruct x as [a|f], y as [b|g]; unfold Py.mul;
    try apply pure_errors_ok;
    (apply pure_errors_bind; [apply pure_errors_to_float | intros fx];
     apply pure_errors_bind; [apply pure_errors_to_float | intros fy];
     apply pure_errors_ok).
Qed.

Lemma pure_errors_round (x : Py.number) : pure_errors (Py.round x).
Proof.
  intros e H. destruct x as [z|[s|s| |s m ex]]; simpl in H;
    try discriminate; now injection H as <-.
Qed.

Lemma pure_errors_truediv (x y : Py.number) : pure_errors (Py.truediv x y).
Proof.
  unfold Py.truediv. destruct (Py.is_zero y).
  - intros e H. now injection H as <-.
  - destruct x as [a|f], y as [b|g];
      try (apply pure_errors_bind; [apply pure_errors_to_float | intros fx];
           apply pure_errors_bind; [apply pure_errors_to_float | intros fy];
           apply pure_errors_ok).
    intros e H.
    destruct (SFdiv Py.prec Py.emax (Py.exact_of_int a) (Py.exact_of_int b));
      try discriminate; now injection H as <-.
Qed.

Lemma pure_errors_index {A} (l : list A) (i : Z) : pure_errors (Py.index l i).
Proof.
  intros e H. unfold Py.index in H.
  destruct ((_ <? 0) || _); [now injection H as <-|].
  destruct (nth_error l _); [discriminate | now injection H as <-].
Qed.

Section PlanProofs.

Variable note : Type.
Variable get_index : note -> Z.
Variable self : MusicPuncher.

Local Abbreviation target_positions' := (target_positions note get_index self).
Local Abbreviation scaled_delay' := (scaled_delay note self).
Local Abbreviation build_steps' := (build_steps note get_index self).
Local Abbreviation chords_visited' := (chords_visited note get_index self).

Lemma pure_errors_scaled_delay (dn : DelayNotes note) : pure_errors (scaled_delay' dn).
Proof.
  apply pure_errors_bind; [apply pure_errors_mul | intros x; apply pure_errors_round].
Qed.

Lemma target_positions_nonempty (dn : DelayNotes note) :
  dn_notes dn <> [] -> target_positions' dn <> [].
Proof.
  intros Hne E. apply (f_equal (@length Z)) in E.
  unfold target_positions in E.
  rewrite sorted_length, length_map in E.
  destruct (dn_notes dn); [congruence | discriminate].
Qed.

Lemma visit_order_nonempty (p : Z) (targets : list Z) :
  targets <> [] ->
  visit_order p targets
  = Ok (if Z.abs (p - last targets 0) <? Z.abs (p - hd 0 targets)
        then rev targets else targets).
Proof.
  intros Hne. unfold visit_order.
  now rewrite (index_last targets 0 Hne), (index_first targets 0 Hne).
Qed.

(** One event of the outer loop, when its note list is not empty and
    its delay scales. *)
Lemma build_steps_cons (dn : DelayNotes note) (events : list (DelayNotes note))
    (p d : Z) (steps : list MoveStep) :
  dn_notes dn <> [] -> scaled_delay' dn = Ok d ->
  let targets := target_positions' dn in
  let order := if Z.abs (p - last targets 0) <? Z.abs (p - hd 0 targets)
               then rev targets else targets in
  build_steps' (dn :: events) p steps
  = build_steps' events (last order p) (steps ++ chord_moves d p order).
Proof.
  intros Hne Hd targets order. cbn [build_steps].
  destruct (dn_notes dn) eqn:En; [congruence|].
  rewrite visit_order_nonempty
    by (apply target_positions_nonempty; rewrite En; discriminate).
  cbn [bind]. rewrite Hd. cbn [bind].
  fold targets. fold order. now rewrite chord_loop_spec.
Qed.

Lemma build_steps_chords (events : list (DelayNotes note)) (ds : list Z) :
  Forall2 (fun dn d => dn_notes dn <> [] /\ scaled_delay' dn = Ok d) events ds ->
  forall p steps,
    exists chunks,
      build_steps' events p steps = Ok (steps ++ concat chunks) /\
      chords_visited' p events ds chunks.
Proof.
  induction 1 as [|dn d events ds [Hne Hd] _ IH]; intros p steps.
  - exists []. simpl. rewrite app_nil_r. split; [reflexivity | constructor].
  - rewrite (build_steps_cons dn events p d steps Hne Hd).
    set (targets := target_positions' dn).
    set (order := if Z.abs (p - last targets 0) <? Z.abs (p - hd 0 targets)
                  then rev targets else targets).
    destruct (IH (last order p) (steps ++ chord_moves d p order))
      as (chunks & Hb & Hc).
    exists (chord_moves d p order :: chunks).
    split; [rewrite Hb; simpl; now rewrite <- app_assoc|].
    apply (cv_cons note get_index self p d dn events ds targets order chunks).
    + apply sorted_perm.
    + apply sorted_sorted.
    + reflexivity.
    + exact Hc.
Qed.

Lemma chords_visited_nonzero p events ds chunks :
  chords_visited' p events ds chunks ->
  Forall (fun mv : MoveStep => mv <> (0, 0)) (concat chunks).
Proof.
  induction 1; simpl; [constructor|].
  apply Forall_app. split; [apply chord_moves_nonzero | assumption].
Qed.

(** C4: for events with non-empty note lists (whose delays
    [round(delay * feed_steps)] are integers [ds]) and any starting
    position, [run] builds the plan chord by chord: each event's targets
    in sorted order, reversed exactly when the current position is
    strictly closer to the last than to the first, the event's delay on
    the first candidate move and zero on the others, the [(0, 0)]
    candidates dropped and no other, and so no [(0, 0)] move anywhere. *)
Theorem move_steps_follow_chords (events : list (DelayNotes note)) (ds : list Z)
    (position : Z) :
  Forall2 (fun dn d =>
             dn_notes dn <> [] /\
             bind (Py.mul (dn_delay dn) (feed_steps self)) Py.round = Ok d)
    events ds ->
  exists chunks,
    build_steps' events position [] = Ok (concat chunks) /\
    chords_visited' position events ds chunks /\
    Forall (fun mv : MoveStep => mv <> (0, 0)) (concat chunks).
Proof.
  intros H0.
  assert (H : Forall2 (fun dn d => dn_notes dn <> [] /\ scaled_delay' dn = Ok d)
                events ds) by exact H0.
  destruct (build_steps_chords events ds H position []) as (chunks & Hb & Hc).
  exists chunks. split; [exact Hb|]. split; [exact Hc|].
  now apply (chords_visited_nonzero position events ds).
Qed.

(** The first event with an empty note list stops the loop. *)
Lemma build_steps_empty_event (before : list (DelayNotes note)) :
  forall (dn : DelayNotes note) after p steps,
    dn_notes dn = [] ->
    Forall (fun e => exists d, scaled_delay' e = Ok d) before ->
    build_steps' (before ++ dn :: after) p steps = Raise (RuntimeError EmptyNoteSet).
Proof.
  induction before as [|e before IH]; intros dn after p steps Hdn Hb.
  - simpl. now rewrite Hdn.
  - inversion Hb as [|? ? [d Hd] Hb']; subst.
    destruct (dn_notes e) eqn:En.
    + simpl. now rewrite En.
    + change ((e :: before) ++ dn :: after) with (e :: (before ++ dn :: after)).
      rewrite (build_steps_cons e _ p d steps) by (rewrite ?En; easy).
      now apply IH.
Qed.

Lemma build_steps_other_errors (events : list (DelayNotes note)) :
  Forall (fun e => dn_notes e <> []) events ->
  forall p steps, pure_errors (build_steps' events p steps).
Proof.
  induction 1 as [|e events Hne _ IH]; intros p steps.
  - apply pure_errors_ok.
  - destruct (scaled_delay' e) as [d|err] eqn:Ed.
    + rewrite (build_steps_cons e events p d steps Hne Ed). apply IH.
    + cbn [build_steps].
      destruct (dn_notes e) eqn:En; [congruence|].
      rewrite visit_order_nonempty
        by (apply target_positions_nonempty; rewrite En; discriminate).
      cbn [bind]. rewrite Ed. cbn [bind].
      intros e' H'. injection H' as <-.
      now apply (pure_errors_scaled_delay e).
Qed.

End PlanProofs.

Lemma move_steps_follow_chords_witness :
  Forall2 (fun dn d =>
             dn_notes dn <> [] /\
             bind (Py.mul (dn_delay dn) (feed_steps example_puncher)) Py.round = Ok d)
    example_events [3; 0] /\
  build_steps Z (fun n => n) example_puncher example_events 0 []
  = Ok [(3, 10); (0, 6); (0, -4)] /\
  chords_visited Z (fun n => n) example_puncher 0 example_events [3; 0]
    [[(3, 10); (0, 6)]; [(0, -4)]] /\
  exists chunks,
    concat chunks = [(3, 10); (0, 6); (0, -4)] /\
    build_steps Z (fun n => n) example_puncher example_events 0 []
    = Ok (concat chunks) /\
    chords_visited Z (fun n => n) example_puncher 0 example_events [3; 0] chunks /\
    Forall (fun mv : MoveStep => mv <> (0, 0)) (concat chunks).
Proof.
  assert (H : Forall2 (fun dn d =>
                         dn_notes dn <> [] /\
                         bind (Py.mul (dn_delay dn) (feed_steps example_puncher))
                           Py.round = Ok d)
                example_events [3; 0]).
  { repeat constructor; discriminate. }
  assert (Hb : build_steps Z (fun n => n) example_puncher example_events 0 []
               = Ok [(3, 10); (0, 6); (0, -4)]) by reflexivity.
  split; [exact H|]. split; [exact Hb|]. split.
  - apply (cv_cons Z (fun n => n) example_puncher 0 3
             (Build_DelayNotes Z 1 [0; 3]) [Build_DelayNotes Z 0 [3; 1]]
             [0] [10; 16] [10; 16] [[(0, -4)]]).
    + apply Permutation_refl.
    + repeat constructor; discriminate.
    + reflexivity.
    + apply (cv_cons Z (fun n => n) example_puncher 16 0
               (Build_DelayNotes Z 0 [3; 1]) [] [] [12; 16] [16; 12] []).
      * apply perm_swap.
      * repeat constructor; discriminate.
      * reflexivity.
      * constructor.
  - destruct (move_steps_follow_chords Z (fun n => n) example_puncher
                example_events [3; 0] 0 H) as (chunks & Hc & Hv & Hz).
    exists chunks. rewrite Hb in Hc. injection Hc as Hc.
    split; [symmetry; exact Hc|]. split; [rewrite Hb; f_equal; exact Hc|].
    split; [exact Hv | exact Hz].
Defined.

(** ** Errors of a run *)

Lemma mbind_failed {A B} (c : M A) (k : A -> M B) (s s' : state) (e : exn) :
  mbind c k s = Failed e s' ->
  c s = Failed e s' \/ exists a s1, c s = Done a s1 /\ k a s1 = Failed e s'.
Proof.
  unfold mbind. destruct (c s) as [a s1|e1 s1|]; try discriminate.
  - intros H. right. exists a, s1. split; [reflexivity | exact H].
  - intros H. left. inversion H. reflexivity.
Qed.

Lemma no_empty_bind {A B} (c : M A) (k : A -> M B) :
  no_empty_note_error c -> (forall a, no_empty_note_error (k a)) ->
  no_empty_note_error (mbind c k).
Proof.
  intros Hc Hk s e s' H. apply mbind_failed in H.
  destruct H as [H | (a & s1 & _ & H)];
    [exact (Hc _ _ _ H) | exact (Hk a _ _ _ H)].
Qed.

Lemma no_empty_total {A} (c : M A) :
  (forall s, exists a s', c s = Done a s') -> no_empty_note_error c.
Proof.
  intros Hc s e s' H. destruct (Hc s) as (a & s1 & H1). congruence.
Qed.

Lemma no_empty_ret {A} (a : A) : no_empty_note_error (mret a).
Proof. apply no_empty_total. intros s. now exists a, s. Qed.

Lemma no_empty_emit (ev : event) : no_empty_note_error (emit ev).
Proof. apply no_empty_total. intros s. eexists. eexists. reflexivity. Qed.

Lemma no_empty_get_position : no_empty_note_error get_position.
Proof. apply no_empty_total. intros s. eexists. eexists. reflexivity. Qed.

Lemma no_empty_set_position (p : Z) : no_empty_note_error (set_position p).
Proof. apply no_empty_total. intros s. eexists. eexists. reflexivity. Qed.

Lemma no_empty_get_log : no_empty_note_error get_log.
Proof. apply no_empty_total. intros s. eexists. eexists. reflexivity. Qed.

Lemma no_empty_set_length (l : Py.number) :
  no_empty_note_error (set_prepared_wave_length l).
Proof. apply no_empty_total. intros s. eexists. eexists. reflexivity. Qed.

Lemma no_empty_lift {A} (r : result A) :
  pure_errors r -> no_empty_note_error (lift r).
Proof.
  intros Hr s e s' H. unfold lift in H. destruct r as [a|e']; [discriminate|].
  injection H as <- _. intros ->. exact (Hr _ eq_refl).
Qed.

Lemma pure_errors_move_loop {A} (emit : Z -> list A) profile md n :
  forall i rem s out, pure_errors (move_loop emit profile md n i rem s out).
Proof.
  induction n as [|n IH]; intros i rem s out; [apply pure_errors_ok|].
  rewrite move_loop_S.
  destruct (rem - 1 <=? s);
    [apply pure_errors_bind; [apply pure_errors_index | intros d; apply IH]|].
  destruct (i <? Z.of_nat (length profile));
    [apply pure_errors_bind; [apply pure_errors_index | intros d; apply IH]
    | apply IH].
Qed.

Lemma pure_errors_create_move_waveform (m : PiGPIOStepperMotor) (steps : Z) :
  pure_errors (create_move_waveform m steps).
Proof.
  unfold create_move_waveform, move_plan.
  apply pure_errors_bind; [|intros md; apply pure_errors_move_loop].
  apply pure_errors_bind; [apply pure_errors_mul | intros x; apply pure_errors_round].
Qed.

Lemma pure_errors_scale (factor : Py.number) (pulses : list pulse) :
  pure_errors (scale pulses factor).
Proof.
  induction pulses as [|p pulses IH]; [apply pure_errors_ok|].
  cbn [scale]. apply pure_errors_bind.
  - apply pure_errors_bind; [apply pure_errors_mul | intros x; apply pure_errors_round].
  - intros d. apply pure_errors_bind; [exact IH | intros r; apply pure_errors_ok].
Qed.

Lemma pure_errors_synchronize (wave1 wave2 : list pulse) :
  pure_errors (synchronize wave1 wave2).
Proof.
  unfold synchronize.
  destruct wave1 as [|p1 w1]; [apply pure_errors_ok|].
  destruct wave2 as [|p2 w2]; [apply pure_errors_ok|].
  destruct (_ <? _);
    (apply pure_errors_bind; [apply pure_errors_truediv | intros f];
     apply pure_errors_bind; [apply pure_errors_scale | intros w];
     apply pure_errors_ok).
Qed.

Section RunProofs.

Variable note : Type.
Variable get_index : note -> Z.
Variable hw : hardware.
Variable self : MusicPuncher.

Lemma no_empty_prepare_waveform (timesteps notesteps : Z) :
  no_empty_note_error (prepare_waveform self timesteps notesteps).
Proof.
  unfold prepare_waveform, stepper_waveform, add_wave.
  repeat (apply no_empty_bind; [|intros ?]);
    try apply no_empty_emit; try apply no_empty_set_length;
    try (apply no_empty_lift;
         first [apply pure_errors_create_move_waveform
               | apply pure_errors_synchronize
               | apply pure_errors_truediv]).
  - destruct (fst (fst _)); [apply no_empty_ret | apply no_empty_emit].
  - destruct (snd (fst _)); [apply no_empty_ret | apply no_empty_emit].
Qed.

Lemma no_empty_create_and_send_wave :
  no_empty_note_error (create_and_send_wave hw).
Proof.
  unfold create_and_send_wave.
  apply no_empty_bind; [apply no_empty_get_log | intros history].
  apply no_empty_bind; [apply no_empty_emit | intros _].
  destruct (_ <? 0); [|apply no_empty_emit].
  intros s e s' H. injection H as <- _. discriminate.
Qed.

Lemma no_empty_move (feedsteps tonesteps : Z) :
  no_empty_note_error (move hw self feedsteps tonesteps).
Proof.
  unfold move. destruct (_ && _); [apply no_empty_ret|].
  apply no_empty_bind; [apply no_empty_prepare_waveform | intros _].
  apply no_empty_bind; [apply no_empty_create_and_send_wave | intros _].
  apply no_empty_bind; [apply no_empty_emit | intros _].
  apply no_empty_bind; [apply no_empty_get_position | intros p].
  apply no_empty_set_position.
Qed.

Lemma no_empty_to_idle (feedsteps : Z) :
  no_empty_note_error (to_idle hw self feedsteps).
Proof.
  apply no_empty_bind; [apply no_empty_get_position | intros p].
  apply no_empty_move.
Qed.

Lemma no_empty_run_loop (steps : list MoveStep) :
  forall idx cutter_step total did_cut,
    no_empty_note_error (run_loop hw self idx steps cutter_step total did_cut).
Proof.
  induction steps as [|step rest IH]; intros idx cutter_step total did_cut;
    [apply no_empty_ret|].
  cbn [run_loop].
  apply no_empty_bind;
    [destruct (Nat.eqb idx 0);
       [apply no_empty_prepare_waveform | apply no_empty_ret] | intros _].
  apply no_empty_bind; [apply no_empty_create_and_send_wave | intros _].
  apply no_empty_bind;
    [destruct rest; [apply no_empty_ret | apply no_empty_prepare_waveform]
    | intros _].
  apply no_empty_bind; [apply no_empty_emit | intros _].
  apply no_empty_bind; [apply no_empty_get_position | intros p].
  apply no_empty_bind; [apply no_empty_set_position | intros _].
  apply no_empty_bind; [apply no_empty_emit | intros _].
  destruct (_ && _); [|apply IH].
  apply no_empty_bind; [apply no_empty_emit | intros _; apply IH].
Qed.

Lemma no_empty_do_run (steps : list MoveStep) :
  no_empty_note_error (do_run hw self steps).
Proof.
  unfold do_run.
  apply no_empty_bind; [apply no_empty_run_loop | intros did_cut].
  apply no_empty_bind.
  { destruct (negb did_cut); [|apply no_empty_ret].
    apply no_empty_bind; [|intros _; apply no_empty_emit].
    destruct (0 <? _); [apply no_empty_to_idle | apply no_empty_ret]. }
  intros _. apply no_empty_bind; [|intros _; apply no_empty_to_idle].
  destruct (0 <? _); [apply no_empty_to_idle | apply no_empty_ret].
Qed.

Lemma no_empty_poll_zero_button (fuel : nat) (m : PiGPIOStepperMotor) :
  no_empty_note_error (poll_zero_button hw fuel m).
Proof.
  induction fuel as [|fuel IH]; cbn [poll_zero_button].
  - apply no_empty_bind; [apply no_empty_get_log | intros history].
    apply no_empty_bind; [apply no_empty_emit | intros _].
    destruct (zero_button_is_on hw history); [apply no_empty_ret|].
    intros s e s' H. discriminate.
  - apply no_empty_bind; [apply no_empty_get_log | intros history].
    apply no_empty_bind; [apply no_empty_emit | intros _].
    destruct (zero_button_is_on hw history); [apply no_empty_ret|].
    apply no_empty_bind; [apply no_empty_emit | intros _].
    apply no_empty_bind; [apply no_empty_emit | intros _]. exact IH.
Qed.

Lemma no_empty_reset (fuel : nat) : no_empty_note_error (reset hw self fuel).
Proof.
  unfold reset, move_until. destruct (zero_button self);
    [|apply no_empty_set_position].
  apply no_empty_bind.
  { apply no_empty_bind; [apply no_empty_emit | intros _].
    apply no_empty_poll_zero_button. }
  intros _. apply no_empty_bind; [apply no_empty_set_position | intros _].
  apply no_empty_move.
Qed.

(** C8: once homing has completed, a note sequence with an event whose
    note list is empty makes [run] fail with the empty-note-set
    [RuntimeError] in the state homing left, before any move of the plan
    (the earlier events' delays being numbers that scale); and a note
    sequence whose events all have notes never makes [run] raise it. *)
Theorem empty_note_set_is_rejected (fuel : nat)
    (notesequence : list (DelayNotes note)) (s : state) :
  (forall before dn after s1,
     notesequence = before ++ dn :: after ->
     dn_notes dn = [] ->
     Forall (fun e => exists d, scaled_delay note self e = Ok d) before ->
     reset hw self fuel s = Done tt s1 ->
     run note get_index hw self fuel notesequence s
     = Failed (RuntimeError EmptyNoteSet) s1) /\
  (Forall (fun e => dn_notes e <> []) notesequence ->
   forall s', run note get_index hw self fuel notesequence s
              <> Failed (RuntimeError EmptyNoteSet) s').
Proof.
  split.
  - intros before dn after s1 -> Hdn Hb Hreset.
    unfold run, mbind. rewrite Hreset. cbn [get_position].
    now rewrite (build_steps_empty_event note get_index self before dn after _ _ Hdn Hb).
  - intros Hall s' H.
    assert (Hno : no_empty_note_error (run note get_index hw self fuel notesequence)).
    { unfold run.
      apply no_empty_bind; [apply no_empty_reset | intros _].
      apply no_empty_bind; [apply no_empty_get_position | intros p].
      apply no_empty_bind; [|intros steps; apply no_empty_do_run].
      apply no_empty_lift. now apply build_steps_other_errors. }
    exact (Hno _ _ _ H eq_refl).
Qed.

End RunProofs.

Lemma empty_note_set_is_rejected_witness :
  (events_with_rest
   = [Build_DelayNotes Z 1 [0; 3]] ++ Build_DelayNotes Z 2 [] :: [Build_DelayNotes Z 0 [1]] /\
   dn_notes (Build_DelayNotes Z 2 []) = [] /\
   Forall (fun e => exists d, scaled_delay Z example_puncher e = Ok d)
     [Build_DelayNotes Z 1 [0; 3]] /\
   reset good_hardware example_puncher 0 initial_state = Done tt initial_state /\
   run Z (fun n => n) good_hardware example_puncher 0 events_with_rest initial_state
   = Failed (RuntimeError EmptyNoteSet) initial_state) /\
  (Forall (fun e => dn_notes e <> []) example_events /\
   forall s', run Z (fun n => n) good_hardware example_puncher 0 example_events
                initial_state
              <> Failed (RuntimeError EmptyNoteSet) s').
Proof.
  pose proof (empty_note_set_is_rejected Z (fun n => n) good_hardware
                example_puncher 0) as H.
  assert (Hb : Forall (fun e => exists d, scaled_delay Z example_puncher e = Ok d)
                 [Build_DelayNotes Z 1 [0; 3]])
    by (constructor; [exists 3; reflexivity | constructor]).
  assert (Hne : Forall (fun e : DelayNotes Z => dn_notes e <> []) example_events)
    by (repeat constructor; discriminate).
  split.
  - split; [reflexivity|]. split; [reflexivity|]. split; [exact Hb|].
    split; [reflexivity|].
    apply (proj1 (H events_with_rest initial_state)
             [Build_DelayNotes Z 1 [0; 3]] (Build_DelayNotes Z 2 [])
             [Build_DelayNotes Z 0 [1]] initial_state);
      [reflexivity | reflexivity | exact Hb | reflexivity].
  - split; [exact Hne|].
    apply (proj2 (H example_events initial_state) Hne).
Defined.

(** ** Homing, and a run as a whole *)

Section HomingProofs.

Variable note : Type.
Variable get_index : note -> Z.
Variable hw : hardware.
Variable self : MusicPuncher.

Lemma quiet_poll_zero_button (fuel : nat) (m : PiGPIOStepperMotor) :
  quiet_step (poll_zero_button hw fuel m).
Proof.
  induction fuel as [|fuel IH]; cbn [poll_zero_button].
  - apply quiet_step_bind; [apply quiet_step_get_log | intros history].
    apply quiet_step_bind; [now apply quiet_step_emit | intros _].
    destruct (zero_button_is_on hw history); [apply quiet_step_ret|].
    intros s a s' H. discriminate.
  - apply quiet_step_bind; [apply quiet_step_get_log | intros history].
    apply quiet_step_bind; [now apply quiet_step_emit | intros _].
    destruct (zero_button_is_on hw history); [apply quiet_step_ret|].
    apply quiet_step_bind; [now apply quiet_step_emit | intros _].
    apply quiet_step_bind; [now apply quiet_step_emit | intros _]. exact IH.
Qed.

Lemma reset_done (fuel : nat) (s s' : state) :
  reset hw self fuel s = Done tt s' ->
  position s' = idle_position self /\
  exists tr, log s' = log s ++ tr /\ cuts tr = 0%nat /\ punches tr = 0%nat.
Proof.
  unfold reset. intros H. destruct (zero_button self).
  - apply mbind_done in H. destruct H as (? & s1 & H1 & H).
    apply mbind_done in H. destruct H as (? & s2 & H2 & H).
    inversion H2; subst; clear H2.
    assert (Q1 : quiet_step (move_until hw fuel (tone_stepper self) (-1))).
    { apply quiet_step_bind; [now apply quiet_step_emit | intros _].
      apply quiet_poll_zero_button. }
    destruct (Q1 _ _ _ H1) as (_ & t1 & L1 & Qc1 & Qp1).
    apply move_done in H. destruct H as (P & t2 & L2 & Qc2 & Qp2).
    simpl in P, L2. split; [lia|].
    exists (t1 ++ t2). split; [rewrite L2, L1; now rewrite app_assoc|].
    rewrite cuts_app, punches_app. lia.
  - inversion H; subst; clear H. simpl. split; [reflexivity|].
    exists []. rewrite app_nil_r. repeat split.
Qed.

(** X1: whenever [reset] completes, with or without a zero button, the
    head is at the idle position and neither actuator has fired; without
    a zero button nothing at all is asked of the hardware. *)
Theorem reset_reaches_idle (fuel : nat) (s s' : state) :
  reset hw self fuel s = Done tt s' ->
  position s' = idle_position self /\
  (exists tr, log s' = log s ++ tr /\ cuts tr = 0%nat /\ punches tr = 0%nat) /\
  (zero_button self = false -> log s' = log s).
Proof.
  intros H. destruct (reset_done fuel s s' H) as [Hp Htr].
  split; [exact Hp|]. split; [exact Htr|].
  intros Hb. unfold reset in H. rewrite Hb in H.
  inversion H; subst; clear H. reflexivity.
Qed.

(** A completed [do_run] has punched once per move, cut once, and left
    the head at the idle position. *)
Lemma do_run_counts (steps : list MoveStep) (s s' : state) :
  do_run hw self steps s = Done tt s' ->
  position s' = idle_position self /\
  exists tr, log s' = log s ++ tr /\
             punches tr = length steps /\ cuts tr = 1%nat.
Proof.
  intros H. apply do_run_stages in H.
  destruct H as (did & s1 & s2 & s3 & Hloop & Hcut & Hend & Hidle).
  apply run_loop_trace in Hloop.
  destruct Hloop as (_ & tr & L1 & Np & _ & Hn).
  apply (optional_to_idle hw self) in Hend.
  destruct Hend as (t3 & L3 & Qc3 & Qp3).
  apply to_idle_done in Hidle. destruct Hidle as (P & t4 & L4 & Qc4 & Qp4).
  split; [exact P|].
  destruct (Hn eq_refl) as [(-> & C1 & _) | (-> & k & b & a & Et & Cb & Ca & _)].
  - simpl in Hcut. destruct Hcut as (s1' & Hmove & L2 & _).
    apply (optional_to_idle hw self) in Hmove.
    destruct Hmove as (t2 & L2' & Qc2 & Qp2).
    exists (tr ++ t2 ++ Cut :: t3 ++ t4).
    split; [rewrite L4, L3, L2, L2', L1; rewrite <- !app_assoc; reflexivity|].
    rewrite !punches_app, !cuts_app.
    change (punches (Cut :: t3 ++ t4)) with (punches (t3 ++ t4)).
    change (cuts (Cut :: t3 ++ t4)) with (S (cuts (t3 ++ t4))).
    rewrite punches_app, cuts_app. lia.
  - simpl in Hcut. subst s2.
    exists (tr ++ t3 ++ t4).
    split; [rewrite L4, L3, L1; rewrite <- !app_assoc; reflexivity|].
    rewrite !punches_app, !cuts_app.
    assert (Ct : cuts tr = 1%nat).
    { rewrite Et, cuts_app.
      change (cuts (Punch :: Cut :: a)) with (S (cuts a)). lia. }
    lia.
Qed.

Lemma poll_never_ends (m : PiGPIOStepperMotor) :
  (forall history, zero_button_is_on hw history = false) ->
  forall fuel s, poll_zero_button hw fuel m s = Hang.
Proof.
  intros Hoff. induction fuel as [|fuel IH]; intros s;
    cbn [poll_zero_button]; unfold mbind; cbn [get_log emit];
    rewrite Hoff; [reflexivity|].
  cbn [position prepared_wave_length log]. apply IH.
Qed.

(** X2: a zero button that never reports "on" keeps [move_until]
    stepping for ever: [reset], and so [run], does not complete,
    whatever the number of polls allowed. *)
Theorem reset_hangs_without_button_press (fuel : nat)
    (notesequence : list (DelayNotes note)) (s : state) :
  zero_button self = true ->
  (forall history, zero_button_is_on hw history = false) ->
  reset hw self fuel s = Hang /\
  run note get_index hw self fuel notesequence s = Hang.
Proof.
  intros Hb Hoff.
  assert (H : reset hw self fuel s = Hang).
  { unfold reset. rewrite Hb. unfold move_until, mbind at 1 2. cbn [emit].
    now rewrite poll_never_ends. }
  split; [exact H|]. unfold run, mbind at 1. now rewrite H.
Qed.

(** X3: a run that completes has homed, built its plan from the idle
    position, punched once per move of that plan, fired the cutter
    exactly once, and left the head at the idle position. *)
Theorem completed_run_summary (fuel : nat)
    (notesequence : list (DelayNotes note)) (s s' : state) :
  run note get_index hw self fuel notesequence s = Done tt s' ->
  exists steps tr,
    build_steps note get_index self notesequence (idle_position self) [] = Ok steps /\
    log s' = log s ++ tr /\
    punches tr = length steps /\
    cuts tr = 1%nat /\
    position s' = idle_position self.
Proof.
  unfold run. intros H.
  apply mbind_done in H. destruct H as (? & s1 & H1 & H). destruct x.
  apply mbind_done in H. destruct H as (p & s2 & H2 & H).
  inversion H2; subst; clear H2.
  apply mbind_done in H. destruct H as (steps & s3 & H3 & H).
  apply reset_done in H1. destruct H1 as (P1 & t1 & L1 & Qc1 & Qp1).
  unfold lift in H3.
  destruct (build_steps note get_index self notesequence (position s2) [])
    as [steps'|e] eqn:Eb; [|discriminate].
  inversion H3; subst; clear H3.
  apply do_run_counts in H. destruct H as (P2 & t2 & L2 & Hp & Hc).
  exists steps, (t1 ++ t2).
  split; [now rewrite <- P1|].
  split; [rewrite L2, L1; now rewrite <- app_assoc|].
  rewrite punches_app, cuts_app. repeat split; [lia | lia | exact P2].
Qed.

(** X4: the empty plan.  With the head at idle and nothing to feed
    (no cutter offset, no end feed), [do_run] only fires the cutter. *)
Theorem empty_plan_only_cuts (s : state) :
  position s = idle_position self ->
  cutter_position self <= 0 ->
  end_feed self <= 0 ->
  do_run hw self [] s
  = Done tt (mk_state (position s) (prepared_wave_length s) (log s ++ [Cut])).
Proof.
  intros Hp Hc He. unfold do_run, mbind, to_idle, move. cbn [run_loop mret negb].
  destruct (0 <? cutter_position self) eqn:E1; [apply Z.ltb_lt in E1; lia|].
  destruct (0 <? end_feed self) eqn:E2; [apply Z.ltb_lt in E2; lia|].
  cbn [mret cut emit get_position position].
  unfold mbind. cbn [get_position position].
  rewrite Hp, Z.sub_diag. reflexivity.
Qed.

(** X5: a refused wave aborts the run at once.  When the first move is
    prepared and the daemon then answers [wave_create] with a negative
    id, [do_run] fails with the "pigpio error on wave_create" error;
    nothing was punched or cut and the position is what it was. *)
Theorem refused_wave_aborts_run (step : MoveStep) (rest : list MoveStep)
    (s s1 : state) :
  prepare_waveform self (fst step) (snd step) s = Done tt s1 ->
  wave_create hw (log s1) < 0 ->
  exists s2 tr,
    do_run hw self (step :: rest) s
    = Failed (RuntimeError (WaveCreateFailed (wave_create hw (log s1)))) s2 /\
    position s2 = position s /\
    log s2 = log s ++ tr /\ cuts tr = 0%nat /\ punches tr = 0%nat.
Proof.
  intros Hprep Hid.
  destruct (quiet_prepare_waveform self _ _ _ _ _ Hprep) as (P1 & t1 & L1 & Qc1 & Qp1).
  exists (mk_state (position s1) (prepared_wave_length s1)
            (log s1 ++ [WaveCreate (wave_create hw (log s1))])),
         (t1 ++ [WaveCreate (wave_create hw (log s1))]).
  split; [|split; [exact P1|split; [simpl; rewrite L1; now rewrite app_assoc|]]].
  - unfold do_run. unfold mbind at 1 2 3. cbn [run_loop].
    unfold mbind at 1 2 3 4 5 6 7. cbn [Nat.eqb]. rewrite Hprep.
    unfold create_and_send_wave, mbind. cbn [get_log emit log].
    apply Z.ltb_lt in Hid. cbn [position prepared_wave_length log].
    rewrite Hid. reflexivity.
  - rewrite cuts_app, punches_app. unfold cuts, punches in *. simpl. lia.
Qed.

End HomingProofs.

Lemma reset_reaches_idle_witness :
  exists s',
    reset good_hardware homing_puncher 0 initial_state = Done tt s' /\
    position s' = idle_position homing_puncher /\
    (exists tr, log s' = log initial_state ++ tr /\
                cuts tr = 0%nat /\ punches tr = 0%nat) /\
    (zero_button homing_puncher = false -> log s' = log initial_state).
Proof.
  eexists. split; [vm_compute; reflexivity|].
  apply (reset_reaches_idle good_hardware homing_puncher 0 initial_state).
  vm_compute. reflexivity.
Defined.

Lemma reset_hangs_without_button_press_witness :
  zero_button homing_puncher = true /\
  (forall history, zero_button_is_on stuck_button history = false) /\
  reset stuck_button homing_puncher 50 initial_state = Hang /\
  run Z (fun n => n) stuck_button homing_puncher 50 example_events initial_state
  = Hang.
Proof.
  split; [reflexivity|]. split; [reflexivity|].
  apply (reset_hangs_without_button_press Z (fun n => n) stuck_button
           homing_puncher 50 example_events initial_state);
    [reflexivity | reflexivity].
Defined.

Lemma completed_run_summary_witness :
  exists s',
    run Z (fun n => n) good_hardware homing_puncher 0 example_events initial_state
    = Done tt s' /\
    exists steps tr,
      build_steps Z (fun n => n) homing_puncher example_events
        (idle_position homing_puncher) [] = Ok steps /\
      log s' = log initial_state ++ tr /\
      punches tr = length steps /\
      cuts tr = 1%nat /\
      position s' = idle_position homing_puncher.
Proof.
  eexists. split; [vm_compute; reflexivity|].
  apply (completed_run_summary Z (fun n => n) good_hardware homing_puncher 0
           example_events initial_state).
  vm_compute. reflexivity.
Defined.

Lemma empty_plan_only_cuts_witness :
  position initial_state = idle_position flush_puncher /\
  cutter_position flush_puncher <= 0 /\
  end_feed flush_puncher <= 0 /\
  do_run good_hardware flush_puncher [] initial_state
  = Done tt (mk_state 0 0 [Cut]).
Proof.
  split; [reflexivity|]. split; [discriminate|]. split; [discriminate|].
  apply (empty_plan_only_cuts good_hardware flush_puncher initial_state);
    [reflexivity | discriminate | discriminate].
Defined.

Lemma refused_wave_aborts_run_witness :
  exists s1,
    (prepare_waveform example_puncher 5 10 initial_state = Done tt s1 /\
     wave_create refusing_daemon (log s1) < 0) /\
    exists s2 tr,
      do_run refusing_daemon example_puncher example_plan initial_state
      = Failed (RuntimeError (WaveCreateFailed (-67))) s2 /\
      position s2 = position initial_state /\
      log s2 = log initial_state ++ tr /\ cuts tr = 0%nat /\ punches tr = 0%nat.
Proof.
  eexists. split; [split; [vm_compute; reflexivity | reflexivity]|].
  eapply (refused_wave_aborts_run refusing_daemon example_puncher
            (5, 10) [(0, 4); (2, -4); (0, 1)] initial_state);
    [vm_compute; reflexivity | reflexivity].
Defined.

(** ** Punches wait for the wave *)

Lemma waits_before_punch_quiet (t rest : list event) :
  punches t = 0%nat ->
  (forall b, waits_before_punch b rest = true) ->
  forall b, waits_before_punch b (t ++ rest) = true.
Proof.
  induction t as [|ev t IH]; intros Hp Hrest b; [apply Hrest|].
  assert (Hp' : is_punch ev = false /\ punches t = 0%nat).
  { unfold punches in *. simpl in Hp. destruct (is_punch ev); [discriminate|].
    now split. }
  destruct Hp' as [Hev Ht].
  destruct ev; try discriminate; simpl; now apply IH.
Qed.

Lemma waits_before_punch_app (t rest : list event) :
  forall b,
    waits_before_punch b t = true ->
    (forall b', waits_before_punch b' rest = true) ->
    waits_before_punch b (t ++ rest) = true.
Proof.
  induction t as [|ev t IH]; intros b Ht Hrest; [apply Hrest|].
  destruct ev; simpl in Ht |- *; try (now apply IH).
  apply andb_prop in Ht. destruct Ht as [-> Ht]. simpl. now apply IH.
Qed.

Lemma waits_before_punch_sound (b : list event) :
  forall f a,
    waits_before_punch f (b ++ Punch :: a) = true ->
    (b = [] /\ f = true) \/ exists b', b = b' ++ [WaitForWave].
Proof.
  induction b as [|ev b IH]; intros f a H.
  - simpl in H. apply andb_prop in H. left. now split.
  - right.
    assert (Hev : exists f', waits_before_punch f' (b ++ Punch :: a) = true /\
                             (f' = true -> ev = WaitForWave)).
    { destruct ev; simpl in H;
        try (exists false; split; [exact H | discriminate]).
      - exists true. now split.
      - apply andb_prop in H. exists false. split; [apply H | discriminate]. }
    destruct Hev as (f' & H' & Hf').
    destruct (IH f' a H') as [[-> Hf] | [b' ->]].
    + exists []. simpl. now rewrite (Hf' Hf).
    + exists (ev :: b'). reflexivity.
Qed.

Section PunchProofs.

Variable hw : hardware.
Variable self : MusicPuncher.

Lemma run_loop_cons_wait (idx : nat) (step : MoveStep) (rest : list MoveStep)
    (cutter_step total : Z) (did_cut did_cut' : bool) (s s' : state) :
  run_loop hw self idx (step :: rest) cutter_step total did_cut s = Done did_cut' s' ->
  exists s1 tr (fired : bool),
    log s1 = log s ++ tr ++ WaitForWave :: Punch :: (if fired then [Cut] else []) /\
    punches tr = 0%nat /\
    run_loop hw self (S idx) rest cutter_step (total + fst step)
      (fired || did_cut) s1
    = Done did_cut' s'.
Proof.
  intros H. cbn [run_loop] in H.
  apply mbind_done in H. destruct H as (? & s1 & H1 & H).
  apply mbind_done in H. destruct H as (? & s2 & H2 & H).
  apply mbind_done in H. destruct H as (? & s3 & H3 & H).
  apply mbind_done in H. destruct H as (? & s4 & H4 & H).
  apply mbind_done in H. destruct H as (p & s5 & H5 & H).
  apply mbind_done in H. destruct H as (? & s6 & H6 & H).
  apply mbind_done in H. destruct H as (? & s7 & H7 & H).
  assert (Q1 : position s1 = position s /\ exists tr, log s1 = log s ++ tr /\ quiet tr).
  { destruct (Nat.eqb idx 0);
      [now apply (quiet_prepare_waveform _ _ _ _ _ _ H1)
      | now apply (quiet_step_ret _ _ _ _ H1)]. }
  destruct Q1 as (_ & t1 & L1 & _ & Q1).
  destruct (quiet_create_and_send_wave _ _ _ _ H2) as (_ & t2 & L2 & _ & Q2).
  assert (Q3 : position s3 = position s2 /\ exists tr, log s3 = log s2 ++ tr /\ quiet tr).
  { destruct rest;
      [now apply (quiet_step_ret _ _ _ _ H3)
      | now apply (quiet_prepare_waveform _ _ _ _ _ _ H3)]. }
  destruct Q3 as (_ & t3 & L3 & _ & Q3).
  inversion H4; subst; clear H4. inversion H5; subst; clear H5.
  inversion H6; subst; clear H6. inversion H7; subst; clear H7.
  simpl in H.
  destruct (negb did_cut && (cutter_step <=? total + fst step)) eqn:E.
  - apply mbind_done in H. destruct H as (? & s8 & H8 & H).
    inversion H8; subst; clear H8.
    eexists. exists (t1 ++ t2 ++ t3), true.
    split; [|split; [rewrite !punches_app; lia | exact H]].
    simpl. rewrite L3, L2, L1. rewrite <- !app_assoc. reflexivity.
  - eexists. exists (t1 ++ t2 ++ t3), false.
    split; [|split; [rewrite !punches_app; lia | exact H]].
    simpl. rewrite L3, L2, L1. rewrite <- !app_assoc. reflexivity.
Qed.

Lemma run_loop_waits (steps : list MoveStep) :
  forall idx cutter_step total did_cut did_cut' s s',
    run_loop hw self idx steps cutter_step total did_cut s = Done did_cut' s' ->
    exists tr, log s' = log s ++ tr /\ forall b, waits_before_punch b tr = true.
Proof.
  induction steps as [|step rest IH];
    intros idx cutter_step total did_cut did_cut' s s' H.
  - inversion H; subst; clear H. exists []. now rewrite app_nil_r.
  - apply run_loop_cons_wait in H.
    destruct H as (s1 & tr0 & fired & L1 & Hp & H).
    apply IH in H. destruct H as (tr2 & L2 & Hw).
    exists (tr0 ++ WaitForWave :: Punch :: (if fired then [Cut] else []) ++ tr2).
    split.
    + rewrite L2, L1. rewrite <- !app_assoc. reflexivity.
    + apply waits_before_punch_quiet; [exact Hp|].
      intros b. destruct fired; simpl; apply Hw.
Qed.

(** X6: the puncher never fires while a wave may still be running: in
    a completed [do_run], every [Punch] comes directly after the
    [WaitForWave] of its move. *)
Theorem punch_follows_wait (steps : list MoveStep) (s s' : state) :
  do_run hw self steps s = Done tt s' ->
  forall before after,
    log s' = log s ++ before ++ Punch :: after ->
    exists before', before = before' ++ [WaitForWave].
Proof.
  intros H before after Hlog.
  apply do_run_stages in H.
  destruct H as (did & s1 & s2 & s3 & Hloop & Hcut & Hend & Hidle).
  apply run_loop_waits in Hloop. destruct Hloop as (tr & L1 & Hw).
  apply (optional_to_idle hw self) in Hend. destruct Hend as (t3 & L3 & _ & Qp3).
  apply to_idle_done in Hidle. destruct Hidle as (_ & t4 & L4 & _ & Qp4).
  assert (Hfin : exists t2, log s2 = log s1 ++ t2 /\
                            forall b, waits_before_punch b t2 = true).
  { destruct (negb did).
    - destruct Hcut as (s1' & Hmove & L2 & _).
      apply (optional_to_idle hw self) in Hmove.
      destruct Hmove as (t2 & L2' & _ & Qp2).
      exists (t2 ++ [Cut]). split; [rewrite L2, L2'; now rewrite app_assoc|].
      now apply waits_before_punch_quiet.
    - subst s2. exists []. now rewrite app_nil_r. }
  destruct Hfin as (t2 & L2 & Hw2).
  assert (Hall : waits_before_punch false (tr ++ t2 ++ t3 ++ t4) = true).
  { apply waits_before_punch_app; [apply Hw|]. intros b.
    apply waits_before_punch_app; [apply Hw2|].
    apply waits_before_punch_quiet; [exact Qp3|].
    intros b'. rewrite <- (app_nil_r t4).
    now apply waits_before_punch_quiet. }
  rewrite L4, L3, L2, L1 in Hlog. rewrite <- !app_assoc in Hlog.
  apply app_inv_head in Hlog. rewrite Hlog in Hall.
  destruct (waits_before_punch_sound before false after Hall) as [[_ F] | Hb];
    [discriminate | exact Hb].
Qed.

End PunchProofs.

Lemma punch_follows_wait_witness :
  exists s',
    (do_run good_hardware flush_puncher example_plan initial_state = Done tt s' /\
     log s' = log initial_state ++ firstn 12 (log s') ++ Punch :: skipn 13 (log s')) /\
    exists before', firstn 12 (log s') = before' ++ [WaitForWave].
Proof.
  eexists. split; [split; vm_compute; reflexivity|].
  eapply (punch_follows_wait good_hardware flush_puncher example_plan
            initial_state); vm_compute; reflexivity.
Defined.

(** ** Totals of a plan *)

Lemma total_feed_app (a b : list MoveStep) :
  total_feed (a ++ b) = total_feed a + total_feed b.
Proof.
  induction a as [|x a IH]; [reflexivity|].
  change ((x :: a) ++ b) with (x :: (a ++ b)). rewrite !total_feed_cons, IH. lia.
Qed.

Lemma total_tone_app (a b : list MoveStep) :
  total_tone (a ++ b) = total_tone a + total_tone b.
Proof. induction a as [|x a IH]; simpl; [reflexivity | rewrite IH; lia]. Qed.

Lemma is_zero_step_true (mv : MoveStep) :
  is_zero_step mv = true -> fst mv = 0 /\ snd mv = 0.
Proof.
  unfold is_zero_step. intros H. apply andb_prop in H.
  destruct H as [H1 H2]. apply Z.eqb_eq in H1, H2. now split.
Qed.

Lemma totals_filter_nonzero (l : list MoveStep) :
  total_feed (filter (fun mv => negb (is_zero_step mv)) l) = total_feed l /\
  total_tone (filter (fun mv => negb (is_zero_step mv)) l) = total_tone l.
Proof.
  induction l as [|mv l [IHf IHt]]; [split; reflexivity|].
  cbn [filter]. destruct (is_zero_step mv) eqn:E; cbn [negb].
  - apply is_zero_step_true in E. destruct E as [Ef Et].
    rewrite total_feed_cons. simpl total_tone. lia.
  - rewrite !total_feed_cons. simpl total_tone. lia.
Qed.

Lemma total_feed_zeros (n : nat) (l : list Z) :
  total_feed (combine (repeat 0 n) l) = 0.
Proof.
  revert l. induction n as [|n IH]; intros l; [reflexivity|].
  destruct l as [|x l]; [reflexivity|].
  cbn [repeat combine]. rewrite total_feed_cons, IH. reflexivity.
Qed.

Lemma total_tone_deltas (order : list Z) :
  forall p fs, length fs = length order ->
    p + total_tone (combine fs (deltas p order)) = last order p.
Proof.
  induction order as [|t order IH]; intros p fs Hlen.
  - destruct fs; [simpl; lia | discriminate].
  - destruct fs as [|f fs]; [discriminate|].
    cbn [deltas combine]. simpl total_tone. rewrite last_cons_default.
    specialize (IH t fs ltac:(simpl in Hlen; lia)). lia.
Qed.

(** The moves of one chord carry the event's delay and bring the head
    to the last target of the visiting order. *)
Lemma chord_moves_totals (d p : Z) (order : list Z) :
  order <> [] ->
  total_feed (chord_moves d p order) = d /\
  p + total_tone (chord_moves d p order) = last order p.
Proof.
  intros Hne. unfold chord_moves.
  rewrite (filter_ext nonzero_step (fun mv => negb (is_zero_step mv)) nonzero_step_spec).
  destruct (totals_filter_nonzero
              (combine (d :: repeat 0 (length order - 1)) (deltas p order)))
    as [-> ->].
  split.
  - destruct order as [|t order]; [congruence|].
    cbn [deltas combine]. rewrite total_feed_cons, total_feed_zeros. simpl. lia.
  - apply total_tone_deltas. destruct order; [congruence|].
    simpl. rewrite repeat_length. lia.
Qed.

Section TotalsProofs.

Variable note : Type.
Variable get_index : note -> Z.
Variable self : MusicPuncher.

Lemma build_steps_totals (events : list (DelayNotes note)) (ds : list Z) :
  Forall2 (fun dn d => dn_notes dn <> [] /\ scaled_delay note self dn = Ok d)
    events ds ->
  forall p steps,
    exists new,
      build_steps note get_index self events p steps = Ok (steps ++ new) /\
      total_feed new = fold_right Z.add 0 ds /\
      (events = [] -> new = []) /\
      (forall before dn, events = before ++ [dn] ->
         In (p + total_tone new) (target_positions note get_index self dn)).
Proof.
  induction 1 as [|dn d events ds [Hne Hd] Hrest IH]; intros p steps.
  - exists []. rewrite app_nil_r. split; [reflexivity|]. split; [reflexivity|].
    split; [reflexivity|]. intros [|? ?] dn H; discriminate.
  - rewrite (build_steps_cons note get_index self dn events p d steps Hne Hd).
    set (targets := target_positions note get_index self dn).
    set (order := if Z.abs (p - last targets 0) <? Z.abs (p - hd 0 targets)
                  then rev targets else targets).
    assert (Ht : targets <> []) by now apply target_positions_nonempty.
    assert (Ho : order <> []).
    { subst order. destruct (_ <? _); [|exact Ht].
      intros E. apply (f_equal (@rev Z)) in E. rewrite rev_involutive in E.
      now apply Ht. }
    assert (Hin : In (last order p) targets).
    { destruct (exists_last Ho) as (o' & x & Eo). rewrite Eo, last_last.
      assert (Hx : In x order) by (rewrite Eo; apply in_or_app; right; now left).
      subst order. destruct (_ <? _); [now apply in_rev in Hx | exact Hx]. }
    destruct (chord_moves_totals d p order Ho) as [Hf Hto].
    destruct (IH (last order p) (steps ++ chord_moves d p order))
      as (new & Hb & Hsum & Hnil & Hlast).
    exists (chord_moves d p order ++ new).
    split; [rewrite Hb; now rewrite <- app_assoc|].
    split; [rewrite total_feed_app, Hf, Hsum; reflexivity|].
    split; [discriminate|].
    intros before dn' E. rewrite total_tone_app.
    destruct before as [|b before].
    + simpl in E. injection E as <- E.
      rewrite (Hnil E). simpl. fold targets.
      replace (p + (total_tone (chord_moves d p order) + 0))
        with (last order p) by lia.
      exact Hin.
    + simpl in E. injection E as _ E.
      specialize (Hlast before dn' E).
      replace (p + (total_tone (chord_moves d p order) + total_tone new))
        with (last order p + total_tone new) by lia.
      exact Hlast.
Qed.

(** X7: nothing is lost in building the plan.  The feed delays of the
    plan sum to the scaled delays of the events, and its tone
    displacements bring the head from the starting position to a target
    of the last event. *)
Theorem plan_totals (events : list (DelayNotes note)) (ds : list Z) (position : Z) :
  Forall2 (fun dn d => dn_notes dn <> [] /\ scaled_delay note self dn = Ok d)
    events ds ->
  exists steps,
    build_steps note get_index self events position [] = Ok steps /\
    total_feed steps = fold_right Z.add 0 ds /\
    (events = [] -> steps = []) /\
    (forall before dn, events = before ++ [dn] ->
       In (position + total_tone steps) (target_positions note get_index self dn)).
Proof.
  intros H. exact (build_steps_totals events ds H position []).
Qed.

End TotalsProofs.

Lemma plan_totals_witness :
  Forall2 (fun dn d => dn_notes dn <> [] /\
                       scaled_delay Z example_puncher dn = Ok d)
    example_events [3; 0] /\
  exists steps,
    build_steps Z (fun n => n) example_puncher example_events 0 [] = Ok steps /\
    total_feed steps = fold_right Z.add 0 [3; 0] /\
    (example_events = [] -> steps = []) /\
    (forall before dn, example_events = before ++ [dn] ->
       In (0 + total_tone steps)
          (target_positions Z (fun n => n) example_puncher dn)).
Proof.
  assert (H : Forall2 (fun dn d => dn_notes dn <> [] /\
                                   scaled_delay Z example_puncher dn = Ok d)
                example_events [3; 0]).
  { repeat constructor; discriminate. }
  split; [exact H|].
  apply (plan_totals Z (fun n => n) example_puncher example_events [3; 0] 0 H).
Defined.

(** ** More on the planner and the profile *)

Lemma move_loop_length profile md n :
  forall i rem s out ds,
    move_loop (fun d : Z => [d]) profile md n i rem s out = Ok ds ->
    length ds = (length out + n)%nat.
Proof.
  induction n as [|n IH]; intros i rem s out ds H.
  - injection H as <-. lia.
  - rewrite move_loop_S in H.
    destruct (rem - 1 <=? s).
    + destruct (Py.index profile (rem - 1)) as [d|e]; [|discriminate].
      cbn [bind] in H. apply IH in H. rewrite length_app in H. simpl in H. lia.
    + destruct (i <? Z.of_nat (length profile)).
      * destruct (Py.index profile i) as [d|e]; [|discriminate].
        cbn [bind] in H. apply IH in H. rewrite length_app in H. simpl in H. lia.
      * apply IH in H. rewrite length_app in H. simpl in H. lia.
Qed.

Lemma flat_map_step_pulses_length (pin : N) (ds : list Z) :
  length (flat_map (step_pulses pin) ds) = (2 * length ds)%nat.
Proof. induction ds as [|d ds IH]; simpl in *; lia. Qed.

(** X8: whatever the profile, a waveform that [create_move_waveform]
    returns has two pulses per step, first the step pin high and then
    low with the same duration; a move of no step is the empty train. *)
Theorem waveform_has_two_pulses_per_step (m : PiGPIOStepperMotor) (steps : Z)
    (pulses : list pulse) :
  create_move_waveform m steps = Ok pulses ->
  length pulses = (2 * Z.to_nat (Z.abs steps))%nat /\
  (steps = 0 -> pulses = []) /\
  exists delays,
    length delays = Z.to_nat (Z.abs steps) /\
    pulses = flat_map (fun d => [ mk_pulse (Z.shiftl 1 (Z.of_N (step_pin m))) 0 (Z.shiftr d 1);
                                  mk_pulse 0 (Z.shiftl 1 (Z.of_N (step_pin m))) (Z.shiftr d 1) ])
               delays.
Proof.
  intros H. rewrite waveform_of_delays in H.
  destruct (move_delays m steps) as [ds|e] eqn:Ed; [|discriminate].
  injection H as <-.
  assert (Hlen : length ds = Z.to_nat (Z.abs steps)).
  { unfold move_delays, move_plan in Ed.
    destruct (min_delay_us m) as [md|e]; [|discriminate].
    cbn [bind] in Ed. apply move_loop_length in Ed. simpl in Ed. exact Ed. }
  split; [rewrite flat_map_step_pulses_length, Hlen; reflexivity|].
  split.
  - intros ->. destruct ds; [reflexivity | discriminate].
  - exists ds. split; [exact Hlen | reflexivity].
Qed.

Lemma waveform_has_two_pulses_per_step_witness :
  create_move_waveform example_stepper (-3)
  = Ok (flat_map (step_pulses 18) [1000; 999; 1000]) /\
  length (flat_map (step_pulses 18) [1000; 999; 1000])
  = (2 * Z.to_nat (Z.abs (-3)))%nat /\
  (-3 = 0 -> flat_map (step_pulses 18) [1000; 999; 1000] = []) /\
  exists delays,
    length delays = Z.to_nat (Z.abs (-3)) /\
    flat_map (step_pulses 18) [1000; 999; 1000]
    = flat_map (fun d => [ mk_pulse (Z.shiftl 1 18) 0 (Z.shiftr d 1);
                           mk_pulse 0 (Z.shiftl 1 18) (Z.shiftr d 1) ])
        delays.
Proof.
  split; [reflexivity|].
  apply (waveform_has_two_pulses_per_step example_stepper (-3)). reflexivity.
Defined.

Lemma profile_loop_prefix (fuel : nat) :
  forall sps max_sps acceleration profile result,
    profile_loop fuel sps max_sps acceleration profile = Returns (Ok result) ->
    exists rest, result = profile ++ rest.
Proof.
  induction fuel as [|fuel IH]; intros sps max_sps acceleration profile result H;
    simpl in H; destruct (Py.lt sps max_sps).
  - discriminate.
  - injection H as <-. exists []. now rewrite app_nil_r.
  - destruct (profile_step sps acceleration) as [[d sps']|e]; [|discriminate].
    apply IH in H. destruct H as (rest & ->).
    exists (d :: rest). now rewrite <- app_assoc.
  - injection H as <-. exists []. now rewrite app_nil_r.
Qed.

(** X9: a profile that [calculate_acceleration_profile] returns is
    empty exactly when [min_sps < max_sps] is false; otherwise it starts
    with [round(1000000 / min_sps)], the delay of the slowest speed. *)
Theorem profile_starts_at_min_speed (fuel : nat)
    (min_sps max_sps acceleration : Py.number) (profile : list Z) :
  calculate_acceleration_profile fuel min_sps max_sps acceleration
  = Returns (Ok profile) ->
  (profile = [] <-> Py.lt min_sps max_sps = false) /\
  (Py.lt min_sps max_sps = true ->
   exists q d rest,
     Py.truediv 1000000 min_sps = Ok q /\ Py.round q = Ok d /\
     profile = d :: rest).
Proof.
  unfold calculate_acceleration_profile. intros H.
  destruct (Py.lt min_sps max_sps) eqn:E.
  - assert (Hfirst : exists q d rest,
              Py.truediv 1000000 min_sps = Ok q /\ Py.round q = Ok d /\
              profile = d :: rest).
    { destruct fuel as [|fuel]; simpl in H; rewrite E in H; [discriminate|].
      unfold profile_step in H.
      destruct (Py.truediv 1000000 min_sps) as [q|e] eqn:Eq; [|discriminate].
      cbn [bind] in H. destruct (Py.round q) as [d|e] eqn:Er; [|discriminate].
      cbn [bind] in H.
      destruct (Py.truediv 1 min_sps) as [inv|e]; [|discriminate].
      cbn [bind] in H.
      destruct (Py.mul acceleration inv) as [inc|e]; [|discriminate].
      cbn [bind] in H.
      destruct (Py.add min_sps inc) as [sps'|e]; [|discriminate].
      cbn [bind] in H. apply profile_loop_prefix in H.
      destruct H as (rest & ->). exists q, d, rest.
      split; [reflexivity|]. split; [exact Er | reflexivity]. }
    split; [|intros _; exact Hfirst].
    destruct Hfirst as (q & d & rest & _ & _ & ->).
    split; discriminate.
  - rewrite (profile_loop_guard_false _ _ _ _ _ E) in H. injection H as <-.
    split; [split; reflexivity | discriminate].
Qed.

Lemma profile_starts_at_min_speed_witness :
  calculate_acceleration_profile 10 1000 1003 1000
  = Returns (Ok [1000; 999; 998; 997]) /\
  ([1000; 999; 998; 997] = [] <-> Py.lt 1000 1003 = false) /\
  (Py.lt 1000 1003 = true ->
   exists q d rest,
     Py.truediv 1000000 1000 = Ok q /\ Py.round q = Ok d /\
     [1000; 999; 998; 997] = d :: rest).
Proof.
  split; [vm_compute; reflexivity|].
  apply (profile_starts_at_min_speed 10 1000 1003 1000). vm_compute. reflexivity.
Defined.

(** ** More on the synchronizer *)

Lemma scaled_by_shape (factor : Py.number) (pulses pulses' : list pulse) :
  scaled_by factor pulses pulses' ->
  length pulses' = length pulses /\
  map gpio_on pulses' = map gpio_on pulses /\
  map gpio_off pulses' = map gpio_off pulses.
Proof.
  induction 1 as [|p p' l l' (Hon & Hoff & _) _ (IHl & IHon & IHoff)].
  - repeat split.
  - simpl. rewrite IHl, IHon, IHoff, Hon, Hoff. repeat split.
Qed.

(** X10: synchronization only retimes.  Both trains keep their number
    of pulses and their GPIO masks, and at most one of them is changed
    at all. *)
Theorem synchronize_only_retimes (wave1 wave2 wave1' wave2' : list pulse) (l : Z) :
  synchronize wave1 wave2 = Ok (wave1', wave2', l) ->
  (length wave1' = length wave1 /\
   map gpio_on wave1' = map gpio_on wave1 /\
   map gpio_off wave1' = map gpio_off wave1) /\
  (length wave2' = length wave2 /\
   map gpio_on wave2' = map gpio_on wave2 /\
   map gpio_off wave2' = map gpio_off wave2) /\
  (wave1' = wave1 \/ wave2' = wave2).
Proof.
  unfold synchronize. intros H.
  destruct wave1 as [|p1 w1].
  { injection H as <- <- _. repeat split. now left. }
  destruct wave2 as [|p2 w2].
  { injection H as <- <- _. repeat split. now left. }
  destruct (_ <? _).
  - destruct (Py.truediv _ _) as [factor|e]; [|discriminate]. cbn [bind] in H.
    destruct (scale (p2 :: w2) factor) as [w|e] eqn:Es; [|discriminate].
    cbn [bind] in H. injection H as <- <- _.
    apply scale_scaled_by, scaled_by_shape in Es.
    split; [repeat split|]. split; [exact Es | now left].
  - destruct (Py.truediv _ _) as [factor|e]; [|discriminate]. cbn [bind] in H.
    destruct (scale (p1 :: w1) factor) as [w|e] eqn:Es; [|discriminate].
    cbn [bind] in H. injection H as <- <- _.
    apply scale_scaled_by, scaled_by_shape in Es.
    split; [exact Es|]. split; [repeat split | now right].
Qed.

Lemma synchronize_only_retimes_witness :
  synchronize example_feed_wave example_tone_wave
  = Ok (example_feed_wave_scaled, example_tone_wave, 4994) /\
  (length example_feed_wave_scaled = length example_feed_wave /\
   map gpio_on example_feed_wave_scaled = map gpio_on example_feed_wave /\
   map gpio_off example_feed_wave_scaled = map gpio_off example_feed_wave) /\
  (length example_tone_wave = length example_tone_wave /\
   map gpio_on example_tone_wave = map gpio_on example_tone_wave /\
   map gpio_off example_tone_wave = map gpio_off example_tone_wave) /\
  (example_feed_wave_scaled = example_feed_wave \/
   example_tone_wave = example_tone_wave).
Proof.
  split; [vm_compute; reflexivity|].
  apply (synchronize_only_retimes example_feed_wave example_tone_wave
           example_feed_wave_scaled example_tone_wave 4994).
  vm_compute. reflexivity.
Defined.

Lemma synchronize_length (wave1 wave2 wave1' wave2' : list pulse) (l : Z) :
  synchronize wave1 wave2 = Ok (wave1', wave2', l) ->
  l = match wave1, wave2 with
      | [], _ => wavelength wave2
      | _, [] => wavelength wave1
      | _, _ => Z.max (wavelength wave1) (wavelength wave2)
      end.
Proof.
  unfold synchronize. intros H.
  destruct wave1 as [|p1 w1]; [now injection H as _ _ <-|].
  destruct wave2 as [|p2 w2]; [now injection H as _ _ <-|].
  destruct (_ <? _) eqn:E.
  - apply Z.ltb_lt in E.
    destruct (Py.truediv _ _) as [factor|e]; [|discriminate]. cbn [bind] in H.
    destruct (scale _ factor) as [w|e]; [|discriminate].
    cbn [bind] in H. injection H as _ _ <-. lia.
  - apply Z.ltb_ge in E.
    destruct (Py.truediv _ _) as [factor|e]; [|discriminate]. cbn [bind] in H.
    destruct (scale _ factor) as [w|e]; [|discriminate].
    cbn [bind] in H. injection H as _ _ <-. lia.
Qed.

(** X11: the length [__synchronize] returns does not depend on the
    order of its arguments, and with an empty train it is the length of
    the other one, both trains being left as they are. *)
Theorem synchronize_length_symmetric (wave1 wave2 : list pulse) :
  (forall a b l a' b' l',
     synchronize wave1 wave2 = Ok (a, b, l) ->
     synchronize wave2 wave1 = Ok (a', b', l') ->
     l = l') /\
  (wave1 = [] \/ wave2 = [] ->
   synchronize wave1 wave2
   = Ok (wave1, wave2, wavelength wave1 + wavelength wave2)).
Proof.
  split.
  - intros a b l a' b' l' H1 H2.
    apply synchronize_length in H1, H2. subst l l'.
    destruct wave1 as [|p1 w1], wave2 as [|p2 w2]; try reflexivity. lia.
  - intros [-> | ->]; unfold synchronize.
    + reflexivity.
    + destruct wave1; [reflexivity|]. now rewrite Z.add_0_r.
Qed.

Lemma synchronize_length_symmetric_witness :
  (synchronize example_feed_wave example_tone_wave
   = Ok (example_feed_wave_scaled, example_tone_wave, 4994) /\
   synchronize example_tone_wave example_feed_wave
   = Ok (example_tone_wave, example_feed_wave_scaled, 4994)) /\
  4994 = 4994 /\
  ([] = @nil pulse \/ example_tone_wave = [] ->
   synchronize [] example_tone_wave
   = Ok ([], example_tone_wave, wavelength [] + wavelength example_tone_wave)).
Proof.
  assert (H1 : synchronize example_feed_wave example_tone_wave
               = Ok (example_feed_wave_scaled, example_tone_wave, 4994))
    by (vm_compute; reflexivity).
  assert (H2 : synchronize example_tone_wave example_feed_wave
               = Ok (example_tone_wave, example_feed_wave_scaled, 4994))
    by (vm_compute; reflexivity).
  split; [now split|]. split.
  - exact (proj1 (synchronize_length_symmetric example_feed_wave example_tone_wave)
             _ _ _ _ _ _ H1 H2).
  - apply (proj2 (synchronize_length_symmetric [] example_tone_wave)).
Defined.

(** ** The hardware mock *)

Lemma totaltime_fold (waves : list (list pulse)) :
  forall acc,
    fold_left (fun total pulses =>
                 if total <? Mock.wavetime_us pulses
                 then Mock.wavetime_us pulses else total) waves acc
    = fold_right Z.max acc (map Mock.wavetime_us waves).
Proof.
  induction waves as [|w waves IH]; intros acc; simpl; [reflexivity|].
  rewrite IH.
  assert (Hmax : forall a b l, fold_right Z.max (Z.max a b) l
                               = Z.max a (fold_right Z.max b l)).
  { intros a b l. induction l as [|x l IHl]; simpl; [reflexivity | lia]. }
  destruct (acc <? Mock.wavetime_us w) eqn:E.
  - apply Z.ltb_lt in E.
    replace (Mock.wavetime_us w) with (Z.max (Mock.wavetime_us w) acc) at 1 by lia.
    apply Hmax.
  - apply Z.ltb_ge in E.
    replace acc with (Z.max (Mock.wavetime_us w) acc) at 1 by lia.
    apply Hmax.
Qed.

(** X12: the mock transmits for as long as its longest wave: the time
    [wave_send_once] computes is the duration of one of the waves added
    (or 0 when none is longer than that), and no wave is longer. *)
Theorem mock_sends_for_longest_wave (waves : list (list pulse)) :
  0 <= Mock.totaltime_us waves /\
  (forall pulses, In pulses waves ->
                  wavelength pulses <= Mock.totaltime_us waves) /\
  (Mock.totaltime_us waves = 0 \/
   exists pulses, In pulses waves /\ Mock.totaltime_us waves = wavelength pulses) /\
  Mock.totaltime_us (Mock.wave_clear waves) = 0.
Proof.
  unfold Mock.totaltime_us. rewrite totaltime_fold.
  change Mock.wavetime_us with wavelength.
  split; [|split; [|split; [|reflexivity]]].
  - induction waves as [|w waves IH]; simpl; lia.
  - intros pulses Hin. induction waves as [|w waves IH]; [contradiction|].
    simpl. destruct Hin as [-> | Hin]; [lia|]. specialize (IH Hin). lia.
  - induction waves as [|w waves IH]; [now left|].
    simpl. destruct (Z.max_spec (wavelength w) (fold_right Z.max 0 (map wavelength waves)))
      as [[Hlt ->] | [Hle ->]].
    + destruct IH as [IH | (p & Hin & IH)]; [now left|].
      right. exists p. split; [now right | exact IH].
    + right. exists w. split; [now left | reflexivity].
Qed.

(** ** The legacy adapter *)

Lemma fresh_delay_fresh (profile : list Z) : ~ In (fresh_delay profile) profile.
Proof.
  assert (H : forall x, In x profile -> x < fresh_delay profile).
  { unfold fresh_delay. induction profile as [|y l IH]; intros x Hin;
      [contradiction|].
    cbn [fold_right]. destruct Hin as [-> | Hin]; [lia|].
    specialize (IH x Hin). lia. }
  intros Hin. specialize (H _ Hin). lia.
Qed.

Lemma index_In {A} (l : list A) (i : Z) (a : A) : Py.index l i = Ok a -> In a l.
Proof.
  unfold Py.index. destruct (_ || _); [discriminate|].
  destruct (nth_error l _) eqn:E; [|discriminate].
  intros H. injection H as <-. now apply nth_error_In in E.
Qed.

Lemma move_loop_cons_result profile md n i rem s (d : Z) (ds : list Z) :
  move_loop (fun d : Z => [d]) profile md n i rem s [d] = Ok ds ->
  exists ds', ds = d :: ds' /\
              move_loop (fun d : Z => [d]) profile md n i rem s [] = Ok ds'.
Proof.
  rewrite move_loop_out.
  destruct (move_loop _ profile md n i rem s []) as [ds'|e]; [|discriminate].
  intros H. injection H as <-. now exists ds'.
Qed.

(** The legacy loop takes the same branches as the current one: it
    returns the same pulses unless the current one cruises. *)
Lemma add_loop_move_loop (profile : list Z) (pin : N) (md : Z) (n : nat) :
  ~ In md profile ->
  forall i rem s out ds,
    move_loop (fun d : Z => [d]) profile md n i rem s [] = Ok ds ->
    Adapter.add_loop profile pin n i rem s out
    = if existsb (Z.eqb md) ds then Adapter.ARaise Adapter.TypeError
      else Adapter.AOk (out ++ flat_map (step_pulses pin) ds).
Proof.
  intros Hmd. induction n as [|n IH]; intros i rem s out ds H.
  - injection H as <-. simpl. now rewrite app_nil_r.
  - rewrite move_loop_S in H. cbn [Adapter.add_loop].
    assert (Hne : forall d, In d profile -> (md =? d) = false).
    { intros d Hin. apply Z.eqb_neq. intros ->. now apply Hmd. }
    destruct (rem - 1 <=? s).
    + destruct (Py.index profile (rem - 1)) as [d|e] eqn:Ei; [|discriminate].
      cbn [bind] in H. simpl app in H.
      apply move_loop_cons_result in H. destruct H as (ds' & -> & H).
      cbn [Adapter.of_result Adapter.abind existsb].
      rewrite (Hne d (index_In _ _ _ Ei)), (IH _ _ _ _ _ H). cbn [orb].
      destruct (existsb _ ds'); [reflexivity|].
      cbn [flat_map]. now rewrite <- app_assoc.
    + destruct (i <? Z.of_nat (length profile)).
      * destruct (Py.index profile i) as [d|e] eqn:Ei; [|discriminate].
        cbn [bind] in H. simpl app in H.
        apply move_loop_cons_result in H. destruct H as (ds' & -> & H).
        cbn [Adapter.of_result Adapter.abind existsb].
        rewrite (Hne d (index_In _ _ _ Ei)), (IH _ _ _ _ _ H). cbn [orb].
        destruct (existsb _ ds'); [reflexivity|].
        cbn [flat_map]. now rewrite <- app_assoc.
      * simpl app in H.
        apply move_loop_cons_result in H. destruct H as (ds' & -> & H).
        cbn [existsb]. now rewrite Z.eqb_refl.
Qed.

Lemma existsb_fresh (profile ds : list Z) :
  Forall (fun d => In d profile) ds ->
  existsb (Z.eqb (fresh_delay profile)) ds = false.
Proof.
  induction 1 as [|d ds Hd _ IH]; [reflexivity|].
  simpl. rewrite IH, orb_false_r. apply Z.eqb_neq. intros E.
  apply (fresh_delay_fresh profile). now rewrite E.
Qed.

(** X13: the legacy adapter cannot cruise.  Its cruise delay is the
    float [min_delay], so every move of more than [2 * len(profile)]
    steps raises [TypeError] at [delay >> 1]. *)
Theorem legacy_cruise_raises_type_error (m : PiGPIOStepperMotor) (steps : Z) :
  acceleration_profile m <> [] ->
  2 * Z.of_nat (length (acceleration_profile m)) < Z.abs steps ->
  Adapter.add_move_waveform m steps = Adapter.ARaise Adapter.TypeError.
Proof.
  intros Hne Hlong. unfold Adapter.add_move_waveform.
  set (profile := acceleration_profile m) in *.
  set (count := Z.to_nat (Z.abs steps)).
  assert (HL : (1 <= length profile)%nat)
    by (destruct profile; [congruence | simpl; lia]).
  pose proof (plan_long profile (fresh_delay profile) count HL
                ltac:(subst count; lia)) as Hplan.
  assert (Ec : Z.abs steps = Z.of_nat count) by (subst count; lia).
  rewrite Ec.
  rewrite (add_loop_move_loop profile (step_pin m) (fresh_delay profile) count
             (fresh_delay_fresh profile) _ _ _ [] _ Hplan).
  replace (existsb _ _) with true; [reflexivity|].
  symmetry. apply existsb_exists. exists (fresh_delay profile).
  split; [|apply Z.eqb_refl].
  apply in_or_app. right. apply in_or_app. left.
  destruct (count - 2 * length profile)%nat eqn:E; [subst count; lia|].
  now left.
Qed.

Lemma legacy_cruise_raises_type_error_witness :
  acceleration_profile example_stepper <> [] /\
  2 * Z.of_nat (length (acceleration_profile example_stepper)) < Z.abs 9 /\
  Adapter.add_move_waveform example_stepper 9 = Adapter.ARaise Adapter.TypeError.
Proof.
  split; [discriminate|]. split; [reflexivity|].
  apply (legacy_cruise_raises_type_error example_stepper 9);
    [discriminate | reflexivity].
Defined.

Lemma legacy_short_move (m : PiGPIOStepperMotor) (steps md : Z) :
  min_delay_us m = Ok md ->
  Z.abs steps <= 2 * Z.of_nat (length (acceleration_profile m)) ->
  exists delays,
    length delays = Z.to_nat (Z.abs steps) /\
    create_move_waveform m steps
    = Ok (flat_map (step_pulses (step_pin m)) delays) /\
    Adapter.add_move_waveform m steps
    = Adapter.AOk (negb (steps =? 0), flat_map (step_pulses (step_pin m)) delays).
Proof.
  intros Hmd Hshort.
  set (profile := acceleration_profile m) in *.
  set (count := Z.to_nat (Z.abs steps)).
  assert (Hc : (count <= 2 * length profile)%nat) by (subst count; lia).
  set (ds := firstn (count - count / 2) profile ++ rev (firstn (count / 2) profile)).
  assert (Hin : Forall (fun d => In d profile) ds).
  { apply Forall_forall. intros d Hd. apply in_app_or in Hd.
    destruct Hd as [Hd | Hd];
      [now apply In_firstn in Hd | apply in_rev in Hd; now apply In_firstn in Hd]. }
  assert (Hlen : length ds = count).
  { pose proof (Nat.div_mod_eq count 2). pose proof (Nat.mod_upper_bound count 2).
    subst ds. rewrite length_app, length_rev, !length_firstn. lia. }
  exists ds. split; [exact Hlen|]. split.
  - rewrite waveform_of_delays, (move_delays_loop m steps md Hmd).
    fold profile count. now rewrite (plan_short profile md count Hc).
  - unfold Adapter.add_move_waveform. fold profile.
    fold count.
    assert (Ec : Z.abs steps = Z.of_nat count) by (subst count; lia).
    rewrite Ec.
    rewrite (add_loop_move_loop profile (step_pin m) (fresh_delay profile) count
               (fresh_delay_fresh profile) _ _ _ [] _
               (plan_short profile (fresh_delay profile) count Hc)).
    fold ds. rewrite (existsb_fresh profile ds Hin). cbn [app Adapter.abind].
    destruct (steps =? 0) eqn:E.
    + apply Z.eqb_eq in E. destruct ds; [reflexivity | subst count; simpl in Hlen; lia].
    + apply Z.eqb_neq in E.
      destruct ds as [|d ds']; [subst count; simpl in Hlen; lia | reflexivity].
Qed.

(** X14: up to [2 * len(profile)] steps the legacy adapter and the
    current planner build the same pulse train, of two pulses per step,
    and the adapter reports a move exactly when the step count is not
    zero. *)
Theorem legacy_short_move_agrees (m : PiGPIOStepperMotor) (steps md : Z) :
  min_delay_us m = Ok md ->
  Z.abs steps <= 2 * Z.of_nat (length (acceleration_profile m)) ->
  exists pulses,
    create_move_waveform m steps = Ok pulses /\
    Adapter.add_move_waveform m steps = Adapter.AOk (negb (steps =? 0), pulses) /\
    length pulses = (2 * Z.to_nat (Z.abs steps))%nat.
Proof.
  intros Hmd Hshort.
  destruct (legacy_short_move m steps md Hmd Hshort) as (ds & Hlen & Hc & Ha).
  exists (flat_map (step_pulses (step_pin m)) ds).
  split; [exact Hc|]. split; [exact Ha|].
  now rewrite flat_map_step_pulses_length, Hlen.
Qed.

Lemma legacy_short_move_agrees_witness :
  min_delay_us example_stepper = Ok 997 /\
  Z.abs (-8) <= 2 * Z.of_nat (length (acceleration_profile example_stepper)) /\
  exists pulses,
    create_move_waveform example_stepper (-8) = Ok pulses /\
    Adapter.add_move_waveform example_stepper (-8)
    = Adapter.AOk (negb (-8 =? 0), pulses) /\
    length pulses = (2 * Z.to_nat (Z.abs (-8)))%nat.
Proof.
  split; [reflexivity|]. split; [discriminate|].
  apply (legacy_short_move_agrees example_stepper (-8) 997);
    [reflexivity | discriminate].
Defined.

(** X15: in the legacy [move], [moved or row_stepper.add_move_waveform]
    does not evaluate its second operand once the feed has produced a
    waveform: with a non-zero feed, the only waveform added is the
    feed's, and the position is set to the note's row all the same. *)
Theorem legacy_move_skips_row_axis (get_index : Z -> Z)
    (self : Adapter.PiGPIOPuncherAdapter) (position note timesteps md : Z)
    (delay : Py.number) :
  0 <= note ->
  (x <- Py.mul delay Adapter.TIME_STEPS ;; Py.round x) = Ok timesteps ->
  timesteps <> 0 ->
  min_delay_us (Adapter.time_stepper self) = Ok md ->
  Z.abs timesteps
  <= 2 * Z.of_nat (length (acceleration_profile (Adapter.time_stepper self))) ->
  exists feed_wave,
    create_move_waveform (Adapter.time_stepper self) timesteps = Ok feed_wave /\
    Adapter.move_waveforms get_index self position note delay
    = Adapter.AOk (get_index note, [feed_wave], true).
Proof.
  intros Hnote Hscaled Hnz Hmd Hshort.
  destruct (legacy_short_move _ timesteps md Hmd Hshort)
    as (ds & _ & Hc & Ha).
  eexists. split; [exact Hc|].
  unfold Adapter.move_waveforms. rewrite Hscaled.
  cbn [Adapter.of_result Adapter.abind]. rewrite Ha.
  apply Z.eqb_neq in Hnz. rewrite Hnz.
  cbn [Adapter.abind negb fst snd].
  apply Z.leb_le in Hnote. now rewrite Hnote.
Qed.

Lemma legacy_move_skips_row_axis_witness :
  (0 <= 5 /\
   (x <- Py.mul (Py.Float (S754_finite false 5764607523034235 (-56)))
           Adapter.TIME_STEPS ;; Py.round x) = Ok 8 /\
   8 <> 0 /\
   min_delay_us (Adapter.time_stepper example_adapter) = Ok 997 /\
   Z.abs 8
   <= 2 * Z.of_nat (length (acceleration_profile (Adapter.time_stepper example_adapter)))) /\
  exists feed_wave,
    create_move_waveform (Adapter.time_stepper example_adapter) 8 = Ok feed_wave /\
    Adapter.move_waveforms (fun n => n) example_adapter 0 5
      (Py.Float (S754_finite false 5764607523034235 (-56)))
    = Adapter.AOk (5, [feed_wave], true).
Proof.
  split.
  - split; [discriminate|]. split; [vm_compute; reflexivity|].
    split; [discriminate|]. split; [reflexivity | discriminate].
  - apply (legacy_move_skips_row_axis (fun n => n) example_adapter 0 5 8 997);
      [discriminate | vm_compute; reflexivity | discriminate | reflexivity
      | discriminate].
Defined.

(** ** The nearer end of a chord first *)

Lemma hd_rev {A} (d : A) (l : list A) : hd d (rev l) = last l d.
Proof.
  destruct l as [|a l]; [reflexivity|].
  destruct (exists_last (l := a :: l) ltac:(discriminate)) as (l' & x & ->).
  now rewrite rev_app_distr, last_last.
Qed.

Lemma last_rev {A} (d : A) (l : list A) : last (rev l) d = hd d l.
Proof. rewrite <- (rev_involutive l) at 2. now rewrite hd_rev. Qed.

(** X16: a chord is entered at its nearer end.  The visiting order is
    the sorted list or its reverse, and its first target is at least as
    close to the current position as its last one. *)
Theorem chord_starts_at_nearer_end (position : Z) (positions order : list Z) :
  visit_order position positions = Ok order ->
  positions <> [] /\
  (order = positions \/ order = rev positions) /\
  Z.abs (position - hd 0 order) <= Z.abs (position - last order 0).
Proof.
  intros H.
  assert (Hne : positions <> []).
  { intros ->. discriminate H. }
  split; [exact Hne|].
  rewrite (visit_order_nonempty position positions Hne) in H.
  injection H as <-.
  destruct (_ <? _) eqn:E.
  - apply Z.ltb_lt in E. split; [now right|].
    rewrite hd_rev, last_rev. lia.
  - apply Z.ltb_ge in E. split; [now left | lia].
Qed.

Lemma chord_starts_at_nearer_end_witness :
  visit_order 50 [10; 30; 80] = Ok [80; 30; 10] /\
  [10; 30; 80] <> [] /\
  ([80; 30; 10] = [10; 30; 80] \/ [80; 30; 10] = rev [10; 30; 80]) /\
  Z.abs (50 - hd 0 [80; 30; 10]) <= Z.abs (50 - last [80; 30; 10] 0).
Proof.
  split; [reflexivity|].
  apply (chord_starts_at_nearer_end 50 [10; 30; 80] [80; 30; 10]). reflexivity.
Defined.

(** ** Binary64 accuracy of the synchronizer

    [round(pulse.delay * (longer / shorter))] goes through three
    roundings: of the quotient, of the product, and to an integer.  The
    first two are bounded from the definitions of [SFdiv] and [SFmul]. *)

Lemma pow2_succ (n : Z) : 0 <= n -> 2 ^ (n + 1) = 2 * 2 ^ n.
Proof. intros H. rewrite Z.pow_add_r by lia. lia. Qed.

Lemma digits2_pos_bounds (p : positive) :
  2 ^ (Zpos (digits2_pos p) - 1) <= Zpos p < 2 ^ (Zpos (digits2_pos p)).
Proof.
  induction p as [p IH|p IH|]; cbn [digits2_pos].
  - rewrite Pos2Z.inj_succ. set (E := Z.pos (digits2_pos p)) in *.
    replace (Z.succ E - 1) with ((E - 1) + 1) by lia.
    replace (Z.succ E) with (E + 1) by lia.
    rewrite !pow2_succ by lia. change (Z.pos p~1) with (2 * Z.pos p + 1). lia.
  - rewrite Pos2Z.inj_succ. set (E := Z.pos (digits2_pos p)) in *.
    replace (Z.succ E - 1) with ((E - 1) + 1) by lia.
    replace (Z.succ E) with (E + 1) by lia.
    rewrite !pow2_succ by lia. change (Z.pos p~0) with (2 * Z.pos p). lia.
  - simpl. lia.
Qed.

Lemma digits2_unique (m D : Z) :
  0 < D -> 2 ^ (D - 1) <= m < 2 ^ D -> Zdigits2 m = D.
Proof.
  intros HD [Hlo Hhi].
  assert (0 < 2 ^ (D - 1)) by (apply Z.pow_pos_nonneg; lia).
  destruct m as [|p|p]; try lia.
  cbn [Zdigits2]. pose proof (digits2_pos_bounds p) as [Blo Bhi].
  set (E := Z.pos (digits2_pos p)) in *.
  destruct (Z.lt_trichotomy E D) as [Hc | [Hc | Hc]]; [|exact Hc|].
  - assert (2 ^ E <= 2 ^ (D - 1)) by (apply Z.pow_le_mono_r; lia). lia.
  - assert (2 ^ D <= 2 ^ (E - 1)) by (apply Z.pow_le_mono_r; lia). lia.
Qed.

Lemma iter_pos_nat {A} (f : A -> A) (p : positive) (x : A) :
  iter_pos f p x = Nat.iter (Pos.to_nat p) f x.
Proof.
  revert x. induction p as [p IH|p IH|]; intros x; cbn [iter_pos].
  - rewrite !IH, Pos2Nat.inj_xI.
    replace (S (2 * Pos.to_nat p)) with (Pos.to_nat p + (Pos.to_nat p + 1))%nat by lia.
    rewrite !Nat.iter_add. reflexivity.
  - rewrite !IH, Pos2Nat.inj_xO.
    replace (2 * Pos.to_nat p)%nat with (Pos.to_nat p + Pos.to_nat p)%nat by lia.
    rewrite Nat.iter_add. reflexivity.
  - reflexivity.
Qed.

(** locations *)

(** Right shifts of the rounding record. *)
Lemma shr_1_m (r : shr_record) :
  0 <= shr_m r -> shr_m (shr_1 r) = shr_m r / 2.
Proof.
  destruct r as [m r s]. cbn [shr_m]. intros Hm.
  destruct m as [|[p|p|]|p]; cbn [shr_1 shr_m]; try lia; try reflexivity.
  - apply (Z.div_unique (Z.pos p~1) 2 (Z.pos p) 1); lia.
  - apply (Z.div_unique (Z.pos p~0) 2 (Z.pos p) 0); lia.
Qed.

Lemma shr_iter_m (n : nat) (r : shr_record) :
  0 <= shr_m r -> shr_m (Nat.iter n shr_1 r) = shr_m r / 2 ^ Z.of_nat n.
Proof.
  intros Hm. induction n as [|n IH].
  - change (2 ^ Z.of_nat 0) with 1. now rewrite Z.div_1_r.
  - rewrite Nat.iter_succ, shr_1_m.
    + rewrite IH, Nat2Z.inj_succ, Z.pow_succ_r by lia.
      rewrite Z.div_div by (try apply Z.pow_pos_nonneg; lia).
      f_equal. lia.
    + rewrite IH. apply Z.div_pos; [lia | apply Z.pow_pos_nonneg; lia].
Qed.

Lemma shr_record_of_loc_m (m : Z) (l : location) :
  shr_m (shr_record_of_loc m l) = m.
Proof. destruct l as [|[]]; reflexivity. Qed.

Lemma shr_m_spec (m : Z) (l : location) (e n : Z) :
  0 <= m -> 0 <= n ->
  shr_m (fst (shr (shr_record_of_loc m l) e n)) = m / 2 ^ n /\
  snd (shr (shr_record_of_loc m l) e n) = e + n.
Proof.
  intros Hm Hn. destruct n as [|p|p]; try lia; cbn [shr fst snd].
  - rewrite shr_record_of_loc_m. change (2 ^ 0) with 1. rewrite Z.div_1_r. lia.
  - rewrite iter_pos_nat, shr_iter_m by (rewrite shr_record_of_loc_m; lia).
    rewrite shr_record_of_loc_m, positive_nat_Z. lia.
Qed.

Lemma round_nearest_even_near (m : Z) (l : location) :
  round_nearest_even m l = m \/ round_nearest_even m l = m + 1.
Proof.
  destruct l as [|[]]; cbn [round_nearest_even]; auto.
  destruct (Z.even m); auto.
Qed.

Lemma fexp_normal (e : Z) : -1074 <= e - 53 -> fexp 53 1024 e = e - 53.
Proof. unfold fexp, emin. lia. Qed.

Lemma shr_fexp_spec (m e k : Z) (l : location) :
  0 < m -> 0 <= k -> Zdigits2 m = 53 + k -> -1074 <= e + k ->
  exists r, shr_fexp 53 1024 m e l = (r, e + k) /\ shr_m r = m / 2 ^ k.
Proof.
  intros Hm Hk HD He. unfold shr_fexp. rewrite HD, fexp_normal by lia.
  replace (53 + k + e - 53 - e) with k by lia.
  pose proof (shr_m_spec m l e k ltac:(lia) Hk) as [A B].
  destruct (shr (shr_record_of_loc m l) e k) as [r e']. cbn [fst snd] in A, B.
  exists r. now rewrite B.
Qed.

Lemma binary_round_aux_bounds (s : bool) (mx : positive) (ex : Z) (l : location) :
  let n := Zpos (digits2_pos mx) - 53 in
  0 <= n -> -1074 <= ex + n -> ex + n < 971 ->
  exists (m : positive) (u : Z),
    binary_round_aux 53 1024 s (Zpos mx) ex l = S754_finite s m (ex + u) /\
    n <= u <= n + 1 /\ 2 ^ 52 <= Zpos m < 2 ^ 53 /\
    (Zpos m - 1) * 2 ^ u <= Zpos mx /\ Zpos mx + 1 <= (Zpos m + 1) * 2 ^ u.
Proof.
  intros n Hn Hlo Hhi.
  pose proof (digits2_pos_bounds mx) as [Dlo Dhi].
  replace (Z.pos (digits2_pos mx) - 1) with (52 + n) in Dlo by lia.
  replace (Z.pos (digits2_pos mx)) with (53 + n) in Dhi by lia.
  rewrite Z.pow_add_r in Dlo, Dhi by lia.
  assert (HP : 0 < 2 ^ n) by (apply Z.pow_pos_nonneg; lia).
  set (P := 2 ^ n) in *. set (F := Zpos mx / P).
  assert (HF : Zpos mx = P * F + Zpos mx mod P) by (apply Z.div_mod; lia).
  assert (HR : 0 <= Zpos mx mod P < P) by (apply Z.mod_pos_bound; lia).
  assert (HFb : 2 ^ 52 <= F < 2 ^ 53).
  { split.
    - apply Z.div_le_lower_bound; lia.
    - apply Z.div_lt_upper_bound; lia. }
  unfold binary_round_aux.
  destruct (shr_fexp_spec (Zpos mx) ex n l ltac:(lia) Hn ltac:(cbn [Zdigits2]; lia) Hlo)
    as (r1 & E1 & M1).
  rewrite E1. fold P F in M1. rewrite M1.
  set (m2 := round_nearest_even F (loc_of_shr_record r1)).
  assert (Hm2 : m2 = F \/ m2 = F + 1) by apply round_nearest_even_near.
  destruct (Z.eq_dec m2 (2 ^ 53)) as [Hc | Hc].
  - (* the mantissa carries into the next binade *)
    destruct (shr_fexp_spec m2 (ex + n) 1 loc_Exact) as (r2 & E2 & M2); try lia.
    { rewrite Hc. reflexivity. }
    rewrite E2, M2, Hc. change (2 ^ 53 / 2 ^ 1) with (Zpos (2 ^ 52)).
    replace (ex + n + 1 <=? 1024 - 53) with true by (symmetry; apply Z.leb_le; lia).
    exists (2 ^ 52)%positive, (n + 1). replace (ex + (n + 1)) with (ex + n + 1) by lia.
    split; [reflexivity|]. split; [lia|]. split; [split; [reflexivity | reflexivity]|].
    rewrite Z.pow_add_r by lia. fold P. change (2 ^ 1) with 2.
    change (Zpos (2 ^ 52)) with (2 ^ 52). 
    assert (F = 2 ^ 53 - 1) by lia. 
    change (2 ^ 53) with 9007199254740992 in *. change (2 ^ 52) with 4503599627370496 in *.
    nia.
  - destruct (shr_fexp_spec m2 (ex + n) 0 loc_Exact) as (r2 & E2 & M2); try lia.
    { apply digits2_unique; [lia|]. change (53 + 0 - 1) with 52. change (53 + 0) with 53. lia. }
    rewrite E2, M2. change (2 ^ 0) with 1. rewrite Z.div_1_r.
    destruct m2 as [|p|p] eqn:Em2; try lia.
    replace (ex + n + 0 <=? 1024 - 53) with true by (symmetry; apply Z.leb_le; lia).
    exists p, n. replace (ex + n + 0) with (ex + n) by lia.
    split; [reflexivity|]. split; [lia|]. split; [lia|].
    fold P. nia.
Qed.

Lemma shr_fexp_exact (m : positive) (e : Z) :
  2 ^ 52 <= Zpos m < 2 ^ 53 -> -1074 <= e ->
  shr_fexp 53 1024 (Zpos m) e loc_Exact
  = ({| shr_m := Zpos m; shr_r := false; shr_s := false |}, e).
Proof.
  intros Hm He. unfold shr_fexp.
  rewrite (digits2_unique (Zpos m) 53) by (change (53 - 1) with 52; lia).
  rewrite fexp_normal by lia.
  replace (53 + e - 53 - e) with 0 by lia. reflexivity.
Qed.

Lemma binary_round_aux_exact (s : bool) (m : positive) (e : Z) :
  2 ^ 52 <= Zpos m < 2 ^ 53 -> -1074 <= e <= 971 ->
  binary_round_aux 53 1024 s (Zpos m) e loc_Exact = S754_finite s m e.
Proof.
  intros Hm He. unfold binary_round_aux.
  rewrite shr_fexp_exact by lia.
  cbn [shr_m loc_of_shr_record round_nearest_even].
  rewrite shr_fexp_exact by lia. cbn [shr_m].
  replace (e <=? 1024 - 53) with true by (symmetry; apply Z.leb_le; lia).
  reflexivity.
Qed.

Lemma binary_round_int (s : bool) (p : positive) :
  Zpos p < 2 ^ 53 ->
  exists (m : positive) (c : Z),
    binary_round 53 1024 s p 0 = S754_finite s m (- c) /\
    0 <= c <= 52 /\ Zpos m = Zpos p * 2 ^ c /\ 2 ^ 52 <= Zpos m < 2 ^ 53.
Proof.
  intros Hp. pose proof (digits2_pos_bounds p) as [Dlo Dhi].
  assert (HD : Zpos (digits2_pos p) <= 53).
  { destruct (Z.le_gt_cases (Zpos (digits2_pos p)) 53) as [H | H]; [exact H|].
    assert (2 ^ 53 <= 2 ^ (Zpos (digits2_pos p) - 1)) by (apply Z.pow_le_mono_r; lia).
    lia. }
  unfold binary_round, shl_align. rewrite fexp_normal by lia.
  set (D := Zpos (digits2_pos p)) in *.
  destruct (D + 0 - 53 - 0) as [|q|q] eqn:Eq; try lia.
  - exists p, 0. replace (D - 1) with 52 in Dlo by lia.
    rewrite binary_round_aux_exact by lia.
    split; [reflexivity|]. change (2 ^ 0) with 1. lia.
  - assert (Hq : Zpos (Pos.iter xO p q) = Zpos p * 2 ^ Zpos q).
    { change (Pos.iter xO p q) with (shift_pos q p).
      rewrite (shift_pos_correct q p). change (Z.pow_pos 2 q) with (2 ^ Zpos q). lia. }
    assert (Hc : Zpos q = 53 - D) by lia.
    assert (Hm : 2 ^ 52 <= Zpos (Pos.iter xO p q) < 2 ^ 53).
    { rewrite Hq, Hc. split.
      - replace 52 with ((D - 1) + (53 - D)) by lia. rewrite Z.pow_add_r by lia.
        apply Z.mul_le_mono_nonneg_r; [apply Z.pow_nonneg; lia | exact Dlo].
      - replace 53 with (D + (53 - D)) at 2 by lia. rewrite Z.pow_add_r by lia.
        apply Z.mul_lt_mono_pos_r; [apply Z.pow_pos_nonneg; lia | exact Dhi]. }
    exists (Pos.iter xO p q), (Zpos q).
    replace (D + 0 - 53) with (- Zpos q) by lia.
    rewrite binary_round_aux_exact by lia.
    split; [reflexivity|]. split; [lia|]. split; [exact Hq | exact Hm].
Qed.

Lemma float_of_int_exact (d : Z) :
  d <> 0 -> Z.abs d < 2 ^ 53 ->
  exists (m : positive) (c : Z),
    Py.float_of_int d = Ok (S754_finite (d <? 0) m (- c)) /\
    0 <= c <= 52 /\ Zpos m = Z.abs d * 2 ^ c /\ 2 ^ 52 <= Zpos m < 2 ^ 53.
Proof.
  intros Hd Hb. unfold Py.float_of_int, Py.prec, Py.emax.
  destruct d as [|p|p]; [congruence| |]; cbn [binary_normalize Z.abs Z.ltb Z.compare] in *.
  - destruct (binary_round_int false p Hb) as (m & c & E & Hc & Hm & Hr).
    exists m, c. rewrite E. auto.
  - destruct (binary_round_int true p Hb) as (m & c & E & Hc & Hm & Hr).
    exists m, c. rewrite E. auto.
Qed.

Lemma digits2_between (p : positive) (lo hi : Z) :
  0 <= lo -> 2 ^ lo <= Zpos p < 2 ^ hi -> lo < Zpos (digits2_pos p) <= hi.
Proof.
  intros Hlo [A B]. pose proof (digits2_pos_bounds p) as [Dlo Dhi].
  set (D := Zpos (digits2_pos p)) in *. split.
  - destruct (Z.lt_ge_cases lo D) as [H | H]; [exact H|].
    assert (2 ^ D <= 2 ^ lo) by (apply Z.pow_le_mono_r; lia). lia.
  - destruct (Z.le_gt_cases D hi) as [H | H]; [exact H|].
    assert (2 ^ hi <= 2 ^ (D - 1)) by (apply Z.pow_le_mono_r; lia). lia.
Qed.

Lemma SFdiv_core_binary_int (pa pb : positive) :
  Zpos pa < 2 ^ 50 -> Zpos pb < 2 ^ 50 ->
  let s := 53 + Zpos (digits2_pos pb) - Zpos (digits2_pos pa) in
  4 <= s <= 102 /\
  exists l, SFdiv_core_binary 53 1024 (Zpos pa) 0 (Zpos pb) 0
            = (Zpos pa * 2 ^ s / Zpos pb, - s, l).
Proof.
  intros Ha Hb s.
  assert (Da : 0 < Zpos (digits2_pos pa) <= 50)
    by (apply (digits2_between pa 0 50); change (2 ^ 0) with 1; lia).
  assert (Db : 0 < Zpos (digits2_pos pb) <= 50)
    by (apply (digits2_between pb 0 50); change (2 ^ 0) with 1; lia).
  split; [unfold s; lia|].
  unfold SFdiv_core_binary. cbn [Zdigits2]. rewrite fexp_normal by lia.
  replace (Z.min _ (0 - 0)) with (- s) by (unfold s; lia).
  replace (0 - 0 - - s) with s by lia.
  destruct s as [|ps|ps] eqn:Es; try lia.
  rewrite Z.shiftl_mul_pow2 by lia.
  destruct (Z.div_eucl (Zpos pa * 2 ^ Zpos ps) (Zpos pb)) as [q r] eqn:E.
  exists (new_location (Zpos pb) r). unfold Z.div. now rewrite E.
Qed.

Lemma truediv_int_bounds (a b : Z) :
  0 < a < 2 ^ 50 -> 0 < b < 2 ^ 50 ->
  exists (m : positive) (t : Z),
    Py.truediv (Py.Int a) (Py.Int b) = Ok (Py.Float (S754_finite false m (- t))) /\
    2 <= t <= 102 /\ 2 ^ 52 <= Zpos m < 2 ^ 53 /\
    (Zpos m - 1) * b <= a * 2 ^ t /\ a * 2 ^ t <= (Zpos m + 1) * b.
Proof.
  intros Ha Hb. destruct a as [|pa|pa]; try lia. destruct b as [|pb|pb]; try lia.
  unfold Py.truediv, Py.prec, Py.emax. cbn [Py.is_zero Z.eqb Py.exact_of_int SFdiv xorb].
  destruct (SFdiv_core_binary_int pa pb) as (Hs & l & E); try lia.
  rewrite E.
  pose proof (digits2_pos_bounds pa) as [Alo Ahi].
  pose proof (digits2_pos_bounds pb) as [Blo Bhi].
  set (Da := Zpos (digits2_pos pa)) in *. set (Db := Zpos (digits2_pos pb)) in *.
  set (s := 53 + Db - Da) in *.
  assert (HS : 0 < 2 ^ s) by (apply Z.pow_pos_nonneg; lia).
  set (q := Zpos pa * 2 ^ s / Zpos pb) in *.
  assert (Hq : Zpos pa * 2 ^ s = Zpos pb * q + (Zpos pa * 2 ^ s) mod Zpos pb)
    by (apply Z.div_mod; lia).
  assert (Hr : 0 <= (Zpos pa * 2 ^ s) mod Zpos pb < Zpos pb)
    by (apply Z.mod_pos_bound; lia).
  assert (Hlo : Zpos pb * 2 ^ 52 <= Zpos pa * 2 ^ s).
  { apply Z.le_trans with (2 ^ Db * 2 ^ 52); [apply Z.mul_le_mono_nonneg_r; lia|].
    apply Z.le_trans with (2 ^ (Da - 1) * 2 ^ s); [|apply Z.mul_le_mono_nonneg_r; lia].
    rewrite <- !Z.pow_add_r by lia. apply Z.pow_le_mono_r; unfold s; lia. }
  assert (Hhi : Zpos pa * 2 ^ s < Zpos pb * 2 ^ 54).
  { apply Z.lt_le_trans with (2 ^ Da * 2 ^ s); [apply Z.mul_lt_mono_pos_r; lia|].
    apply Z.le_trans with (2 ^ (Db - 1) * 2 ^ 54); [|apply Z.mul_le_mono_nonneg_r; lia].
    rewrite <- !Z.pow_add_r by lia. apply Z.pow_le_mono_r; unfold s; lia. }
  assert (Hqb : 2 ^ 52 <= q < 2 ^ 54).
  { split; [apply Z.div_le_lower_bound; lia | apply Z.div_lt_upper_bound; lia]. }
  destruct q as [|pq|pq] eqn:Eq; try lia.
  pose proof (digits2_between pq 52 54 ltac:(lia) Hqb) as Dq.
  destruct (binary_round_aux_bounds false pq (- s) l) as (m & u & R & Hu & Hm & Hl & Hh);
    try lia.
  rewrite R. exists m, (s - u). replace (- (s - u)) with (- s + u) by lia.
  split; [reflexivity|]. split; [lia|]. split; [exact Hm|].
  assert (HU : 0 < 2 ^ u) by (apply Z.pow_pos_nonneg; lia).
  assert (HT : 2 ^ s = 2 ^ (s - u) * 2 ^ u).
  { rewrite <- Z.pow_add_r by lia. f_equal. lia. }
  rewrite HT in Hq, Hr. set (T := 2 ^ (s - u)) in *. set (U := 2 ^ u) in *.
  set (rm := (Zpos pa * (T * U)) mod Zpos pb) in *.
  assert (H1 : Zpos pb * ((Zpos m - 1) * U) <= Zpos pb * Zpos pq)
    by (apply Z.mul_le_mono_nonneg_l; lia).
  assert (H2 : Zpos pb * (Zpos pq + 1) <= Zpos pb * ((Zpos m + 1) * U))
    by (apply Z.mul_le_mono_nonneg_l; lia).
  split.
  - apply (Z.mul_le_mono_pos_r _ _ U HU). lia.
  - apply (Z.mul_le_mono_pos_r _ _ U HU). lia.
Qed.

Lemma round_half_even_bound (num den : Z) :
  0 < den -> 2 * Z.abs (Py.round_half_even num den * den - num) <= den.
Proof.
  intros Hden. unfold Py.round_half_even.
  pose proof (Z.div_mod num den ltac:(lia)) as Hdm.
  pose proof (Z.mod_pos_bound num den Hden) as Hr.
  set (q := num / den) in *. set (r := num mod den) in *.
  destruct (Z.compare_spec (2 * r) den) as [Hc | Hc | Hc];
    [destruct (Z.even q)| |]; lia.
Qed.

Lemma scale_combine (r b d a A C W U m sm : Z) :
  W * U = A * C ->
  (r * b - d * a) * (A * C)
  = b * U * (r * W - sm) + b * (sm * U - d * C * m) + d * C * (m * b - a * A).
Proof.
  intros E.
  replace ((r * b - d * a) * (A * C)) with (r * b * (W * U) - d * a * (A * C))
    by (rewrite E; ring).
  ring.
Qed.

(** The three rounding errors of [round(d * (a / b))] add up to at most
    one unit: half a unit for the final rounding, a quarter each for the
    quotient and the product. *)
Lemma scale_error_budget (r b d a A C W U m sm : Z) :
  0 < b -> 0 < A -> 0 < C -> 0 < U ->
  W * U = A * C ->
  Z.abs (m * b - a * A) <= b ->
  Z.abs (sm * U - d * C * m) <= U ->
  2 * Z.abs (r * W - sm) <= W ->
  4 * Z.abs d <= A -> 4 * U <= A * C ->
  Z.abs (r * b - d * a) <= b.
Proof.
  intros Hb HA HC HU E Hz Hy Hx Hd Hu.
  assert (HG : 0 < A * C) by (apply Z.mul_pos_pos; lia).
  apply (Z.mul_le_mono_pos_r _ _ (A * C) HG).
  rewrite <- (Z.abs_eq (A * C)) at 1 by lia. rewrite <- Z.abs_mul.
  rewrite (scale_combine r b d a A C W U m sm E).
  assert (P1 : 2 * Z.abs (b * U * (r * W - sm)) <= b * (A * C)).
  { rewrite Z.abs_mul, (Z.abs_eq (b * U)) by (apply Z.mul_nonneg_nonneg; lia).
    replace (b * (A * C)) with (b * U * W) by (rewrite <- E; ring).
    replace (2 * (b * U * Z.abs (r * W - sm)))
      with (b * U * (2 * Z.abs (r * W - sm))) by ring.
    apply Z.mul_le_mono_nonneg_l; [apply Z.mul_nonneg_nonneg; lia | exact Hx]. }
  assert (P2 : 4 * Z.abs (b * (sm * U - d * C * m)) <= b * (A * C)).
  { rewrite Z.abs_mul, (Z.abs_eq b) by lia.
    apply Z.le_trans with (b * (4 * U)).
    - replace (4 * (b * Z.abs (sm * U - d * C * m)))
        with (b * (4 * Z.abs (sm * U - d * C * m))) by ring.
      apply Z.mul_le_mono_nonneg_l; lia.
    - apply Z.mul_le_mono_nonneg_l; lia. }
  assert (P3 : 4 * Z.abs (d * C * (m * b - a * A)) <= b * (A * C)).
  { rewrite !Z.abs_mul, (Z.abs_eq C) by lia.
    apply Z.le_trans with (Z.abs d * C * (4 * b)).
    - replace (4 * (Z.abs d * C * Z.abs (m * b - a * A)))
        with (Z.abs d * C * (4 * Z.abs (m * b - a * A))) by ring.
      apply Z.mul_le_mono_nonneg_l; [apply Z.mul_nonneg_nonneg; lia | lia].
    - replace (Z.abs d * C * (4 * b)) with (b * C * (4 * Z.abs d)) by ring.
      replace (b * (A * C)) with (b * C * A) by ring.
      apply Z.mul_le_mono_nonneg_l; [apply Z.mul_nonneg_nonneg; lia | exact Hd]. }
  set (t1 := b * U * (r * W - sm)) in *.
  set (t2 := b * (sm * U - d * C * m)) in *.
  set (t3 := d * C * (m * b - a * A)) in *.
  set (G := b * (A * C)) in *. lia.
Qed.

Lemma delay_below_quotient_ulp (d a b A m : Z) :
  0 < b -> 0 <= A -> 2 ^ 52 <= m ->
  (m - 1) * b <= a * A -> Z.abs d * a <= 2 ^ 49 * b ->
  4 * Z.abs d <= A.
Proof.
  intros Hb HA Hm Hq Hd.
  change (2 ^ 52) with 4503599627370496 in *.
  change (2 ^ 49) with 562949953421312 in *.
  pose proof (Z.abs_nonneg d) as HD. set (D := Z.abs d) in *.
  assert (a1 : 4503599627370495 * b <= (m - 1) * b)
    by (apply Z.mul_le_mono_nonneg_r; lia).
  assert (a2 : D * (4503599627370495 * b) <= D * (a * A))
    by (apply Z.mul_le_mono_nonneg_l; lia).
  assert (a3 : D * a * A <= 562949953421312 * b * A)
    by (apply Z.mul_le_mono_nonneg_r; lia).
  assert (a4 : 0 <= b * A) by (apply Z.mul_nonneg_nonneg; lia).
  apply (Z.mul_le_mono_pos_l _ _ b Hb). lia.
Qed.

Lemma product_ulp_below_unit (d a b A C U m m3 : Z) :
  0 < b -> 0 < A -> 0 < C -> 0 <= U -> 0 <= m -> 2 ^ 52 <= m3 ->
  (m - 1) * b <= a * A -> Z.abs d * a <= 2 ^ 49 * b ->
  4 * Z.abs d <= A ->
  (m3 - 1) * U <= Z.abs d * C * m ->
  4 * U <= A * C.
Proof.
  intros Hb HA HC HU Hm Hm3 Hq Hd Hd4 Hp.
  change (2 ^ 52) with 4503599627370496 in *.
  change (2 ^ 49) with 562949953421312 in *.
  pose proof (Z.abs_nonneg d) as HD. set (D := Z.abs d) in *.
  assert (HDC : 0 <= D * C) by (apply Z.mul_nonneg_nonneg; lia).
  assert (HCb : 0 <= C * b) by (apply Z.mul_nonneg_nonneg; lia).
  assert (b1 : 4503599627370495 * U <= (m3 - 1) * U)
    by (apply Z.mul_le_mono_nonneg_r; lia).
  assert (b3 : D * C * (m * b) <= D * C * (a * A + b))
    by (apply Z.mul_le_mono_nonneg_l; lia).
  assert (b4 : C * (D * a * A) <= C * (562949953421312 * b * A)).
  { apply Z.mul_le_mono_nonneg_l; [lia|]. apply Z.mul_le_mono_nonneg_r; lia. }
  assert (b5 : b * (4503599627370495 * U) <= b * (D * C * m))
    by (apply Z.mul_le_mono_nonneg_l; lia).
  assert (b6 : C * b * (4 * D) <= C * b * A)
    by (apply Z.mul_le_mono_nonneg_l; lia).
  assert (b7 : 0 <= C * b * A) by (apply Z.mul_nonneg_nonneg; lia).
  apply (Z.mul_le_mono_pos_l _ _ b Hb). lia.
Qed.

Lemma SFmul_bounds (sd : bool) (md m : positive) (c t : Z) :
  2 ^ 52 <= Zpos md < 2 ^ 53 -> 2 ^ 52 <= Zpos m < 2 ^ 53 ->
  0 <= c <= 52 -> 2 <= t <= 102 ->
  exists (m3 : positive) (u : Z),
    SFmul 53 1024 (S754_finite sd md (- c)) (S754_finite false m (- t))
    = S754_finite sd m3 (- c + - t + u) /\
    52 <= u <= 54 /\ 2 ^ 52 <= Zpos m3 < 2 ^ 53 /\
    (Zpos m3 - 1) * 2 ^ u <= Zpos md * Zpos m /\
    Zpos md * Zpos m + 1 <= (Zpos m3 + 1) * 2 ^ u.
Proof.
  intros Hmd Hm Hc Ht. cbn [SFmul]. rewrite Bool.xorb_false_r.
  assert (Hp : 2 ^ 104 <= Zpos (md * m) < 2 ^ 106).
  { rewrite Pos2Z.inj_mul. split.
    - change (2 ^ 104) with (2 ^ 52 * 2 ^ 52). apply Z.mul_le_mono_nonneg; lia.
    - change (2 ^ 106) with (2 ^ 53 * 2 ^ 53). apply Z.mul_lt_mono_nonneg; lia. }
  pose proof (digits2_between (md * m) 104 106 ltac:(lia) Hp) as Dp.
  destruct (binary_round_aux_bounds sd (md * m) (- c + - t) loc_Exact)
    as (m3 & u & R & Hu & Hm3 & Hl & Hh); try lia.
  exists m3, u. rewrite R, Pos2Z.inj_mul in *.
  split; [reflexivity|]. split; [lia|]. split; [exact Hm3|]. split; assumption.
Qed.

Lemma scale_delay_accurate (d a b : Z) :
  0 < b <= a -> a < 2 ^ 50 -> Z.abs d * a <= 2 ^ 49 * b ->
  exists (factor : Py.number) (r : Z),
    Py.truediv a b = Ok factor /\ scale_delay d factor = Ok r /\
    Z.abs (r * b - d * a) <= b.
Proof.
  intros Hab Ha Hd.
  destruct (truediv_int_bounds a b) as (m & t & Ediv & Ht & Hm & Hql & Hqh); try lia.
  exists (Py.Float (S754_finite false m (- t))).
  destruct (Z.eq_dec d 0) as [-> | Hd0].
  { exists 0. split; [exact Ediv|]. split; [reflexivity | lia]. }
  assert (HA : 0 < 2 ^ t) by (apply Z.pow_pos_nonneg; lia).
  assert (Hd49 : Z.abs d <= 2 ^ 49).
  { apply (Z.mul_le_mono_pos_r _ _ b); [lia|].
    apply Z.le_trans with (Z.abs d * a); [apply Z.mul_le_mono_nonneg_l; lia | exact Hd]. }
  destruct (float_of_int_exact d Hd0) as (md & c & Efl & Hc & Hmd & Hmdb).
  { change (2 ^ 53) with 9007199254740992. change (2 ^ 49) with 562949953421312 in Hd49. lia. }
  destruct (SFmul_bounds (d <? 0) md m c t Hmdb Hm Hc Ht)
    as (m3 & u & Emul & Hu & Hm3 & Hpl & Hph).
  assert (HC : 0 < 2 ^ c) by (apply Z.pow_pos_nonneg; lia).
  assert (HU : 0 < 2 ^ u) by (apply Z.pow_pos_nonneg; lia).
  rewrite Hmd in Hpl, Hph.
  assert (Hd4 : 4 * Z.abs d <= 2 ^ t)
    by (apply (delay_below_quotient_ulp d a b (2 ^ t) (Zpos m)); lia).
  assert (Hu4 : 4 * 2 ^ u <= 2 ^ t * 2 ^ c).
  { apply (product_ulp_below_unit d a b (2 ^ t) (2 ^ c) (2 ^ u) (Zpos m) (Zpos m3));
      try lia; try assumption. }
  assert (Hut : u + 2 <= t + c).
  { apply (Z.pow_le_mono_r_iff 2); [lia | lia|].
    rewrite !Z.pow_add_r by lia. change (2 ^ 2) with 4. lia. }
  assert (HW : 2 ^ (- (- c + - t + u)) * 2 ^ u = 2 ^ t * 2 ^ c).
  { rewrite <- !Z.pow_add_r by lia. f_equal. lia. }
  set (sm := if d <? 0 then Zneg m3 else Zpos m3).
  exists (Py.round_half_even sm (2 ^ (- (- c + - t + u)))).
  split; [exact Ediv|]. split.
  - unfold scale_delay, Py.mul. cbn [Py.to_float bind]. rewrite Efl. cbn [bind].
    unfold Py.prec, Py.emax. rewrite Emul. cbn [Py.round]. fold sm.
    destruct (Z.leb_spec 0 (- c + - t + u)) as [H | H]; [lia | reflexivity].
  - apply (scale_error_budget _ b d a (2 ^ t) (2 ^ c) (2 ^ (- (- c + - t + u))) (2 ^ u)
             (Zpos m) sm); try lia; try assumption.
    + unfold sm. destruct (Z.ltb_spec d 0) as [Hn | Hn].
      * change (Zneg m3) with (- Zpos m3). rewrite (Z.abs_neq d) in Hpl, Hph by lia. lia.
      * rewrite (Z.abs_eq d) in Hpl, Hph by lia. lia.
    + apply round_half_even_bound. apply Z.pow_pos_nonneg; lia.
Qed.

Lemma wavelength_nonneg (pulses : list pulse) :
  Forall (fun p => 0 <= delay p) pulses -> 0 <= wavelength pulses.
Proof.
  induction 1 as [|p pulses Hp _ IH]; [reflexivity|].
  rewrite wavelength_cons. lia.
Qed.

Lemma delay_le_wavelength (pulses : list pulse) :
  Forall (fun p => 0 <= delay p) pulses ->
  Forall (fun p => 0 <= delay p <= wavelength pulses) pulses.
Proof.
  induction 1 as [|p pulses Hp Hrest IH]; constructor.
  - rewrite wavelength_cons. pose proof (wavelength_nonneg pulses Hrest). lia.
  - apply (Forall_impl _ (P := fun q => 0 <= delay q <= wavelength pulses)); [|exact IH].
    intros q Hq. rewrite wavelength_cons. lia.
Qed.

Lemma scale_accurate (a b : Z) (factor : Py.number) (pulses : list pulse) :
  0 < b <= a -> a < 2 ^ 49 ->
  Py.truediv a b = Ok factor ->
  Forall (fun p => 0 <= delay p <= b) pulses ->
  exists pulses',
    scale pulses factor = Ok pulses' /\
    within_a_microsecond a b pulses pulses' /\
    length pulses' = length pulses.
Proof.
  intros Hab Ha Ef. induction 1 as [|p pulses Hp _ IH].
  - exists []. split; [reflexivity|]. split; [constructor | reflexivity].
  - destruct IH as (rest & Er & Hacc & Hlen).
    destruct (scale_delay_accurate (delay p) a b Hab) as (f & r & Ef' & Er' & Hr).
    { change (2 ^ 50) with 1125899906842624. change (2 ^ 49) with 562949953421312 in Ha. lia. }
    { rewrite (Z.abs_eq (delay p)) by lia.
      apply Z.le_trans with (b * a); [apply Z.mul_le_mono_nonneg_r; lia|].
      rewrite (Z.mul_comm b a). apply Z.mul_le_mono_nonneg_r; lia. }
    rewrite Ef in Ef'. injection Ef' as <-.
    exists (set_delay p r :: rest). cbn [scale]. rewrite Er'. cbn [bind].
    rewrite Er. cbn [bind]. split; [reflexivity|].
    split; [constructor; [exact Hr | exact Hacc] | cbn [length]; now rewrite Hlen].
Qed.

(** X17: two non-empty pulse trains of non-negative delays whose totals
    are positive and below 2^49 microseconds always synchronize: no
    division or rounding error is raised, the returned length is the
    longer total, the longer train is untouched, every binary64 product
    [round(delay * (longer / shorter))] is within one microsecond of the
    exact quotient, and the stretched train's total differs from the
    longer total by at most its number of pulses. *)
Theorem synchronize_accurate_in_range (wave1 wave2 : list pulse) :
  wave1 <> [] -> wave2 <> [] ->
  Forall (fun p => 0 <= delay p) wave1 ->
  Forall (fun p => 0 <= delay p) wave2 ->
  0 < wavelength wave1 < 2 ^ 49 -> 0 < wavelength wave2 < 2 ^ 49 ->
  let l1 := wavelength wave1 in
  let l2 := wavelength wave2 in
  exists wave1' wave2',
    synchronize wave1 wave2 = Ok (wave1', wave2', Z.max l1 l2) /\
    (l2 < l1 ->
     wave1' = wave1 /\ within_a_microsecond l1 l2 wave2 wave2' /\
     Z.abs (wavelength wave2' - l1) <= Z.of_nat (length wave2)) /\
    (l1 <= l2 ->
     wave2' = wave2 /\ within_a_microsecond l2 l1 wave1 wave1' /\
     Z.abs (wavelength wave1' - l2) <= Z.of_nat (length wave1)).
Proof.
  intros Hne1 Hne2 Hd1 Hd2 Hl1 Hl2 l1 l2.
  apply delay_le_wavelength in Hd1, Hd2. fold l1 in Hd1, Hl1. fold l2 in Hd2, Hl2.
  unfold synchronize.
  destruct wave1 as [|p1 w1]; [congruence|].
  destruct wave2 as [|p2 w2]; [congruence|].
  fold l1 l2.
  destruct (l2 <? l1) eqn:E.
  - apply Z.ltb_lt in E.
    destruct (scale_delay_accurate 0 l1 l2) as (factor & _ & Ef & _); try lia.
    destruct (scale_accurate l1 l2 factor (p2 :: w2)) as (w & Esc & Hacc & Hlen);
      try lia; try assumption.
    rewrite Ef. cbn [bind]. rewrite Esc. cbn [bind].
    exists (p1 :: w1), w. replace (Z.max l1 l2) with l1 by lia.
    split; [reflexivity|]. split; [|intros; lia].
    intros _. split; [reflexivity|]. split; [exact Hacc|].
    rewrite <- Hlen. apply (stretched_sum_bound l1 l2 (p2 :: w2)); [lia | reflexivity | exact Hacc].
  - apply Z.ltb_ge in E.
    destruct (scale_delay_accurate 0 l2 l1) as (factor & _ & Ef & _); try lia.
    destruct (scale_accurate l2 l1 factor (p1 :: w1)) as (w & Esc & Hacc & Hlen);
      try lia; try assumption.
    rewrite Ef. cbn [bind]. rewrite Esc. cbn [bind].
    exists w, (p2 :: w2). replace (Z.max l1 l2) with l2 by lia.
    split; [reflexivity|]. split; [intros; lia|].
    intros _. split; [reflexivity|]. split; [exact Hacc|].
    rewrite <- Hlen. apply (stretched_sum_bound l2 l1 (p1 :: w1)); [lia | reflexivity | exact Hacc].
Qed.

Lemma synchronize_accurate_in_range_witness :
  (example_feed_wave <> [] /\ example_tone_wave <> [] /\
   Forall (fun p => 0 <= delay p) example_feed_wave /\
   Forall (fun p => 0 <= delay p) example_tone_wave /\
   0 < wavelength example_feed_wave < 2 ^ 49 /\
   0 < wavelength example_tone_wave < 2 ^ 49) /\
  exists wave1',
    synchronize example_feed_wave example_tone_wave
    = Ok (wave1', example_tone_wave, 4994) /\
    within_a_microsecond 4994 2998 example_feed_wave wave1' /\
    Z.abs (wavelength wave1' - 4994) <= 6.
Proof.
  assert (H1 : Forall (fun p => 0 <= delay p) example_feed_wave)
    by (repeat constructor; vm_compute; discriminate).
  assert (H2 : Forall (fun p => 0 <= delay p) example_tone_wave)
    by (repeat constructor; vm_compute; discriminate).
  assert (B1 : 0 < wavelength example_feed_wave < 2 ^ 49)
    by (split; vm_compute; reflexivity).
  assert (B2 : 0 < wavelength example_tone_wave < 2 ^ 49)
    by (split; vm_compute; reflexivity).
  split.
  - split; [discriminate|]. split; [discriminate|]. auto.
  - destruct (synchronize_accurate_in_range example_feed_wave example_tone_wave
                ltac:(discriminate) ltac:(discriminate) H1 H2 B1 B2)
      as (w1 & w2 & Es & _ & Hle).
    destruct (Hle ltac:(vm_compute; discriminate)) as (-> & Hacc & Hsum).
    exists w1. split; [exact Es|]. split; [exact Hacc | exact Hsum].
Defined.

Lemma wavelength_delay_sum (pulses : list pulse) :
  wavelength pulses = delay_sum pulses.
Proof.
  induction pulses as [|p pulses IH]; [reflexivity|].
  rewrite wavelength_cons, IH. reflexivity.
Qed.

Lemma scaled_by_stretched (a b : Z) (factor : Py.number) (pulses pulses' : list pulse) :
  Py.truediv a b = Ok factor ->
  scaled_by factor pulses pulses' -> stretched a b pulses pulses'.
Proof.
  intros Ef. induction 1 as [|p p' pulses pulses' (Hon & Hoff & Hd) _ IH];
    constructor; [|exact IH].
  split; [exact Hon|]. split; [exact Hoff|].
  unfold stretched_delay. rewrite Ef. exact Hd.
Qed.

(** C6 (as stated) fails: two one-pulse trains of 2^60 + 100
    microseconds have equal totals, so the first is scaled by 1.0; the
    product is the binary64 nearest to 2^60 + 100, which is 2^60, and
    the two sums end 100 microseconds apart with one scaled pulse. *)
Lemma huge_delays_drift_apart :
  let p1 := mk_pulse 262144 0 (2 ^ 60 + 100) in
  let p2 := mk_pulse 8388608 0 (2 ^ 60 + 100) in
  exists p1',
    0 < wavelength [p1] /\ 0 < wavelength [p2] /\
    synchronize [p1] [p2] = Ok ([p1'], [p2], 2 ^ 60 + 100) /\
    delay p1' = 2 ^ 60 /\
    Z.abs (wavelength [p1'] - wavelength [p2]) = 100 /\
    ~ Z.abs (wavelength [p1'] - wavelength [p2]) <= Z.of_nat (length [p1']).
Proof.
  exists (mk_pulse 262144 0 (2 ^ 60)).
  split; [reflexivity|]. split; [reflexivity|].
  split; [vm_compute; reflexivity|]. split; [reflexivity|].
  split; [vm_compute; reflexivity|].
  vm_compute. intros H. apply H. reflexivity.
Qed.

(** C6 (amended): two non-empty pulse trains of non-negative delays
    whose totals are positive and below 2^49 microseconds always
    synchronize.  The returned length is the longer total, the longer
    train is left as it is, each delay of the shorter one is replaced
    by [round(delay * (longer / shorter))], and the two sums then agree
    within the number of pulses of the scaled train. *)
Theorem synchronize_stretches_shorter (wave1 wave2 : list pulse) :
  wave1 <> [] -> wave2 <> [] ->
  Forall (fun p => 0 <= delay p) wave1 ->
  Forall (fun p => 0 <= delay p) wave2 ->
  0 < delay_sum wave1 < 2 ^ 49 -> 0 < delay_sum wave2 < 2 ^ 49 ->
  let l1 := delay_sum wave1 in
  let l2 := delay_sum wave2 in
  exists wave1' wave2',
    synchronize wave1 wave2 = Ok (wave1', wave2', Z.max l1 l2) /\
    (l2 < l1 ->
     wave1' = wave1 /\ stretched l1 l2 wave2 wave2' /\
     Z.abs (delay_sum wave2' - delay_sum wave1') <= Z.of_nat (length wave2')) /\
    (l1 <= l2 ->
     wave2' = wave2 /\ stretched l2 l1 wave1 wave1' /\
     Z.abs (delay_sum wave1' - delay_sum wave2') <= Z.of_nat (length wave1')).
Proof.
  intros Hne1 Hne2 Hd1 Hd2 Hl1 Hl2 l1 l2. subst l1 l2.
  rewrite <- !wavelength_delay_sum in *.
  set (l1 := wavelength wave1) in *. set (l2 := wavelength wave2) in *.
  apply delay_le_wavelength in Hd1, Hd2. fold l1 in Hd1. fold l2 in Hd2.
  unfold synchronize.
  destruct wave1 as [|p1 w1]; [congruence|].
  destruct wave2 as [|p2 w2]; [congruence|].
  fold l1 l2.
  destruct (l2 <? l1) eqn:E.
  - apply Z.ltb_lt in E.
    destruct (scale_delay_accurate 0 l1 l2) as (factor & _ & Ef & _); try lia.
    destruct (scale_accurate l1 l2 factor (p2 :: w2)) as (w & Esc & Hacc & Hlen);
      try lia; try assumption.
    rewrite Ef. cbn [bind]. rewrite Esc. cbn [bind].
    exists (p1 :: w1), w. replace (Z.max l1 l2) with l1 by lia.
    split; [reflexivity|]. split; [|intros; lia].
    intros _. split; [reflexivity|].
    split; [apply (scaled_by_stretched l1 l2 factor _ _ Ef), scale_scaled_by, Esc|].
    rewrite <- !wavelength_delay_sum. fold l1.
    apply (stretched_sum_bound l1 l2 (p2 :: w2)); [lia | reflexivity | exact Hacc].
  - apply Z.ltb_ge in E.
    destruct (scale_delay_accurate 0 l2 l1) as (factor & _ & Ef & _); try lia.
    destruct (scale_accurate l2 l1 factor (p1 :: w1)) as (w & Esc & Hacc & Hlen);
      try lia; try assumption.
    rewrite Ef. cbn [bind]. rewrite Esc. cbn [bind].
    exists w, (p2 :: w2). replace (Z.max l1 l2) with l2 by lia.
    split; [reflexivity|]. split; [intros; lia|].
    intros _. split; [reflexivity|].
    split; [apply (scaled_by_stretched l2 l1 factor _ _ Ef), scale_scaled_by, Esc|].
    rewrite <- !wavelength_delay_sum. fold l2.
    apply (stretched_sum_bound l2 l1 (p1 :: w1)); [lia | reflexivity | exact Hacc].
Qed.

Lemma synchronize_stretches_shorter_witness :
  (example_feed_wave <> [] /\ example_tone_wave <> [] /\
   Forall (fun p => 0 <= delay p) example_feed_wave /\
   Forall (fun p => 0 <= delay p) example_tone_wave /\
   0 < delay_sum example_feed_wave < 2 ^ 49 /\
   0 < delay_sum example_tone_wave < 2 ^ 49) /\
  delay_sum example_feed_wave = 2998 /\
  delay_sum example_tone_wave = 4994 /\
  synchronize example_feed_wave example_tone_wave
  = Ok (example_feed_wave_scaled, example_tone_wave, 4994) /\
  stretched 4994 2998 example_feed_wave example_feed_wave_scaled /\
  Z.abs (delay_sum example_feed_wave_scaled - delay_sum example_tone_wave) <= 6.
Proof.
  assert (H1 : Forall (fun p => 0 <= delay p) example_feed_wave)
    by (repeat constructor; vm_compute; discriminate).
  assert (H2 : Forall (fun p => 0 <= delay p) example_tone_wave)
    by (repeat constructor; vm_compute; discriminate).
  assert (B1 : 0 < delay_sum example_feed_wave < 2 ^ 49)
    by (split; vm_compute; reflexivity).
  assert (B2 : 0 < delay_sum example_tone_wave < 2 ^ 49)
    by (split; vm_compute; reflexivity).
  assert (Hs : synchronize example_feed_wave example_tone_wave
               = Ok (example_feed_wave_scaled, example_tone_wave, 4994))
    by (vm_compute; reflexivity).
  split.
  - split; [discriminate|]. split; [discriminate|]. auto.
  - split; [reflexivity|]. split; [reflexivity|]. split; [exact Hs|].
    destruct (synchronize_stretches_shorter example_feed_wave example_tone_wave
                ltac:(discriminate) ltac:(discriminate) H1 H2 B1 B2)
      as (w1 & w2 & Es & _ & Hle).
    rewrite Hs in Es. injection Es as <- <-.
    destruct (Hle ltac:(vm_compute; discriminate)) as (_ & Hst & Hsum).
    split; [exact Hst | exact Hsum].
Defined.
